(** * Static export of a Glance dashboard: a shallow embedding of
      [scripts/export_static.py] and the properties of its text surgery.

    Python [str] values are lists of Unicode code points, the regular
    expressions of the script are values of a small abstract syntax run by a
    backtracking matcher with the priorities of CPython's [re] engine, and the
    effects of [main] (requests, files written under the output directory,
    the order in which they happen) are threaded through a state-and-error
    monad. *)

From Stdlib Require Import String Ascii.
From stdpp Require Import base option list gmap sorting.

Local Open Scope N_scope.

(** ** Python strings *)

Module Py.

(** A code point and a [str]. *)
Definition char : Type := N.
Definition str : Type := list char.

(** Text given as a Rocq literal (ASCII only). *)
Definition lit (s : string) : str :=
  map N_of_ascii (list_ascii_of_string s).

Definition DQ : char := 34.       (* the double quote *)
Definition SQ : char := 39.       (* the single quote *)
Definition SLASH : char := 47.
Definition BACKSLASH : char := 92.

Definition in_range (lo hi c : char) : bool := (lo <=? c) && (c <=? hi).

(** [str.isspace] on one code point; [\s] of a [str] pattern tests the
    same set. *)
Definition isspace (c : char) : bool :=
  in_range 9 13 c || in_range 28 32 c || (c =? 133) || (c =? 160)
  || (c =? 5760) || in_range 8192 8202 c || (c =? 8232) || (c =? 8233)
  || (c =? 8239) || (c =? 8287) || (c =? 12288).

Definition is_ascii_upper (c : char) : bool := in_range 65 90 c.
Definition is_ascii_lower (c : char) : bool := in_range 97 122 c.
Definition is_ascii_digit (c : char) : bool := in_range 48 57 c.
Definition is_ascii_letter (c : char) : bool :=
  is_ascii_upper c || is_ascii_lower c.

Fixpoint drop_while (p : char → bool) (s : str) : str :=
  match s with
  | c :: t => if p c then drop_while p t else s
  | [] => []
  end.

Definition lstrip_by (p : char → bool) (s : str) : str := drop_while p s.
Definition rstrip_by (p : char → bool) (s : str) : str :=
  rev (drop_while p (rev s)).

(** [s.strip()], and [s.lstrip] and [s.rstrip] of the slash. *)
Definition strip (s : str) : str := rstrip_by isspace (lstrip_by isspace s).
Definition lstrip_slash (s : str) : str := lstrip_by (N.eqb SLASH) s.
Definition rstrip_slash (s : str) : str := rstrip_by (N.eqb SLASH) s.

Definition str_eqb (a b : str) : bool := bool_decide (a = b).

(** The exceptions the script can meet. *)
Inductive exn :=
| re_error              (* re.error (or the IndexError of an unknown group
                           name) raised for a replacement template *)
| RuntimeError (msg : str)
| FileNotFoundError
| OSError               (* any other failure to read a file *)
| URLError.             (* any failure of urlopen / read *)

(** A computation that returns or raises. *)
Inductive result (A : Type) :=
| Ok (a : A)
| Raise (e : exn).
Arguments Ok {A} a.
Arguments Raise {A} e.

#[global] Instance result_ret : MRet result := λ A a, Ok a.
#[global] Instance result_bind : MBind result := λ A B f m,
  match m with Ok a => f a | Raise e => Raise e end.
#[global] Instance result_fmap : FMap result := λ A B f m,
  match m with Ok a => Ok (f a) | Raise e => Raise e end.

(** [s.startswith(p)]. *)
Fixpoint startswith (p s : str) : bool :=
  match p, s with
  | [], _ => true
  | a :: p', b :: s' => (a =? b) && startswith p' s'
  | _ :: _, [] => false
  end.

Definition endswith (p s : str) : bool := startswith (rev p) (rev s).

(** [s.split] and [join] on the slash. *)
Fixpoint split_go (sep : char) (cur : str) (s : str) : list str :=
  match s with
  | [] => [rev cur]
  | c :: t =>
      if c =? sep then rev cur :: split_go sep [] t
      else split_go sep (c :: cur) t
  end.
Definition split_slash (s : str) : list str := split_go SLASH [] s.

Fixpoint join_slash (l : list str) : str :=
  match l with
  | [] => []
  | [x] => x
  | x :: t => x ++ SLASH :: join_slash t
  end.

(** [s.splitlines()]: the line boundaries of [str], with [\r\n] as one. *)
Definition is_linebreak (c : char) : bool :=
  in_range 10 13 c || in_range 28 30 c || (c =? 133) || (c =? 8232) || (c =? 8233).

Fixpoint splitlines_go (cur : str) (s : str) : list str :=
  match s with
  | [] => match cur with [] => [] | _ => [rev cur] end
  | c :: t =>
      if c =? 13 then
        match t with
        | c' :: t' =>
            if c' =? 10 then rev cur :: splitlines_go [] t'
            else rev cur :: splitlines_go [] t
        | [] => [rev cur]
        end
      else if is_linebreak c then rev cur :: splitlines_go [] t
      else splitlines_go (c :: cur) t
  end.
Definition splitlines (s : str) : list str := splitlines_go [] s.

(** The order of [str]: by code point, a proper prefix first. *)
Fixpoint str_leb (a b : str) : bool :=
  match a, b with
  | [], _ => true
  | _ :: _, [] => false
  | x :: a', y :: b' =>
      if x <? y then true else if y <? x then false else str_leb a' b'
  end.
Definition str_le (a b : str) : Prop := str_leb a b = true.
#[global] Instance str_le_dec a b : Decision (str_le a b).
Proof. unfold str_le. apply _. Defined.

(** [sorted(l)] for a list of strings. *)
Definition sorted (l : list str) : list str := merge_sort str_le l.

(** *** [posixpath] *)

(** [posixpath.join(a, b)]. *)
Definition posix_join (a b : str) : str :=
  if startswith [SLASH] b then b
  else if str_eqb a [] || endswith [SLASH] a then a ++ b
  else a ++ SLASH :: b.

Definition DOT : str := [46].
Definition DOTDOT : str := [46; 46].

(** The loop of [posixpath.normpath] over the components, [new_comps]
    kept reversed. *)
Fixpoint normpath_comps (initial_slashes : nat) (new_comps : list str)
    (comps : list str) : list str :=
  match comps with
  | [] => rev new_comps
  | comp :: rest =>
      if str_eqb comp [] || str_eqb comp DOT then
        normpath_comps initial_slashes new_comps rest
      else if negb (str_eqb comp DOTDOT)
              || (Nat.eqb initial_slashes 0 && bool_decide (new_comps = []))
              || match new_comps with
                 | last_ :: _ => str_eqb last_ DOTDOT
                 | [] => false
                 end
      then normpath_comps initial_slashes (comp :: new_comps) rest
      else normpath_comps initial_slashes (tail new_comps) rest
  end.

(** [posixpath.normpath(path)]. *)
Definition normpath (path : str) : str :=
  match path with
  | [] => DOT
  | _ =>
      let initial_slashes :=
        if startswith [SLASH] path then
          if startswith [SLASH; SLASH] path
             && negb (startswith [SLASH; SLASH; SLASH] path)
          then 2%nat else 1%nat
        else 0%nat in
      let comps := normpath_comps initial_slashes [] (split_slash path) in
      let path' := replicate initial_slashes SLASH ++ join_slash comps in
      match path' with [] => DOT | _ => path' end
  end.

(** *** [pathlib] (POSIX flavour) *)

(** The parts of a path below its root: empty and [.] components are
    dropped, [..] is kept. *)
Definition pathlib_parts (s : str) : list str :=
  filter (λ seg, seg ≠ [] ∧ seg ≠ DOT) (split_slash s).

(** [str(Path(p).parent)]. *)
Definition pathlib_parent (p : str) : str :=
  let root :=
    if startswith [SLASH] p then
      if startswith [SLASH; SLASH] p && negb (startswith [SLASH; SLASH; SLASH] p)
      then [SLASH; SLASH] else [SLASH]
    else [] in
  let parts := pathlib_parts p in
  match root, parts with
  | [], [] => DOT
  | [], [_] => DOT
  | _, _ => root ++ join_slash (removelast parts)
  end.

(** [Path(name).suffix.lower()], for the comparison with [.html] and
    [.css]: of the cased characters only A-Z lower to letters of these
    two suffixes. *)
Definition ascii_lower (c : char) : char := if is_ascii_upper c then c + 32 else c.

Fixpoint rfind_dot (i : nat) (best : option nat) (s : str) : option nat :=
  match s with
  | [] => best
  | c :: t => rfind_dot (S i) (if c =? 46 then Some i else best) t
  end.

Definition suffix_lower (name : str) : str :=
  match rfind_dot 0 None name with
  | Some i =>
      if (Nat.ltb 0 i) && (Nat.ltb i (length name - 1))
      then ascii_lower <$> drop i name else []
  | None => []
  end.

End Py.
Import Py.

(** ** Regular expressions

    The fragment of [re] the script uses: literals, character sets, [\s],
    greedy [*], [+] and [?] over one-character items, capture groups, a
    back-reference, the negative look-ahead [(?!c)], [^], [$] and [\b]. A
    pattern is the sequence of its nodes; there is no alternation in the
    script. *)

Module Re.

(** What the matcher needs from the Unicode database beyond ASCII:
    [str.isalnum] of a code point from 128 up (for [\w] and so [\b]). *)
Class Unicode := { isalnum_high : char → bool }.

Inductive atom :=
| Lit (c : char)                                  (* a literal character *)
| Set_ (negated : bool) (ranges : list (char * char))   (* [...] or [^...] *)
| Space.                                          (* \s *)

Inductive node :=
| One (a : atom)
| Star (a : atom)                (* a*  greedy *)
| Plus (a : atom)                (* a+  greedy *)
| Opt (a : atom)                 (* a?  greedy *)
| Open (g : nat)                 (* ( of group g *)
| Close (g : nat)                (* ) of group g *)
| Backref (g : nat)              (* \g *)
| NotNext (c : char)             (* (?!c) *)
| Bol                            (* ^ without MULTILINE *)
| Eol                            (* $ without MULTILINE *)
| WordB.                         (* \b *)

Definition regex : Type := list node.

Record flags := { ignorecase : bool }.
Definition NOFLAGS : flags := {| ignorecase := false |}.
Definition IGNORECASE : flags := {| ignorecase := true |}.

(** [\w] of a [str] pattern: alphanumeric or underscore. *)
Definition is_word `{Unicode} (c : char) : bool :=
  if c <? 128 then is_ascii_letter c || is_ascii_digit c || (c =? 95)
  else isalnum_high c.

(** The lower-case mapping of the engine, on the code points whose image
    is an ASCII letter: A-Z, U+0130 (to i) and U+212A (to k). Every other
    code point is mapped outside the ASCII letters or to itself. *)
Definition lower_ascii (c : char) : char :=
  if is_ascii_upper c then c + 32
  else if c =? 304 then 105
  else if c =? 8490 then 107
  else c.

(** A literal of the pattern against a character of the text. Under
    IGNORECASE an ASCII letter matches the characters lowered to it, and
    [i] and [s] also match U+0131 and U+017F (the engine's extra cases).
    The patterns of the script have ASCII literals only. *)
Definition lit_matches (fl : flags) (p c : char) : bool :=
  if ignorecase fl && is_ascii_letter p then
    let lo := lower_ascii p in
    (lower_ascii c =? lo)
    || ((lo =? 105) && (c =? 305))
    || ((lo =? 115) && (c =? 383))
  else c =? p.

(** The sets of the script hold no cased character, so a set tests the
    character as it is under either flag. *)
Definition test (fl : flags) (a : atom) (c : char) : bool :=
  match a with
  | Lit p => lit_matches fl p c
  | Set_ neg rs => xorb neg (existsb (λ r, in_range r.1 r.2 c) rs)
  | Space => isspace c
  end.

(** Group marks: where a group was opened, and the spans of the groups
    closed so far (latest first). *)
Record caps := { starts : list (nat * nat); spans : list (nat * (nat * nat)) }.
Definition no_caps : caps := {| starts := []; spans := [] |}.

Fixpoint assoc {A} (g : nat) (l : list (nat * A)) : option A :=
  match l with
  | (k, v) :: t => if Nat.eqb k g then Some v else assoc g t
  | [] => None
  end.

Definition substr (s : str) (i j : nat) : str := take (j - i) (drop i s).

(** The state of an attempt: the text it has consumed so far, reversed;
    the text ahead; the marks, counted from the start of the attempt. *)
Record mres := { m_got : str; m_rest : str; m_caps : caps }.

(** Greedy repetition of a one-character test, longest first, giving
    back one character at a time while the continuation fails. *)
Fixpoint greedy (p : char → bool) (k : str → str → option mres)
    (got rest : str) : option mres :=
  match rest with
  | c :: t =>
      if p c then
        match greedy p k (c :: got) t with
        | Some m => Some m
        | None => k got rest
        end
      else k got rest
  | [] => k got rest
  end.

(** Where [$] matches: at the end, and before a final newline. *)
Definition at_end (rest : str) : bool :=
  match rest with
  | [] => true
  | [c] => c =? 10
  | _ => false
  end.

(** [\b] compares the character before the position, the last one
    consumed or else the last one before the attempt, with the next. *)
Definition starts_word `{Unicode} (s : str) : bool :=
  match s with c :: _ => is_word c | [] => false end.

Definition prev_is_word `{Unicode} (before got : str) : bool :=
  match got with
  | c :: _ => is_word c
  | [] => starts_word before
  end.

(** One attempt at a position, in the engine's priority order; [before]
    is the text before the position, reversed. *)
Fixpoint exec `{Unicode} (fl : flags) (r : regex) (before got rest : str) (cs : caps)
    {struct r} : option mres :=
  match r with
  | [] => Some {| m_got := got; m_rest := rest; m_caps := cs |}
  | n :: r' =>
      match n with
      | One a =>
          match rest with
          | c :: t => if test fl a c then exec fl r' before (c :: got) t cs else None
          | [] => None
          end
      | Star a =>
          greedy (test fl a) (λ got' rest', exec fl r' before got' rest' cs) got rest
      | Plus a =>
          match rest with
          | c :: t =>
              if test fl a c then
                greedy (test fl a) (λ got' rest', exec fl r' before got' rest' cs)
                  (c :: got) t
              else None
          | [] => None
          end
      | Opt a =>
          match rest with
          | c :: t =>
              if test fl a c then
                match exec fl r' before (c :: got) t cs with
                | Some m => Some m
                | None => exec fl r' before got rest cs
                end
              else exec fl r' before got rest cs
          | [] => exec fl r' before got rest cs
          end
      | Open g =>
          exec fl r' before got rest
            {| starts := (g, length got) :: starts cs; spans := spans cs |}
      | Close g =>
          match assoc g (starts cs) with
          | Some s =>
              exec fl r' before got rest
                {| starts := starts cs;
                   spans := (g, (s, length got)) :: spans cs |}
          | None => None
          end
      | Backref g =>
          match assoc g (spans cs) with
          | Some (s, e) =>
              let w := substr (rev got) s e in
              if startswith w rest
              then exec fl r' before (rev w ++ got) (drop (length w) rest) cs
              else None
          | None => None
          end
      | NotNext c =>
          match rest with
          | d :: _ => if d =? c then None else exec fl r' before got rest cs
          | [] => exec fl r' before got rest cs
          end
      | Bol =>
          match before, got with
          | [], [] => exec fl r' before got rest cs
          | _, _ => None
          end
      | Eol => if at_end rest then exec fl r' before got rest cs else None
      | WordB =>
          if xorb (prev_is_word before got) (starts_word rest)
          then exec fl r' before got rest cs else None
      end
  end.

(** A match object: the text before the match, the matched text, the
    text after it, and the spans of the groups inside the matched text. *)
Record rmatch := {
  mt_before : str; mt_matched : str; mt_after : str; mt_caps : caps
}.

Definition mk_match (before : str) (m : mres) : rmatch :=
  {| mt_before := rev before; mt_matched := rev (m_got m);
     mt_after := m_rest m; mt_caps := m_caps m |}.

(** [m.group(g)]; [None] for a group that did not take part. *)
Definition group (m : rmatch) (g : nat) : option str :=
  match g with
  | O => Some (mt_matched m)
  | _ => match assoc g (spans (mt_caps m)) with
         | Some (s, e) => Some (substr (mt_matched m) s e)
         | None => None
         end
  end.

(** [pattern.match(text)]: at the start of the string only. *)
Definition match_ `{Unicode} (fl : flags) (r : regex) (text : str) : option rmatch :=
  mk_match [] <$> exec fl r [] [] text no_caps.

(** The leftmost match at or after the current position. *)
Fixpoint search_from `{Unicode} (fl : flags) (r : regex) (before rest : str)
    : option rmatch :=
  match exec fl r before [] rest no_caps with
  | Some m => Some (mk_match before m)
  | None =>
      match rest with
      | c :: t => search_from fl r (c :: before) t
      | [] => None
      end
  end.

(** [re.search(pattern, text, flags)]. *)
Definition search `{Unicode} (fl : flags) (r : regex) (text : str) : option rmatch :=
  search_from fl r [] text.

(** The number of groups of a pattern. *)
Definition ngroups (r : regex) : nat :=
  foldr (λ n acc, match n with Open g => Nat.max g acc | _ => acc end) O r.

(** *** Replacement templates

    [re.sub] with a string replacement compiles the string before it
    looks for a match ([re._parser.parse_template], CPython 3.12): a
    backslash starts a group reference, an octal escape or one of the
    escapes [\a \b \f \n \r \t \v \\]; a backslash before any other ASCII
    letter, or at the end, is an error; before any other character it
    stands for itself together with that character. *)

Inductive tpart :=
| TLit (c : char)
| TGroup (g : nat).

Definition is_octdigit (c : char) : bool := in_range 48 55 c.
Definition digit (c : char) : N := c - 48.

Definition escape (c : char) : option char :=
  if c =? 97 then Some 7            (* \a *)
  else if c =? 98 then Some 8       (* \b *)
  else if c =? 102 then Some 12     (* \f *)
  else if c =? 110 then Some 10     (* \n *)
  else if c =? 114 then Some 13     (* \r *)
  else if c =? 116 then Some 9      (* \t *)
  else if c =? 118 then Some 11     (* \v *)
  else if c =? BACKSLASH then Some BACKSLASH
  else None.

(** [int(name)] for a non-empty name of ASCII decimal digits. *)
Definition decimal (name : str) : option N :=
  match name with
  | [] => None
  | _ => if forallb is_ascii_digit name
         then Some (foldl (λ acc d, 10 * acc + digit d) 0 name)
         else None
  end.

Definition addgroup (groups : nat) (index : N)
    (k : result (list tpart)) : result (list tpart) :=
  if N.of_nat groups <? index then Raise re_error   (* invalid group reference *)
  else cons (TGroup (N.to_nat index)) <$> k.

Fixpoint parse_template (groups : nat) (s : str) : result (list tpart) :=
  match s with
  | [] => Ok []
  | c :: t =>
      if negb (c =? BACKSLASH) then cons (TLit c) <$> parse_template groups t
      else
        match t with
        | [] => Raise re_error                      (* bad escape (end of pattern) *)
        | e :: t1 =>
            if e =? 103 then                         (* \g<name> *)
              match t1 with
              | 60 :: t2 =>
                  (fix getuntil (name u : str) {struct u} : result (list tpart) :=
                     match u with
                     | [] => Raise re_error          (* missing >, unterminated name *)
                     | x :: u' =>
                         if x =? 62 then
                           match decimal name with
                           | Some index =>
                               addgroup groups index (parse_template groups u')
                           | None => Raise re_error  (* no named group in the script *)
                           end
                         else getuntil (name ++ [x]) u'
                     end) [] t2
              | _ => Raise re_error                  (* missing < *)
              end
            else if e =? 48 then                     (* \0, \0o, \0oo *)
              match t1 with
              | d1 :: t2 =>
                  if is_octdigit d1 then
                    match t2 with
                    | d2 :: t3 =>
                        if is_octdigit d2
                        then cons (TLit (N.land (8 * digit d1 + digit d2) 255))
                               <$> parse_template groups t3
                        else cons (TLit (digit d1)) <$> parse_template groups t2
                    | [] => Ok [TLit (digit d1)]
                    end
                  else cons (TLit 0) <$> parse_template groups t1
              | [] => Ok [TLit 0]
              end
            else if is_ascii_digit e then            (* \1 .. \99, \ooo *)
              match t1 with
              | d1 :: t2 =>
                  if is_ascii_digit d1 then
                    match t2 with
                    | d2 :: t3 =>
                        if is_octdigit e && is_octdigit d1 && is_octdigit d2 then
                          let v := 64 * digit e + 8 * digit d1 + digit d2 in
                          if 255 <? v then Raise re_error
                          else cons (TLit v) <$> parse_template groups t3
                        else addgroup groups (10 * digit e + digit d1)
                               (parse_template groups t2)
                    | [] => addgroup groups (10 * digit e + digit d1) (Ok [])
                    end
                  else addgroup groups (digit e) (parse_template groups t1)
              | [] => addgroup groups (digit e) (Ok [])
              end
            else
              match escape e with
              | Some x => cons (TLit x) <$> parse_template groups t1
              | None =>
                  if is_ascii_letter e then Raise re_error          (* bad escape *)
                  else (λ l, TLit c :: TLit e :: l) <$> parse_template groups t1
              end
        end
  end.

(** [m.expand]: a group that did not take part gives the empty string. *)
Definition expand (tpl : list tpart) (m : rmatch) : str :=
  flat_map (λ p, match p with
                 | TLit c => [c]
                 | TGroup g => default [] (group m g)
                 end) tpl.

(** *** Substitution and iteration

    The scan of [re.sub] and [re.finditer]: at each position not inside
    the previous match the pattern is tried; a match is replaced and the
    scan goes on at its end. [skip] counts the characters of the current
    match still to pass over, [limit] the replacements still allowed
    ([None]: no limit). After an empty match the scan copies one character
    and tries again at the next position. *)

Definition matched_len (m : mres) : nat := length (m_got m).

Fixpoint sub_go `{Unicode} (fl : flags) (r : regex) (tpl : list tpart)
    (limit : option nat) (pre rest : str) (skip : nat) {struct rest} : str * nat :=
  match skip with
  | S k =>
      match rest with
      | c :: t => sub_go fl r tpl limit (c :: pre) t k
      | [] => ([], O)
      end
  | O =>
      match (if limit is Some O then None else exec fl r pre [] rest no_caps) with
      | Some m =>
          let rep := expand tpl (mk_match pre m) in
          let limit' := pred <$> limit in
          match rest with
          | c :: t =>
              match matched_len m with
              | O => let '(out, n) := sub_go fl r tpl limit' (c :: pre) t O in
                     (rep ++ c :: out, S n)
              | S k => let '(out, n) := sub_go fl r tpl limit' (c :: pre) t k in
                       (rep ++ out, S n)
              end
          | [] => (rep, 1%nat)
          end
      | None =>
          match rest with
          | c :: t => let '(out, n) := sub_go fl r tpl limit (c :: pre) t O in
                      (c :: out, n)
          | [] => ([], O)
          end
      end
  end.

(** [re.subn(pattern, repl, text, count, flags)]; [count = 0] replaces
    every match. *)
Definition subn `{Unicode} (fl : flags) (r : regex) (repl text : str) (count : nat)
    : result (str * nat) :=
  tpl ← parse_template (ngroups r) repl;
  Ok (sub_go fl r tpl (match count with O => None | _ => Some count end) [] text O).

(** [re.sub]. *)
Definition sub `{Unicode} (fl : flags) (r : regex) (repl text : str) (count : nat)
    : result str :=
  fst <$> subn fl r repl text count.

Fixpoint finditer_go `{Unicode} (fl : flags) (r : regex) (pre rest : str) (skip : nat)
    {struct rest} : list rmatch :=
  match skip with
  | S k =>
      match rest with
      | c :: t => finditer_go fl r (c :: pre) t k
      | [] => []
      end
  | O =>
      match exec fl r pre [] rest no_caps with
      | Some m =>
          mk_match pre m ::
          match rest with
          | c :: t => finditer_go fl r (c :: pre) t (pred (matched_len m))
          | [] => []
          end
      | None =>
          match rest with
          | c :: t => finditer_go fl r (c :: pre) t O
          | [] => []
          end
      end
  end.

(** [pattern.finditer(text)]. *)
Definition finditer `{Unicode} (fl : flags) (r : regex) (text : str) : list rmatch :=
  finditer_go fl r [] text O.

(** The nodes of a literal run of the pattern. *)
Definition lits (s : string) : regex := (λ c, One (Lit c)) <$> lit s.

End Re.
Import Re.

(** ** The patterns of the script

    In the comments [DQ] writes the double quote of the source pattern. *)

Definition QUOTE : atom := Set_ false [(SQ, SQ); (DQ, DQ)].       (* a quote of either kind *)
Definition NOT_QUOTE : atom := Set_ true [(SQ, SQ); (DQ, DQ)].    (* anything but a quote *)
Definition NOT_GT : atom := Set_ true [(62, 62)].                 (* [^>] *)

(** [^\s*slug:\s*([A-Za-z0-9_-]+)\s*$] *)
Definition SLUG_CHAR : atom :=                                     (* [A-Za-z0-9_-] *)
  Set_ false [(65, 90); (97, 122); (48, 57); (95, 95); (45, 45)].

Definition slug_re : regex :=
  [Bol; Star Space] ++ lits "slug:" ++
  [Star Space; Open 1; Plus SLUG_CHAR; Close 1; Star Space; Eol].

(** [<link[^>]+href=['DQ](/static/[^'DQ]+/css/bundle\.css)['DQ][^>]*>] *)
Definition bundle_css_re : regex :=
  lits "<link" ++ [Plus NOT_GT] ++ lits "href=" ++ [One QUOTE; Open 1] ++
  lits "/static/" ++ [Plus NOT_QUOTE] ++ lits "/css/bundle.css" ++
  [Close 1; One QUOTE; Star NOT_GT; One (Lit 62)].

(** [<script[^>]+src=['DQ](/static/[^'DQ]+/js/page\.js)['DQ][^>]*></script>] *)
Definition page_js_re : regex :=
  lits "<script" ++ [Plus NOT_GT] ++ lits "src=" ++ [One QUOTE; Open 1] ++
  lits "/static/" ++ [Plus NOT_QUOTE] ++ lits "/js/page.js" ++
  [Close 1; One QUOTE; Star NOT_GT] ++ lits "></script>".

(** [(<div[^>]*\bid=[DQ']page-content[DQ'][^>]*>)\s*</div>] *)
Definition placeholder_re : regex :=
  [Open 1] ++ lits "<div" ++ [Star NOT_GT; WordB] ++ lits "id=" ++ [One QUOTE] ++
  lits "page-content" ++ [One QUOTE; Star NOT_GT; One (Lit 62); Close 1; Star Space] ++
  lits "</div>".

(** [(<main[^>]*\bclass=[DQ'])page(\b[^DQ']*[DQ'][^>]*>)] *)
Definition main_class_re : regex :=
  [Open 1] ++ lits "<main" ++ [Star NOT_GT; WordB] ++ lits "class=" ++
  [One QUOTE; Close 1] ++ lits "page" ++
  [Open 2; WordB; Star NOT_QUOTE; One QUOTE; Star NOT_GT; One (Lit 62); Close 2].

(** [(\baria-busy=[DQ'])true([DQ'])] *)
Definition aria_busy_re : regex :=
  [Open 1; WordB] ++ lits "aria-busy=" ++ [One QUOTE; Close 1] ++ lits "true" ++
  [Open 2; One QUOTE; Close 2].

(** [<script[^>]+src=['DQ]/static/[^'DQ]+/js/page\.js['DQ][^>]*></script>\s*] *)
Definition boot_script_re : regex :=
  lits "<script" ++ [Plus NOT_GT] ++ lits "src=" ++ [One QUOTE] ++
  lits "/static/" ++ [Plus NOT_QUOTE] ++ lits "/js/page.js" ++
  [One QUOTE; Star NOT_GT] ++ lits "></script>" ++ [Star Space].

(** [{attr}=DQ/(?!/)] and [{attr}='/(?!/)] *)
Definition attr_re (attr : string) (quote : char) : regex :=
  lits attr ++ [One (Lit 61); One (Lit quote); One (Lit SLASH); NotNext SLASH].

(** [url\('/(?!/)] and [url\(DQ/(?!/)] *)
Definition css_url_re (quote : char) : regex :=
  lits "url(" ++ [One (Lit quote); One (Lit SLASH); NotNext SLASH].

(** [href=(['DQ])manifest\.json] *)
Definition manifest_re : regex :=
  lits "href=" ++ [Open 1; One QUOTE; Close 1] ++ lits "manifest.json".

(** [url\(\s*(['DQ]?)([^'DQ\)]+)\1\s*\)] *)
Definition url_re : regex :=
  lits "url(" ++
  [Star Space; Open 1; Opt QUOTE; Close 1; Open 2;
   Plus (Set_ true [(SQ, SQ); (DQ, DQ); (41, 41)]); Close 2;
   Backref 1; Star Space; One (Lit 41)].

(** ** [_normalize_base_path] *)

Definition _normalize_base_path (base_path : str) : str :=
  let base_path := strip base_path in
  if str_eqb base_path [] || str_eqb base_path [SLASH] then []
  else
    let base_path :=
      if negb (startswith [SLASH] base_path) then SLASH :: base_path
      else base_path in
    rstrip_slash base_path.

(** ** [_discover_slugs] *)

(** What [read_text] gives for one entry of the configuration directory. *)
Inductive read_result :=
| Content (text : str)      (* the decoded text of the file *)
| Missing                   (* FileNotFoundError: gone, or a dangling link *)
| Unreadable.               (* any other OSError: no permission, a directory *)

(** The [*.yml] entries of the configuration directory by name, in the
    order the directory lists them; [None] when there is no such directory
    (the glob is then empty). *)
Definition config_dir : Type := option (list (str * read_result)).

Definition read_text (f : read_result) : result str :=
  match f with
  | Content text => Ok text
  | Missing => Raise FileNotFoundError
  | Unreadable => Raise OSError
  end.

(** [sorted(config_dir.glob(...))]: the entries by name. *)
Definition sorted_glob (d : config_dir) : list (str * read_result) :=
  match d with
  | Some entries => merge_sort (λ a b, str_le a.1 b.1) entries
  | None => []
  end.

Definition HOME : str := lit "home".

Section Script.

Context `{Unicode}.

(** The body of the loop over the lines of one file: the state is
    [(slugs, seen)]. *)
Definition scan_line (st : list str * gset str) (line : str) : list str * gset str :=
  match match_ NOFLAGS slug_re line with
  | None => st
  | Some m =>
      let slug := default [] (group m 1) in
      if decide (slug ∈ st.2) then st
      else (st.1 ++ [slug], {[slug]} ∪ st.2)
  end.

Fixpoint scan_files (files : list (str * read_result)) (st : list str * gset str)
    : result (list str * gset str) :=
  match files with
  | [] => Ok st
  | (_, yml) :: rest =>
      match read_text yml with
      | Ok text => scan_files rest (foldl scan_line st (splitlines text))
      | Raise FileNotFoundError => scan_files rest st
      | Raise e => Raise e
      end
  end.

Definition _discover_slugs (d : config_dir) : result (list str) :=
  '(slugs, seen) ← scan_files (sorted_glob d) ([], ∅);
  Ok (if decide (HOME ∈ seen)
      then HOME :: filter (λ s, s ≠ HOME) slugs
      else slugs).

(** ** [_extract_bundle_css_path], [_extract_page_js_path] *)

Definition _extract_bundle_css_path (shell_html : str) : result str :=
  match search IGNORECASE bundle_css_re shell_html with
  | None => Raise (RuntimeError (lit "Could not find bundle.css path in page HTML"))
  | Some m => Ok (default [] (group m 1))
  end.

Definition _extract_page_js_path (shell_html : str) : option str :=
  m ← search IGNORECASE page_js_re shell_html; group m 1.

(** ** [_inject_content] *)

(** Step 2 of [_inject_content], the busy-state toggle. *)
Definition mark_content_ready (injected : str) : result str :=
  injected ← sub IGNORECASE main_class_re
               ([BACKSLASH; 49] ++ lit "page content-ready" ++ [BACKSLASH; 50])
               injected 1;
  sub IGNORECASE aria_busy_re
    ([BACKSLASH; 49] ++ lit "false" ++ [BACKSLASH; 50]) injected 1.

Definition _inject_content (shell_html content_html : str) : result str :=
  '(injected, n) ← subn IGNORECASE placeholder_re
                     ([BACKSLASH; 49] ++ content_html ++ lit "</div>")
                     shell_html 1;
  if negb (Nat.eqb n 1) then
    Raise (RuntimeError (lit "Failed to inject page content (page-content div not found)"))
  else
    injected ← mark_content_ready injected;
    sub IGNORECASE boot_script_re [] injected 1.

(** ** [_rewrite_base_paths] *)

(** The two substitutions of the loop body for one attribute. *)
Definition rewrite_attr (attr : string) (base_path text : str) : result str :=
  text ← sub NOFLAGS (attr_re attr DQ)
           (lit attr ++ [61; DQ] ++ base_path ++ [SLASH]) text 0;
  sub NOFLAGS (attr_re attr SQ)
    (lit attr ++ [61; SQ] ++ base_path ++ [SLASH]) text 0.

Definition _rewrite_base_paths (text base_path : str) : result str :=
  if str_eqb base_path [] then Ok text
  else
    text ← rewrite_attr "href" base_path text;
    text ← rewrite_attr "src" base_path text;
    text ← rewrite_attr "action" base_path text;
    text ← sub NOFLAGS (css_url_re SQ)
             (lit "url(" ++ [SQ] ++ base_path ++ [SLASH]) text 0;
    text ← sub NOFLAGS (css_url_re DQ)
             (lit "url(" ++ [DQ] ++ base_path ++ [SLASH]) text 0;
    sub IGNORECASE manifest_re
      (lit "href=" ++ [BACKSLASH; 49] ++ base_path ++ lit "/manifest.json") text 0.

(** ** The references of the stylesheet bundle *)

(** The directory of the bundle: a slash, then the parent of the path
    without its leading slashes. *)
Definition css_dir_of (bundle_css_path : str) : str :=
  SLASH :: lstrip_slash (pathlib_parent bundle_css_path).

(** The body of the loop over the matches of [url_re]: the reference to
    add to [refs], if any. *)
Definition resolve_ref (css_dir : str) (m : rmatch) : option str :=
  let ref := strip (default [] (group m 2)) in
  if str_eqb ref [] || startswith (lit "data:") ref then None
  else if startswith (lit "http://") ref || startswith (lit "https://") ref then None
  else if startswith [SLASH] ref then Some ref
  else
    let resolved := normpath (posix_join css_dir ref) in
    Some (if negb (startswith [SLASH] resolved) then SLASH :: resolved else resolved).

Definition css_refs (bundle_css_path css_text : str) : gset str :=
  foldl (λ refs m,
           match resolve_ref (css_dir_of bundle_css_path) m with
           | Some ref => {[ref]} ∪ refs
           | None => refs
           end)
    ∅ (finditer NOFLAGS url_re css_text).

End Script.

(** ** The world of a run

    A run talks to the dashboard server and writes below the output
    directory. Paths are the lists of their parts below that directory;
    file contents and response bodies are byte strings.

    The directory [assets/] of the repository enters as the run finds it
    when it tests and copies it, which is after it has removed and made
    anew the output directory: when [--out-dir] names [assets] itself or
    a directory above it, what the run finds is what its own reset has
    left, an empty directory or none. *)

Definition bytes : Type := list N.
Definition path : Type := list str.

(** The library functions the script goes through for bytes and URLs. *)
Class Runtime := {
  decode : bytes → str;            (* bytes.decode, utf-8, errors replaced *)
  encode : str → bytes;            (* str.encode, utf-8 *)
  urljoin : str → str → str;       (* urllib.parse.urljoin *)
}.

Inductive event :=
| Fetch (url : str) (answered : bool)      (* _fetch_bytes(url) *)
| WriteBytes (p : path) (data : bytes)     (* _write_bytes(out_dir / p, data) *)
| WriteText (p : path) (text : str)        (* _write_text(out_dir / p, text) *)
| ResetOutDir                              (* rmtree(out_dir), then _mkdirp(out_dir) *)
| CopyAssets                               (* copytree(assets, out_dir / assets) *)
| Sleep
| Print (to_stderr : bool).

Record world := {
  server : nat → str → option bytes;   (* the body the n-th request of the run
                                          gets for a URL; None: urlopen raises *)
  patience : nat;                      (* failed probes that fit in the timeout *)
  assets : option (gmap path bytes);   (* the files of assets/ as the run finds
                                          them after the reset of the output
                                          directory, None: no such directory *)
  requests : nat;                      (* requests made so far *)
  tree : gmap path bytes;              (* the files below the output directory *)
  trace : list event;                  (* what happened, oldest first *)
}.

Definition log (e : event) (w : world) : world :=
  {| server := server w; patience := patience w; assets := assets w;
     requests := requests w; tree := tree w; trace := trace w ++ [e] |}.

Definition set_tree (t : gmap path bytes) (w : world) : world :=
  {| server := server w; patience := patience w; assets := assets w;
     requests := requests w; tree := t; trace := trace w |}.

Definition count_request (w : world) : world :=
  {| server := server w; patience := patience w; assets := assets w;
     requests := S (requests w); tree := tree w; trace := trace w |}.

(** How a step of [main] ends: with a value, by a [return] of [main], or
    with an exception. *)
Inductive outcome (A : Type) :=
| Val (a : A)
| Return (code : Z)
| Raised (e : exn).
Arguments Val {A} a.
Arguments Return {A} code.
Arguments Raised {A} e.

Definition IO (A : Type) : Type := world → outcome A * world.

#[global] Instance IO_ret : MRet IO := λ A a w, (Val a, w).
#[global] Instance IO_bind : MBind IO := λ A B f m w,
  match m w with
  | (Val a, w') => f a w'
  | (Return c, w') => (Return c, w')
  | (Raised e, w') => (Raised e, w')
  end.

Definition lift {A} (r : result A) : IO A :=
  λ w, match r with Ok a => (Val a, w) | Raise e => (Raised e, w) end.

Definition return_ {A} (code : Z) : IO A := λ w, (Return code, w).
Definition raise {A} (e : exn) : IO A := λ w, (Raised e, w).
Definition emit (e : event) : IO unit := λ w, (Val (), log e w).

(** [try: m except Exception: ...]: the exception, if any, as a value. *)
Definition try_ {A} (m : IO A) : IO (result A) :=
  λ w, match m w with
       | (Val a, w') => (Val (Ok a), w')
       | (Return c, w') => (Return c, w')
       | (Raised e, w') => (Val (Raise e), w')
       end.

Fixpoint for_each {A} (f : A → IO unit) (l : list A) : IO unit :=
  match l with
  | [] => mret ()
  | x :: t => f x ≫= λ _, for_each f t
  end.

(** The file a path names: [..] steps back over the part before it. *)
Fixpoint resolve_go (seen : path) (p : path) : path :=
  match p with
  | [] => rev seen
  | part :: rest =>
      if str_eqb part DOTDOT then
        match seen with
        | prev :: seen' =>
            if str_eqb prev DOTDOT then resolve_go (part :: seen) rest
            else resolve_go seen' rest
        | [] => resolve_go [part] rest
        end
      else resolve_go (part :: seen) rest
  end.
Definition resolve (p : path) : path := resolve_go [] p.

(** The status the process ends with: the value [main] returns, or 1 when
    an exception leaves [main]. *)
Definition exit_status (o : outcome Z) : Z :=
  match o with
  | Val code | Return code => code
  | Raised _ => 1
  end.

Record args := {
  glance_url_arg : str;          (* --glance-url *)
  base_path_arg : str;           (* --base-path *)
  config_dir_arg : config_dir;   (* the directory --config-dir names *)
}.

(** What [parser.parse_args()] makes of the command line: the arguments,
    or the end of the process by argparse itself, with status 2 after a
    usage message on the error stream, or with status 0 after the help
    text. *)
Inductive parsed :=
| Parsed (a : args)
| UsageError
| HelpShown.

Section Main.

Context `{Unicode} `{Runtime}.

Definition _fetch_bytes (url : str) : IO bytes :=
  λ w, match server w (requests w) url with
       | Some body => (Val body, log (Fetch url true) (count_request w))
       | None => (Raised URLError, log (Fetch url false) (count_request w))
       end.

Definition _fetch_text (url : str) : IO str :=
  _fetch_bytes url ≫= λ body, mret (decode body).

Definition _write_bytes (p : path) (data : bytes) : IO unit :=
  λ w, (Val (), log (WriteBytes p data) (set_tree (<[resolve p := data]> (tree w)) w)).

Definition _write_text (p : path) (data : str) : IO unit :=
  λ w, (Val (), log (WriteText p data) (set_tree (<[resolve p := encode data]> (tree w)) w)).

(** ** [_download_static_css_and_deps] *)

Definition static_url (glance_url ref : str) : str :=
  urljoin (rstrip_slash glance_url ++ [SLASH]) (lstrip_slash ref).

Definition download_dep (glance_url ref : str) : IO unit :=
  let ref_url := static_url glance_url ref in
  r ← try_ (_fetch_bytes ref_url);
  match r with
  | Raise _ =>
      raise (RuntimeError (lit "Failed to download static dependency " ++ ref
                           ++ lit " from " ++ ref_url))
  | Ok data => _write_bytes (pathlib_parts (lstrip_slash ref)) data
  end.

Definition _download_static_css_and_deps (glance_url bundle_css_path : str) : IO unit :=
  let css_url := static_url glance_url bundle_css_path in
  css_bytes ← _fetch_bytes css_url;
  _ ← _write_bytes (pathlib_parts (lstrip_slash bundle_css_path)) css_bytes;
  let css_text := decode css_bytes in
  let refs := css_refs bundle_css_path css_text in
  for_each (download_dep glance_url) (sorted (elements refs)).

(** ** [main] *)

(** The readiness loop: probe until the server answers or the timeout has
    passed. *)
Fixpoint wait_ready (probe_url : str) (left : nat) : IO bool :=
  λ w, match _fetch_bytes probe_url w with
       | (Val _, w') => (Val true, w')
       | (_, w') =>
           match left with
           | O => (Val false, w')
           | S n => wait_ready probe_url n (log Sleep w')
           end
       end.

Definition INDEX_HTML : str := lit "index.html".

(** The body of the loop that builds the pages. *)
Definition build_page (glance_url slug : str) : IO unit :=
  shell_html ← _fetch_text (glance_url ++ [SLASH] ++ slug);
  content_html ← _fetch_text (glance_url ++ lit "/api/pages/" ++ slug ++ lit "/content/");
  page_html ← lift (_inject_content shell_html content_html);
  _ ← _write_text (pathlib_parts slug ++ [INDEX_HTML]) page_html;
  if str_eqb slug HOME then _write_text [INDEX_HTML] page_html else mret ().

(** One file of the final pass: its new content, when the rewriting
    changes it. *)
Definition rewrite_file (base_path : str) (p : path) (data : bytes) : result (option bytes) :=
  let suffix := suffix_lower (default [] (last p)) in
  if negb (str_eqb suffix (lit ".html") || str_eqb suffix (lit ".css")) then Ok None
  else
    let original := decode data in
    rewritten ← _rewrite_base_paths original base_path;
    Ok (if str_eqb rewritten original then None else Some (encode rewritten)).

(** The body of the loop of the final pass. *)
Definition rewrite_step (base_path : str) (p : path) (data : bytes)
    (acc : result (gmap path bytes)) : result (gmap path bytes) :=
  t ← acc;
  r ← rewrite_file base_path p data;
  Ok (match r with Some data' => <[p := data']> t | None => t end).

Definition rewrite_tree (base_path : str) (t : gmap path bytes) : result (gmap path bytes) :=
  map_fold (rewrite_step base_path) (Ok t) t.

Definition rewrite_pass (base_path : str) : IO unit :=
  λ w, match rewrite_tree base_path (tree w) with
       | Ok t => (Val (), set_tree t w)
       | Raise e => (Raised e, w)
       end.

Definition sample_url (glance_url : str) (slugs : list str) : str :=
  glance_url ++ (if bool_decide (HOME ∈ slugs) then lit "/home"
                 else SLASH :: default [] (head slugs)).

(** [main] up to the request for the sample shell: the slugs, unless the
    run has ended before. The assets are looked for after the reset of
    the output directory, as in the script. *)
Definition main_setup (a : args) : IO (list str) :=
  let glance_url := rstrip_slash (glance_url_arg a) in
  slugs ← lift (_discover_slugs (config_dir_arg a));
  if bool_decide (slugs = []) then
    _ ← emit (Print true); return_ 2
  else
    let probe_path := if bool_decide (HOME ∈ slugs) then lit "/home" else [SLASH] in
    ready ← (λ w, wait_ready (glance_url ++ probe_path) (patience w) w);
    if negb ready then
      _ ← emit (Print true); return_ 3
    else
      _ ← (λ w, (Val (), log ResetOutDir (set_tree ∅ w)));
      repo_assets ← (λ w, (Val (assets w), w));
      match repo_assets with
      | None => _ ← emit (Print true); return_ 4
      | Some files =>
          _ ← (λ w, (Val (), log CopyAssets
                       (set_tree (kmap (cons (lit "assets")) files ∪ tree w) w)));
          _ ← try_ (manifest ← _fetch_bytes (glance_url ++ lit "/manifest.json");
                    _write_bytes [lit "manifest.json"] manifest);
          mret slugs
      end.

(** [main] from the sample shell on. *)
Definition main_export (a : args) (slugs : list str) (sample_shell : str) : IO Z :=
  let glance_url := rstrip_slash (glance_url_arg a) in
  let base_path := _normalize_base_path (base_path_arg a) in
  bundle_css_path ← lift (_extract_bundle_css_path sample_shell);
  _ ← _download_static_css_and_deps glance_url bundle_css_path;
  _ ← for_each (build_page glance_url) slugs;
  _ ← rewrite_pass base_path;
  _ ← _write_text [lit ".nojekyll"] [];
  _ ← emit (Print false);
  return_ 0.

(** [main], from the arguments that [parse_args] has returned. *)
Definition main (a : args) : IO Z :=
  slugs ← main_setup a;
  sample_shell ← _fetch_text (sample_url (rstrip_slash (glance_url_arg a)) slugs);
  main_export a slugs sample_shell.

(** The process, [raise SystemExit(main())]: its exit status and the
    world it leaves. [main] above is [main] of the script once the
    command line has been parsed. *)
Definition run_script (p : parsed) (w : world) : Z * world :=
  match p with
  | Parsed a => let '(o, w') := main a w in (exit_status o, w')
  | UsageError => (2%Z, log (Print true) w)
  | HelpShown => (0%Z, log (Print false) w)
  end.

End Main.

(** ** Vocabulary of the statements *)

Definition leading_slash (r : str) : Prop := startswith [SLASH] r = true.
Definition no_trailing_slash (r : str) : Prop := endswith [SLASH] r = false.

(** Exactly one slash at the start. *)
Definition single_leading_slash (r : str) : Prop :=
  ∃ t, r = SLASH :: t ∧ startswith [SLASH] t = false.

(** The nodes of a literal run, from the text of the run. *)
Definition lits_of (w : str) : regex := (λ c, One (Lit c)) <$> w.



Definition REPO : str := lit "/repo".

(** [attr=Q...Q] for a quote [Q] and a target. *)
Definition attr_ref (attr : string) (q : char) (target : string) : str :=
  lit attr ++ [61; q] ++ lit target ++ [q].

(** [url(Q...Q)] for a quote [Q], or for no quote at all. *)
Definition css_ref (q : str) (target : string) : str :=
  lit "url(" ++ q ++ lit target ++ q ++ lit ")".

(** A shell that is only the placeholder, with [inner] inside it. *)
Definition SHELL (inner : str) : str :=
  lit "<html><div class=" ++ [DQ] ++ lit "page-content" ++ [DQ] ++ lit " id="
    ++ [DQ] ++ lit "page-content" ++ [DQ] ++ lit ">" ++ inner ++ lit "</div></html>".

(** A word occurs in a text, letters compared as IGNORECASE compares them. *)
Fixpoint starts_ci (w s : str) : bool :=
  match w, s with
  | [], _ => true
  | p :: w', c :: s' => lit_matches IGNORECASE p c && starts_ci w' s'
  | _ :: _, [] => false
  end.

Fixpoint occurs_ci (w s : str) : bool :=
  starts_ci w s || match s with _ :: t => occurs_ci w t | [] => false end.

(** The slug occurrences of a configuration directory, in the order the
    script meets them: file by file in sorted order, line by line. *)
Section SlugVocabulary.

Context `{Unicode}.

Definition line_slug (line : str) : option str :=
  (λ m, default [] (group m 1)) <$> match_ NOFLAGS slug_re line.

Definition file_slugs (f : read_result) : list str :=
  match f with
  | Content text => omap line_slug (splitlines text)
  | Missing | Unreadable => []
  end.

Definition declared_slugs (d : config_dir) : list str :=
  flat_map (λ e, file_slugs e.2) (sorted_glob d).

End SlugVocabulary.

(** Each identifier once, at the place of its first occurrence. *)
Fixpoint first_occurrences (l : list str) : list str :=
  match l with
  | [] => []
  | x :: t => x :: filter (λ y, y ≠ x) (first_occurrences t)
  end.

(** One step of the loop over the occurrences: a new identifier is
    appended and remembered. *)
Definition add_slug (st : list str * gset str) (slug : str) : list str * gset str :=
  if decide (slug ∈ st.2) then st else (st.1 ++ [slug], {[slug]} ∪ st.2).

(** The entries of a configuration directory, none when it does not exist. *)
Definition entries_of (d : config_dir) : list (str * read_result) := default [] d.

Definition is_unreadable (f : read_result) : bool :=
  match f with Unreadable => true | _ => false end.
Definition is_missing (f : read_result) : bool :=
  match f with Missing => true | _ => false end.
Definition is_content (f : read_result) : bool :=
  match f with Content _ => true | _ => false end.

(** Every declaration file can be read, or is gone when it is read. *)
Definition readable (d : config_dir) : Prop :=
  forallb (λ e, negb (is_unreadable e.2)) (entries_of d) = true.

(** A word occurs in a text, letter for letter. *)
Fixpoint occurs (w s : str) : bool :=
  startswith w s || match s with _ :: t => occurs w t | [] => false end.



(** The bundle of the example and its two references. *)
Definition BUNDLE : str := lit "/static/abc123/css/bundle.css".
Definition FONT_REF : str := lit "url(../fonts/a.woff2)".
Definition IMG_REF : str := lit "url(/static/abc123/img/b.png)".
Definition FONT_PATH : str := lit "/static/abc123/fonts/a.woff2".

(** A stylesheet with the two references of the example and nothing else
    that starts with [url(]. *)
Definition example_css (f0 f1 f2 : str) : str :=
  f0 ++ FONT_REF ++ f1 ++ IMG_REF ++ f2.

Section RunVocabulary.

Context `{Unicode} `{Runtime}.

(** The world after [_write_text] on a path that names its file. *)
Definition write_text_to (p : path) (text : str) (w : world) : world :=
  log (WriteText p text) (set_tree (<[p := encode text]> (tree w)) w).

(** What the final pass leaves in a file. *)
Definition new_content (base_path : str) (p : path) (data : bytes) : bytes :=
  match rewrite_file base_path p data with
  | Ok (Some data') => data'
  | _ => data
  end.

End RunVocabulary.

(** No declaration file of the directory can be read, for whatever reason. *)
Definition no_readable_declarations (d : config_dir) : Prop :=
  forallb (λ e, negb (is_content e.2)) (entries_of d) = true.

(** Every declaration file the directory lists is gone when it is read. *)
Definition no_declarations_found (d : config_dir) : Prop :=
  forallb (λ e, is_missing e.2) (entries_of d) = true.

(** A string the slug pattern can capture: not empty, of letters, digits,
    underscores and hyphens. *)
Definition slug_shaped (s : str) : Prop :=
  s ≠ [] ∧ Forall (λ c, test NOFLAGS SLUG_CHAR c = true) s.

(** An event that writes a page: only [_write_text] does. *)
Definition is_page_write (e : event) : Prop :=
  match e with WriteText _ _ => True | _ => False end.

(** What [main] has put below the output directory before it builds the
    stylesheet bundle and the pages: the copied assets and, at most, the
    manifest. *)
Definition only_assets_and_manifest (t : gmap path bytes) : Prop :=
  ∀ p, is_Some (t !! p) → p = [lit "manifest.json"] ∨ ∃ q, p = lit "assets" :: q.


Definition text_write_path (e : event) : option path :=
  match e with WriteText p _ => Some p | _ => None end.

Definition is_fetch (e : event) : Prop :=
  match e with Fetch _ _ => True | _ => False end.

(** The page files of a run, in the order they are written: one per slug,
    and the root document right after the page of home. *)
Definition ROOT_PAGE : path := [lit "index.html"].
Definition page_path (slug : str) : path := [slug; lit "index.html"].
Definition page_paths (slugs : list str) : list path :=
  flat_map (λ slug, page_path slug :: if decide (slug = HOME) then [ROOT_PAGE] else [])
    slugs.


(** A step that never ends by a [return] of [main]. *)
Definition never_returns {A} (m : IO A) : Prop :=
  ∀ w code w', m w ≠ (Return code, w').

(** A runtime for the examples: bytes are read as code points one by one,
    [urljoin] puts the reference after the base, and no character above
    ASCII is alphanumeric. *)
Definition example_unicode : Unicode := {| isalnum_high := λ _, false |}.
Definition example_runtime : Runtime :=
  {| decode := id; encode := id; urljoin := app |}.

(** A world at the start of a run. *)
Definition start_world (srv : nat → str → option bytes)
    (repo_assets : option (gmap path bytes)) : world :=
  {| server := srv; patience := 0; assets := repo_assets;
     requests := 0; tree := ∅; trace := [] |}.

(** A server that answers from a table, the same way at every request. *)
Fixpoint lookup_url (table : list (str * bytes)) (url : str) : option bytes :=
  match table with
  | (u, body) :: rest => if str_eqb u url then Some body else lookup_url rest url
  | [] => None
  end.

Definition table_server (table : list (str * bytes)) : nat → str → option bytes :=
  λ _ url, lookup_url table url.

(** A shell as the dashboard serves it: the link of the bundle, the
    placeholder, the main container and the bootstrap script. *)
Definition example_shell : str :=
  lit "<html><head><link rel=" ++ [DQ] ++ lit "stylesheet" ++ [DQ] ++ lit " href="
    ++ [DQ] ++ lit "/static/abc123/css/bundle.css" ++ [DQ] ++ lit "></head><body>"
    ++ lit "<main class=" ++ [DQ] ++ lit "page" ++ [DQ] ++ lit " aria-busy=" ++ [DQ]
    ++ lit "true" ++ [DQ] ++ lit "><div id=" ++ [DQ] ++ lit "page-content" ++ [DQ]
    ++ lit "></div></main><script src=" ++ [DQ] ++ lit "/static/abc123/js/page.js"
    ++ [DQ] ++ lit "></script></body></html>".

(** A shell without the link of the bundle. *)
Definition bare_shell : str :=
  lit "<html><body><div id=" ++ [DQ] ++ lit "page-content" ++ [DQ]
    ++ lit "></div></body></html>".

(** A dashboard with the pages [about] and, when [with_home] is set, [home];
    its bundle holds the stylesheet text [css]. *)
Definition example_site (with_home : bool) (shell css : str) : list (str * bytes) :=
  [(lit "http://dash/", lit "ok");
   (lit "http://dash/home", if with_home then shell else lit "ok");
   (lit "http://dash/about", shell);
   (lit "http://dash/api/pages/home/content/", lit "<h1>Home</h1>");
   (lit "http://dash/api/pages/about/content/", lit "<h1>About</h1>");
   (lit "http://dash/static/abc123/css/bundle.css", css);
   (lit "http://dash/static/abc123/fonts/a.woff2", lit "font");
   (lit "http://dash/static/abc123/img/b.png", lit "image");
   (lit "http://dash/index.html", lit "stray")].

Definition example_config (with_home : bool) : config_dir :=
  Some [(lit "pages.yml",
         Content (lit "pages:" ++ [10] ++ lit "  - name: About" ++ [10]
                  ++ lit "    slug: about" ++ [10]
                  ++ (if with_home
                      then lit "  - name: Home" ++ [10] ++ lit "    slug: home" ++ [10]
                      else [])))].

Definition example_args (with_home : bool) : args :=
  {| glance_url_arg := lit "http://dash/"; base_path_arg := lit "repo";
     config_dir_arg := example_config with_home |}.

Definition example_assets : gmap path bytes :=
  {[ [lit "user.css"] := lit "a{background:url('/assets/bg.png')}" ]}.

(** The example worlds: the site served from a table, the assets of the
    repository present. *)
Definition example_world (with_home : bool) (shell css : str) : world :=
  start_world (table_server (example_site with_home shell css)) (Some example_assets).

Definition example_run (with_home : bool) (shell css : str) : outcome Z * world :=
  @main example_unicode example_runtime (example_args with_home)
    (example_world with_home shell css).


(** A stylesheet with the two references of the example. *)
Definition FONT_CSS : str :=
  example_css (lit "@font-face{src:") (lit "}body{background:") (lit "}").

(** A configuration directory whose only declaration file cannot be read. *)
Definition locked_config : config_dir := Some [(lit "pages.yml", Unreadable)].

(** Two declaration files, listed out of order, that declare [about] twice. *)
Definition two_files : config_dir :=
  Some [(lit "b.yml", Content (lit "slug: about" ++ [10] ++ lit "slug: home" ++ [10]));
        (lit "a.yml", Content (lit "slug: data" ++ [10] ++ lit "  slug: about  " ++ [10]))].

(** *** The toggle on any main container *)






Section ToggleVocabulary.

Context `{Unicode}.




End ToggleVocabulary.

(** *** Stylesheets with the two references in any order *)




Section DownloadVocabulary.

Context `{Runtime}.


End DownloadVocabulary.

(** *** Vocabulary of the properties of the functions *)

(** A string of slashes only, one without whitespace, one of whitespace
    only. *)
Definition only_slashes (s : str) : Prop := Forall (λ c, c = SLASH) s.
Definition no_space (s : str) : Prop := Forall (λ c, isspace c = false) s.
Definition all_space (s : str) : Prop := Forall (λ c, isspace c = true) s.

(** The characters of a slug, [A-Za-z0-9_-]. *)
Definition slug_char (c : char) : bool :=
  is_ascii_letter c || is_ascii_digit c || (c =? 95) || (c =? 45).

(** A component [normpath] keeps below a root. *)
Definition clean_part (c : str) : Prop :=
  c ≠ [] ∧ c ≠ DOT ∧ c ≠ DOTDOT ∧ SLASH ∉ c.

(** The events of a readiness loop that gives up: [n] failed probes, each
    followed by a sleep, and the failed probe after which the time is up. *)
Definition failed_probes (url : str) (n : nat) : list event :=
  concat (replicate n [Fetch url false; Sleep]) ++ [Fetch url false].

(** The URL the readiness loop probes, and the URL of the manifest. *)
Definition probe_url (a : args) (slugs : list str) : str :=
  rstrip_slash (glance_url_arg a)
  ++ (if bool_decide (HOME ∈ slugs) then lit "/home" else [SLASH]).

Definition manifest_url (a : args) : str :=
  rstrip_slash (glance_url_arg a) ++ lit "/manifest.json".


(** A text that a literal run matches under IGNORECASE, letter by letter. *)
Definition same_ci (w s : str) : Prop := length s = length w ∧ starts_ci w s = true.

(** A path of the static files as the two extraction patterns capture
    it: [/static/], a stretch without quotes that is not empty, and the
    name of the file, the fixed parts in any letter case. *)
Definition static_path (name : string) (p : str) : Prop :=
  ∃ head mid tl,
    p = head ++ mid ++ tl
    ∧ same_ci (lit "/static/") head
    ∧ mid ≠ [] ∧ Forall (λ c, c ≠ SQ ∧ c ≠ DQ) mid
    ∧ same_ci (lit name) tl.

(** The common shape of the two extraction patterns:
    [tag[^>]+attr=Q(/static/[^Q]+name)Q[^>]*close]. *)
Definition static_ref_re (tag attr name : string) (close : regex) : regex :=
  lits tag ++ [Plus NOT_GT] ++ lits attr ++ [One QUOTE; Open 1] ++
  lits "/static/" ++ [Plus NOT_QUOTE] ++ lits name ++
  [Close 1; One QUOTE; Star NOT_GT] ++ close.

(** A stretch of a pattern that opens and closes no group. *)
Definition no_groups (r : regex) : bool :=
  forallb (λ n, match n with Open _ | Close _ => false | _ => true end) r.

(** The opening tag of the placeholder as the dashboard writes it. *)
Definition PLACEHOLDER_OPEN : str :=
  lit "<div class=" ++ [DQ] ++ lit "page-content" ++ [DQ] ++ lit " id=" ++ [DQ]
    ++ lit "page-content" ++ [DQ] ++ lit ">".

Definition INJECT_FAILED : str :=
  lit "Failed to inject page content (page-content div not found)".

(** A fragment whose first character is no ASCII digit. *)
Definition no_leading_digit (s : str) : Prop :=
  match s with c :: _ => is_ascii_digit c = false | [] => True end.

(** A letter that begins no escape of a replacement template. *)
Definition bad_escape (c : char) : Prop :=
  is_ascii_letter c = true ∧ escape c = None ∧ c ≠ 103.

(** *** More concrete runs *)

(** A dashboard that never answers, and a repository without assets. *)
Definition silent_world : world := start_world (table_server []) (Some example_assets).

Definition bare_repo_world : world :=
  start_world (table_server (example_site true example_shell FONT_CSS)) None.


(** An output directory with a stylesheet and a text file that hold the
    same reference. *)
Definition QUOTED_REF : str := lit "a{background:url('/bg.png')}".

Definition two_kinds_world : world :=
  set_tree {[ [lit "site.css"] := QUOTED_REF; [lit "notes.txt"] := QUOTED_REF ]}
    (start_world (table_server []) None).

(** ** Properties *)

#[local] Arguments lit : simpl never.
#[local] Arguments N.eqb : simpl never.
#[local] Arguments N.leb : simpl never.
#[local] Arguments N.ltb : simpl never.

Section StripFacts.

Lemma drop_while_head p s c t :
  drop_while p s = c :: t → p c = false.
Proof.
  induction s as [|a s IH]; simpl; [done|].
  destruct (p a) eqn:E; [done|]. intros [= <- _]. done.
Qed.

Lemma rstrip_by_last p s :
  ∀ c, last (rstrip_by p s) = Some c → p c = false.
Proof.
  intros c. unfold rstrip_by.
  destruct (drop_while p (rev s)) as [|a t] eqn:E; [done|].
  simpl. rewrite last_snoc. intros [= <-].
  eapply drop_while_head; eauto.
Qed.

Lemma rstrip_by_cons_keep p c s :
  p c = false → rstrip_by p (c :: s) = c :: rstrip_by p s.
Proof.
  intros Hc. unfold rstrip_by. simpl.
  assert (H : ∀ r, drop_while p (r ++ [c])
                   = match drop_while p r with
                     | [] => [c]
                     | x => x ++ [c]
                     end).
  { induction r as [|a r IH]; simpl; [by rewrite Hc|].
    destruct (p a); [apply IH|done]. }
  rewrite H. destruct (drop_while p (rev s)); simpl; [done|].
  by rewrite rev_app_distr.
Qed.

End StripFacts.

(** *** The shape of a normalized base path *)

Section NormalizeFacts.

Lemma startswith_slash_inv s :
  startswith [SLASH] s = true → ∃ t, s = SLASH :: t.
Proof.
  destruct s as [|c t]; [done|]. cbn [startswith].
  destruct (N.eqb_spec SLASH c) as [<-|]; [eauto|done].
Qed.

Lemma rstrip_by_prefix p s : ∃ k, s = rstrip_by p s ++ k.
Proof.
  unfold rstrip_by.
  assert (Hd : ∀ r, ∃ k, r = k ++ drop_while p r).
  { induction r as [|a r [k IH]]; simpl; [by exists []|].
    destruct (p a); [|by exists []].
    exists (a :: k). simpl. by f_equal. }
  destruct (Hd (rev s)) as [k Hk].
  exists (rev k).
  rewrite <- rev_app_distr, <- Hk. by rewrite rev_involutive.
Qed.

Lemma rstrip_slash_no_trailing s : no_trailing_slash (rstrip_slash s).
Proof.
  unfold no_trailing_slash, endswith, rstrip_slash. simpl.
  destruct (rev (rstrip_by (N.eqb SLASH) s)) as [|c t] eqn:E; [done|].
  simpl. rewrite andb_true_r.
  assert (Hl : last (rstrip_by (N.eqb SLASH) s) = Some c).
  { rewrite <- (rev_involutive (rstrip_by _ s)), E. simpl. apply last_snoc. }
  by apply rstrip_by_last in Hl.
Qed.

Lemma rstrip_slash_leading s :
  leading_slash s → rstrip_slash s = [] ∨ leading_slash (rstrip_slash s).
Proof.
  intros [t ->]%startswith_slash_inv.
  destruct (rstrip_by_prefix (N.eqb SLASH) (SLASH :: t)) as [k Hk].
  unfold rstrip_slash.
  destruct (rstrip_by (N.eqb SLASH) (SLASH :: t)) as [|c r]; [by left|].
  right. simpl in Hk. injection Hk as <- _. done.
Qed.

End NormalizeFacts.

(** C8, as the code has it: the result is empty, or starts with a slash and
    does not end with one; the empty string and the lone slash give the
    empty result; an input that, once stripped, is not empty and has no
    leading slash gains exactly one; the result is always the stripped
    input, with that slash added when it was missing, without its trailing
    slashes. Leading slashes the input already has are kept as they are. *)
Theorem normalize_base_path_shape (s : str) :
  let r := _normalize_base_path s in
  (r = [] ∨ (leading_slash r ∧ no_trailing_slash r))
  ∧ _normalize_base_path [] = []
  ∧ _normalize_base_path [SLASH] = []
  ∧ (strip s ≠ [] → startswith [SLASH] (strip s) = false →
     r = SLASH :: rstrip_slash (strip s) ∧ single_leading_slash r)
  ∧ (strip s ≠ [] → leading_slash (strip s) → r = rstrip_slash (strip s)).
Proof.
  cbv zeta. unfold _normalize_base_path.
  split; [|split; [done|split; [done|split]]].
  - destruct (str_eqb (strip s) [] || str_eqb (strip s) [SLASH]); [by left|].
    set (b := if negb (startswith [SLASH] (strip s)) then SLASH :: strip s else strip s).
    assert (Hb : leading_slash b).
    { unfold b, leading_slash. by destruct (startswith [SLASH] (strip s)) eqn:E. }
    destruct (rstrip_slash_leading b Hb) as [->|Hl]; [by left|].
    right. split; [done|apply rstrip_slash_no_trailing].
  - intros Hne Hns.
    assert (E1 : str_eqb (strip s) [] = false) by (by apply bool_decide_eq_false).
    assert (E2 : str_eqb (strip s) [SLASH] = false).
    { apply bool_decide_eq_false. intros E. by rewrite E in Hns. }
    rewrite E1, E2, Hns. simpl.
    destruct (strip s) as [|c t] eqn:Es; [done|].
    simpl in Hns. rewrite andb_true_r in Hns.
    assert (Hc : N.eqb SLASH c = false) by done.
    unfold rstrip_slash.
    assert (Hk : ∀ x, rstrip_by (N.eqb SLASH) (SLASH :: c :: x)
                      = SLASH :: rstrip_by (N.eqb SLASH) (c :: x)).
    { intros x. unfold rstrip_by. simpl.
      assert (Hd : ∀ r, drop_while (N.eqb SLASH) ((r ++ [c]) ++ [SLASH])
                        = drop_while (N.eqb SLASH) (r ++ [c]) ++ [SLASH]).
      { induction r as [|a r IH]; simpl; [by rewrite Hc|].
        destruct (SLASH =? a); [apply IH|done]. }
      rewrite Hd, rev_app_distr. done. }
    rewrite Hk. split; [done|].
    exists (rstrip_by (N.eqb SLASH) (c :: t)). split; [done|].
    rewrite (rstrip_by_cons_keep _ _ _ Hc). simpl.
    by rewrite andb_true_r.
  - intros Hne Hs.
    assert (E1 : str_eqb (strip s) [] = false) by (by apply bool_decide_eq_false).
    unfold leading_slash in Hs. rewrite E1, Hs. simpl.
    destruct (str_eqb (strip s) [SLASH]) eqn:E2; [|done].
    apply bool_decide_eq_true in E2. by rewrite E2.
Qed.

(** C8 on an input, [ docs/] with blanks around it. *)
Lemma normalize_base_path_shape_witness :
  _normalize_base_path (lit " docs/ ") = lit "/docs"
  ∧ single_leading_slash (_normalize_base_path (lit " docs/ ")).
Proof.
  pose proof (normalize_base_path_shape (lit " docs/ ")) as (_ & _ & _ & Hadd & _).
  cbv zeta in Hadd.
  destruct Hadd as [Hr Hs]; [by vm_compute|by vm_compute|].
  split; [|exact Hs]. rewrite Hr. by vm_compute.
Defined.

(** C8 as stated fails: two leading slashes stay two. *)
Lemma normalize_base_path_double_slash :
  _normalize_base_path (lit "//a") = lit "//a"
  ∧ ¬ (_normalize_base_path (lit "//a") = []
       ∨ (single_leading_slash (_normalize_base_path (lit "//a"))
          ∧ no_trailing_slash (_normalize_base_path (lit "//a")))).
Proof.
  split; [by vm_compute|].
  intros [E|[(t & E & Ht) _]]; [by vm_compute in E|].
  vm_compute in E. injection E as <-. by vm_compute in Ht.
Qed.

(** *** The matcher *)

Section EngineFacts.

Context `{Unicode}.

Lemma startswith_app w s : startswith w s = true → s = w ++ drop (length w) s.
Proof.
  revert s. induction w as [|a w IH]; intros [|b s]; cbn [startswith]; try done.
  intros [->%N.eqb_eq Hs]%andb_prop. simpl. f_equal. by apply IH.
Qed.

(** What a greedy repetition consumed passes the test, and the
    continuation ran right after it. *)
Lemma greedy_inv p k got rest m :
  greedy p k got rest = Some m →
  ∃ a b, rest = a ++ b ∧ Forall (λ c, p c = true) a ∧ k (rev a ++ got) b = Some m.
Proof.
  revert got. induction rest as [|c t IH]; intros got; simpl.
  - intros Hk. by exists [], [].
  - destruct (p c) eqn:Hc.
    + destruct (greedy p k (c :: got) t) as [m'|] eqn:Hg.
      * intros [= ->]. destruct (IH _ Hg) as (a & b & -> & Ha & Hk).
        exists (c :: a), b. split; [done|]. split; [by constructor|].
        simpl. by rewrite <- app_assoc.
      * intros Hk. by exists [], (c :: t).
    + intros Hk. by exists [], (c :: t).
Qed.

(** A successful attempt consumed a prefix of the text ahead. *)
Lemma exec_inv fl r before got rest cs m :
  exec fl r before got rest cs = Some m →
  ∃ a, rest = a ++ m_rest m ∧ m_got m = rev a ++ got.
Proof.
  revert got rest cs.
  induction r as [|n r IH]; intros got rest cs; cbn [exec].
  - intros [= <-]. by exists [].
  - assert (Hone : ∀ c t, exec fl r before (c :: got) t cs = Some m →
              ∃ a, c :: t = a ++ m_rest m ∧ m_got m = rev a ++ got).
    { intros c t (a & -> & ->)%IH. exists (c :: a). simpl.
      by rewrite <- app_assoc. }
    assert (Hgr : ∀ p got' rest',
              greedy p (λ x y, exec fl r before x y cs) got' rest' = Some m →
              ∃ a, rest' = a ++ m_rest m ∧ m_got m = rev a ++ got').
    { intros p got' rest' (a & b & -> & _ & (a' & -> & ->)%IH)%greedy_inv.
      exists (a ++ a'). by rewrite rev_app_distr, <- !app_assoc. }
    destruct n.
    + destruct rest as [|c t]; [done|]. destruct (test fl a c); [|done]. apply Hone.
    + apply Hgr.
    + destruct rest as [|c t]; [done|]. destruct (test fl a c); [|done].
      intros (a' & -> & ->)%Hgr. exists (c :: a'). simpl. by rewrite <- app_assoc.
    + destruct rest as [|c t]; [apply IH|].
      destruct (test fl a c); [|apply IH].
      destruct (exec fl r before (c :: got) t cs) eqn:E; [|apply IH].
      intros [= ->]. by apply Hone.
    + apply IH.
    + destruct (assoc g (starts cs)); [apply IH|done].
    + destruct (assoc g (spans cs)) as [[s e]|]; [|done].
      destruct (startswith _ rest) eqn:Hs; [|done].
      intros (a & Hr & ->)%IH. apply startswith_app in Hs.
      exists (substr (rev got) s e ++ a).
      rewrite rev_app_distr, <- !app_assoc. split; [|done].
      rewrite Hs at 1. by rewrite Hr.
    + destruct rest as [|d t]; [apply IH|]. destruct (d =? c); [done|apply IH].
    + destruct before, got; try done. apply IH.
    + destruct (at_end rest); [apply IH|done].
    + destruct (xorb _ _); [apply IH|done].
Qed.

(** An attempt from a position splits the text ahead into the matched
    text and the text after it. *)
Lemma exec_split fl r before rest m :
  exec fl r before [] rest no_caps = Some m →
  rest = rev (m_got m) ++ m_rest m.
Proof.
  intros (a & -> & ->)%exec_inv. by rewrite app_nil_r, rev_involutive.
Qed.

(** A match found from a position splits the whole text. *)
Lemma search_from_split fl r before rest m :
  search_from fl r before rest = Some m →
  ∃ skipped, mt_before m = rev before ++ skipped
             ∧ rest = skipped ++ mt_matched m ++ mt_after m.
Proof.
  revert before. induction rest as [|c t IH]; intros before; cbn [search_from].
  - destruct (exec fl r before [] [] no_caps) as [m'|] eqn:E; [|done].
    intros [= <-]. exists []. rewrite app_nil_r. split; [done|].
    by apply exec_split in E.
  - destruct (exec fl r before [] (c :: t) no_caps) as [m'|] eqn:E.
    + intros [= <-]. exists []. rewrite app_nil_r. split; [done|].
      by apply exec_split in E.
    + intros (sk & Hb & ->)%IH. exists (c :: sk). split; [|done].
      rewrite Hb. simpl. by rewrite <- app_assoc.
Qed.

Lemma search_split fl r text m :
  search fl r text = Some m → text = mt_before m ++ mt_matched m ++ mt_after m.
Proof. by intros (sk & -> & ->)%search_from_split. Qed.

(** Once no replacement is left the scan copies the text. *)
Lemma sub_go_exhausted fl r tpl before rest k :
  sub_go fl r tpl (Some O) before rest k = (drop k rest, O).
Proof.
  revert before k. induction rest as [|c t IH]; intros before [|k]; cbn [sub_go]; try done.
  by rewrite IH.
Qed.

(** [count=1]: the leftmost match is replaced, the rest is kept. *)
Lemma sub_go_first fl r tpl before rest :
  sub_go fl r tpl (Some 1%nat) before rest O =
  match search_from fl r before rest with
  | Some m =>
      (drop (length before) (mt_before m) ++ expand tpl m ++ mt_after m, 1%nat)
  | None => (rest, O)
  end.
Proof.
  revert before. induction rest as [|c t IH]; intros before; cbn [sub_go search_from].
  - destruct (exec fl r before [] [] no_caps) as [m|] eqn:E; [|done].
    cbn [mk_match mt_before mt_after].
    rewrite drop_ge by (by rewrite length_rev).
    apply exec_split in E. symmetry in E. apply app_eq_nil in E as [_ ->].
    by rewrite app_nil_r.
  - destruct (exec fl r before [] (c :: t) no_caps) as [m|] eqn:E.
    + cbn [mk_match mt_before mt_after fmap option_fmap option_map pred].
      rewrite drop_ge by (by rewrite length_rev). cbn [app].
      pose proof (exec_split _ _ _ _ _ E) as Hs. unfold matched_len.
      destruct (m_got m) as [|g got]; cbn [length]; rewrite sub_go_exhausted.
      * simpl in Hs. by rewrite <- Hs.
      * f_equal. f_equal.
        assert (Hd : drop (S (length got)) (c :: t) = m_rest m).
        { rewrite Hs. rewrite drop_app_length'; [done|].
          by rewrite length_rev. }
        exact Hd.
    + rewrite IH. destruct (search_from fl r (c :: before) t) as [m|] eqn:Es; [|done].
      apply search_from_split in Es as (sk & -> & _).
      cbn [rev length]. rewrite <- !app_assoc. cbn [app].
      rewrite (drop_app_length' (rev before) (c :: sk) (length before))
        by (by rewrite length_rev).
      replace (rev before ++ c :: sk) with ((rev before ++ [c]) ++ sk)
        by (by rewrite <- app_assoc).
      rewrite (drop_app_length' (rev before ++ [c]) sk (S (length before))); [done|].
      rewrite length_app, length_rev. simpl. lia.
Qed.

Lemma subn_first fl r repl tpl text :
  parse_template (ngroups r) repl = Ok tpl →
  subn fl r repl text 1 =
  Ok match search fl r text with
     | Some m => (mt_before m ++ expand tpl m ++ mt_after m, 1%nat)
     | None => (text, O)
     end.
Proof.
  intros Ht. unfold subn, search. rewrite Ht. cbn [mbind result_bind].
  rewrite sub_go_first. by destruct (search_from fl r [] text).
Qed.

Lemma sub_first fl r repl tpl text :
  parse_template (ngroups r) repl = Ok tpl →
  sub fl r repl text 1 =
  Ok match search fl r text with
     | Some m => mt_before m ++ expand tpl m ++ mt_after m
     | None => text
     end.
Proof.
  intros Ht. unfold sub. rewrite (subn_first _ _ _ _ _ Ht).
  by destruct (search fl r text).
Qed.

(** When the attempt fails at every position there is no match. *)
Lemma search_from_none fl r before rest :
  (∀ before' a b, rest = a ++ b → exec fl r before' [] b no_caps = None) →
  search_from fl r before rest = None.
Proof.
  revert before. induction rest as [|c t IH]; intros before Hn; cbn [search_from].
  - by rewrite (Hn before [] []).
  - rewrite (Hn before [] (c :: t)); [|done]. apply IH.
    intros before' a b ->. by apply (Hn before' (c :: a) b).
Qed.

(** Where the attempt fails the search moves on by one character. *)
Lemma search_from_miss fl r before c t :
  exec fl r before [] (c :: t) no_caps = None →
  search_from fl r before (c :: t) = search_from fl r (c :: before) t.
Proof. intros E. cbn [search_from]. by rewrite E. Qed.

Lemma search_from_hit fl r before rest m :
  exec fl r before [] rest no_caps = Some m →
  search_from fl r before rest = Some (mk_match before m).
Proof. intros E. destruct rest; cbn [search_from]; by rewrite E. Qed.

(** The search passes over a stretch in which every attempt fails. *)
Lemma search_from_skip fl r before pre rest :
  (∀ a c b, pre = a ++ c :: b →
            exec fl r (rev a ++ before) [] (c :: b ++ rest) no_caps = None) →
  search_from fl r before (pre ++ rest) = search_from fl r (rev pre ++ before) rest.
Proof.
  revert before. induction pre as [|c pre IH]; intros before Hn; [done|].
  cbn [app]. rewrite search_from_miss by (by apply (Hn [] c pre)).
  rewrite IH; [simpl; by rewrite <- app_assoc|].
  intros a c' b ->. specialize (Hn (c :: a) c' b eq_refl).
  simpl in Hn. by rewrite <- app_assoc in Hn.
Qed.

End EngineFacts.

(** *** Literal runs of a pattern *)

Section LiteralRuns.

Context `{Unicode}.

Lemma lits_lits_of w : lits w = lits_of (lit w).
Proof. done. Qed.

(** A literal run under IGNORECASE is met letter by letter. *)
Lemma exec_lits_ci w r before got rest cs m :
  exec IGNORECASE (lits_of w ++ r) before got rest cs = Some m →
  starts_ci w rest = true
  ∧ exec IGNORECASE r before (rev (take (length w) rest) ++ got) (drop (length w) rest) cs
    = Some m.
Proof.
  revert got rest. induction w as [|p w IH]; intros got rest; [done|].
  cbn [lits_of fmap list_fmap app exec test starts_ci].
  destruct rest as [|c t]; [done|].
  destruct (lit_matches IGNORECASE p c); [|done].
  intros [Hs He]%IH. split; [done|].
  simpl. by rewrite <- app_assoc.
Qed.

(** The same without flags: the run is a prefix of the text ahead. *)
Lemma exec_lits w r before got rest cs m :
  exec NOFLAGS (lits_of w ++ r) before got rest cs = Some m →
  startswith w rest = true
  ∧ exec NOFLAGS r before (rev w ++ got) (drop (length w) rest) cs = Some m.
Proof.
  revert got rest. induction w as [|p w IH]; intros got rest; [done|].
  cbn [lits_of fmap list_fmap app exec test startswith].
  destruct rest as [|c t]; [done|]. unfold lit_matches. cbn [ignorecase NOFLAGS andb].
  destruct (N.eqb_spec c p) as [->|]; [|done].
  rewrite N.eqb_refl. intros [Hs He]%IH. split; [done|].
  simpl. by rewrite <- app_assoc.
Qed.

Lemma occurs_ci_app w a b : starts_ci w b = true → occurs_ci w (a ++ b) = true.
Proof.
  intros Hb. induction a as [|c a IH]; simpl.
  - destruct b; simpl; by rewrite Hb.
  - rewrite IH. apply orb_true_r.
Qed.

Lemma occurs_ci_mid w a b c : starts_ci w c = true → occurs_ci w (a ++ b ++ c) = true.
Proof. intros. rewrite app_assoc. by apply occurs_ci_app. Qed.

End LiteralRuns.

(** *** The busy-state toggle *)

Section BusyToggle.

Context `{Unicode}.


Lemma aria_busy_needs_attr text :
  occurs_ci (lit "aria-busy=") text = false →
  search IGNORECASE aria_busy_re text = None.
Proof.
  intros Hno. apply search_from_none. intros pre a b ->.
  destruct (exec IGNORECASE aria_busy_re pre [] b no_caps) as [m|] eqn:E; [|done].
  exfalso. unfold aria_busy_re in E. cbn [app exec] in E.
  destruct (xorb _ _); [|done].
  rewrite lits_lits_of in E. apply exec_lits_ci in E as [Hs _].
  by rewrite (occurs_ci_app _ _ _ Hs) in Hno.
Qed.

(** A word that starts in a stretch and runs into what follows it has one
    of its later letters at the first character of what follows. *)
Lemma starts_ci_straddle w p x rest :
  starts_ci w (p ++ x :: rest) = true →
  starts_ci w p = true ∨ Exists (λ c, lit_matches IGNORECASE c x = true) w.
Proof.
  revert p. induction w as [|a w IH]; intros p; [by left|].
  destruct p as [|b p]; cbn [app starts_ci].
  - intros [Ha _]%andb_prop. right. by left.
  - intros [Hb Hw]%andb_prop. rewrite Hb. cbn [andb].
    destruct (IH _ Hw) as [?|?]; [by left|right; by right].
Qed.

Lemma starts_ci_straddle_inside w a c b x rest :
  occurs_ci w (a ++ c :: b) = false →
  Forall (λ l, lit_matches IGNORECASE l x = false) (tail w) →
  starts_ci w (c :: b ++ x :: rest) = false.
Proof.
  intros Hno Hx.
  destruct (starts_ci w (c :: b ++ x :: rest)) eqn:Hs; [|done]. exfalso.
  destruct w as [|l w]; [by rewrite (occurs_ci_app [] a (c :: b)) in Hno|].
  cbn [starts_ci] in Hs. apply andb_prop in Hs as [Hl Hs].
  apply starts_ci_straddle in Hs as [Hs|Hs].
  - rewrite (occurs_ci_app (l :: w) a (c :: b)) in Hno; [done|].
    cbn [starts_ci]. by rewrite Hl, Hs.
  - cbn [tail] in Hx. apply Exists_exists in Hs as (l' & Hin & Hm).
    eapply Forall_forall in Hx; [|exact Hin]. by rewrite Hm in Hx.
Qed.

Lemma main_class_needs_main before rest :
  starts_ci (lit "<main") rest = false →
  exec IGNORECASE main_class_re before [] rest no_caps = None.
Proof.
  intros Hs.
  destruct (exec IGNORECASE main_class_re before [] rest no_caps) as [m|] eqn:E; [|done].
  unfold main_class_re in E. cbn [app exec] in E. rewrite lits_lits_of in E.
  apply exec_lits_ci in E as [E _]. by rewrite E in Hs.
Qed.



End BusyToggle.

(** *** Base-path rewriting on the shapes of a reference *)

Section RewriteShapes.

Context `{Unicode}.

(** C1 at the unquoted form: [url(/assets/x)] comes back as it is, with
    no base path in front, while the quoted forms of the same reference,
    the three attributes in both quote styles and the bare manifest href
    are rewritten and the protocol-relative reference is kept. *)
Theorem rewrite_base_paths_unquoted_url_kept :
  _rewrite_base_paths (css_ref [] "/assets/x") REPO = Ok (css_ref [] "/assets/x")
  ∧ _rewrite_base_paths (css_ref [SQ] "/assets/x") REPO = Ok (css_ref [SQ] "/repo/assets/x")
  ∧ _rewrite_base_paths (css_ref [DQ] "/assets/x") REPO = Ok (css_ref [DQ] "/repo/assets/x")
  ∧ Forall (λ q,
       _rewrite_base_paths (attr_ref "href" q "/assets/x") REPO
         = Ok (attr_ref "href" q "/repo/assets/x")
       ∧ _rewrite_base_paths (attr_ref "src" q "/assets/x") REPO
         = Ok (attr_ref "src" q "/repo/assets/x")
       ∧ _rewrite_base_paths (attr_ref "action" q "/assets/x") REPO
         = Ok (attr_ref "action" q "/repo/assets/x")
       ∧ _rewrite_base_paths (attr_ref "href" q "//cdn.example/x") REPO
         = Ok (attr_ref "href" q "//cdn.example/x")
       ∧ _rewrite_base_paths (attr_ref "href" q "manifest.json") REPO
         = Ok (attr_ref "href" q "/repo/manifest.json")) [SQ; DQ].
Proof.
  split; [vm_compute; reflexivity|].
  split; [vm_compute; reflexivity|].
  split; [vm_compute; reflexivity|].
  repeat constructor; vm_compute; reflexivity.
Qed.

End RewriteShapes.

(** *** Content injection and backslashes *)

Section InjectContent.

Context `{Unicode}.

(** C2 at a fragment with a backslash: the fragment is compiled as a
    replacement template, so [C:\dir] makes the injection raise, and the
    two characters backslash, n come out as one newline; a fragment
    without a backslash is injected as it is. *)
Theorem inject_content_backslash :
  _inject_content (SHELL []) (lit "<p>C:\dir</p>") = Raise re_error
  ∧ _inject_content (SHELL []) (lit "<p>a\nb</p>") = Ok (SHELL (lit "<p>a" ++ [10] ++ lit "b</p>"))
  ∧ _inject_content (SHELL []) (lit "<p>hi</p>") = Ok (SHELL (lit "<p>hi</p>")).
Proof. split_and!; vm_compute; reflexivity. Qed.

End InjectContent.

(** *** Protocol-relative references of the bundle *)

Section BundleRefs.

Context `{Unicode}.

(** C5 at a protocol-relative reference: [url(//cdn.example/f.woff2)] is
    taken for a root-absolute path and joins the download set, while the
    data URI and the http and https URLs next to it are left out. *)
Theorem css_refs_protocol_relative :
  elements (css_refs BUNDLE
    (lit "a{src:url(//cdn.example/f.woff2)}b{src:url(data:font/woff2;base64,AA==)}"
     ++ lit "c{src:url(http://cdn.example/g.woff2)}d{src:url(https://cdn.example/h.woff2)}"))
  = [lit "//cdn.example/f.woff2"].
Proof. vm_compute. reflexivity. Qed.

End BundleRefs.

(** *** Slug discovery *)

Section FirstOccurrences.

Lemma filter_everything {A} (P : A → Prop) `{∀ x, Decision (P x)} (l : list A) :
  (∀ x, P x) → filter P l = l.
Proof.
  intros HP. induction l as [|a l IH]; [done|].
  by rewrite filter_cons_True, IH.
Qed.

Lemma elem_of_first_occurrences x l : x ∈ first_occurrences l ↔ x ∈ l.
Proof.
  induction l as [|a l IH]; simpl; [done|].
  rewrite !elem_of_cons, list_elem_of_filter, IH.
  destruct (decide (x = a)); tauto.
Qed.

Lemma NoDup_first_occurrences l : NoDup (first_occurrences l).
Proof.
  induction l as [|a l IH]; simpl; [constructor|].
  constructor; [|by apply NoDup_filter].
  rewrite list_elem_of_filter. tauto.
Qed.

Lemma first_occurrences_filter (P : str → Prop) `{∀ x, Decision (P x)} l :
  first_occurrences (filter P l) = filter P (first_occurrences l).
Proof.
  induction l as [|a l IH]; simpl; [done|].
  rewrite !filter_cons. destruct (decide (P a)); simpl.
  - rewrite IH. f_equal. rewrite !list_filter_filter.
    apply list_filter_iff. intros x. tauto.
  - rewrite IH. rewrite list_filter_filter.
    apply list_filter_iff. intros x. split; [|tauto].
    intros Hx. split; [done|]. by intros ->.
Qed.

Lemma length_first_occurrences l :
  length (first_occurrences l) = size (list_to_set l : gset str).
Proof.
  rewrite <- (size_list_to_set (C:=gset str) (first_occurrences l))
    by apply NoDup_first_occurrences.
  f_equal. apply set_eq. intros x.
  by rewrite !elem_of_list_to_set, elem_of_first_occurrences.
Qed.

End FirstOccurrences.

Section StrOrder.

Lemma str_leb_total a b : str_leb a b = true ∨ str_leb b a = true.
Proof.
  revert b. induction a as [|x a IH]; intros [|y b]; simpl; auto.
  destruct (N.ltb_spec x y); [by left|].
  destruct (N.ltb_spec y x); [by right|]. apply IH.
Qed.

Lemma entry_le_total {A} : Total (λ a b : str * A, str_le a.1 b.1).
Proof. intros a b. apply str_leb_total. Qed.

End StrOrder.

Section DiscoverSlugs.

Context `{Unicode}.

Lemma foldl_scan_line st lines :
  foldl scan_line st lines = foldl add_slug st (omap line_slug lines).
Proof.
  revert st. induction lines as [|line lines IH]; intros st; [done|].
  assert (Hstep : scan_line st line
                  = match line_slug line with Some s => add_slug st s | None => st end).
  { unfold scan_line, line_slug. by destruct (match_ NOFLAGS slug_re line). }
  cbn [foldl omap list_omap]. rewrite Hstep.
  destruct (line_slug line); cbn [foldl]; apply IH.
Qed.

Lemma foldl_add_slug l slugs :
  foldl add_slug (slugs, list_to_set slugs) l
  = (slugs ++ first_occurrences (filter (λ x, x ∉ slugs) l),
     list_to_set (slugs ++ first_occurrences (filter (λ x, x ∉ slugs) l))).
Proof.
  revert slugs. induction l as [|x l IH]; intros slugs.
  - simpl. by rewrite app_nil_r.
  - cbn [foldl]. unfold add_slug at 2. cbn [fst snd].
    rewrite filter_cons. destruct (decide (x ∈ list_to_set slugs)) as [Hx|Hx].
    + rewrite elem_of_list_to_set in Hx. rewrite decide_False by tauto. apply IH.
    + rewrite elem_of_list_to_set in Hx. rewrite decide_True by done.
      replace ({[x]} ∪ list_to_set slugs : gset str) with (list_to_set (slugs ++ [x]) : gset str)
        by (apply set_eq; intros y;
            rewrite elem_of_union, !elem_of_list_to_set, elem_of_app,
              elem_of_singleton, list_elem_of_singleton; tauto).
      rewrite IH. cbn [first_occurrences].
      rewrite <- first_occurrences_filter, list_filter_filter.
      rewrite (list_filter_iff (λ x0, x0 ∉ slugs ++ [x]) (λ a, a ≠ x ∧ a ∉ slugs)).
      * by rewrite <- !app_assoc.
      * intros y. rewrite elem_of_app, list_elem_of_singleton. tauto.
Qed.

Lemma scan_files_ok files st :
  Forall (λ e, e.2 ≠ Unreadable) files →
  scan_files files st = Ok (foldl add_slug st (flat_map (λ e, file_slugs e.2) files)).
Proof.
  revert st. induction files as [|[name f] files IH]; intros st Hf; [done|].
  apply Forall_cons in Hf as [Hr Hf]. cbn [scan_files flat_map snd].
  rewrite foldl_app. destruct f as [text| |]; cbn [read_text file_slugs foldl].
  - rewrite foldl_scan_line. by apply IH.
  - by apply IH.
  - done.
Qed.

Lemma sorted_glob_forallb (f : str * read_result → bool) d :
  forallb f (entries_of d) = true → Forall (λ e, f e = true) (sorted_glob d).
Proof.
  intros Hf. destruct d as [entries|]; simpl; [|constructor].
  rewrite merge_sort_Permutation. apply Forall_forall. intros e He.
  by apply (proj1 (forallb_forall f entries) Hf), list_elem_of_In.
Qed.

(** C4: when the declaration files can be read, discovery returns each
    declared identifier once, as many entries as there are distinct
    identifiers, in the order of their first occurrences over the files
    taken in sorted order, except that home, once declared anywhere, comes
    first and the order of the others is kept. *)
Theorem discover_slugs_spec (d : config_dir) :
  readable d →
  ∃ slugs,
    _discover_slugs d = Ok slugs
    ∧ NoDup slugs
    ∧ (∀ s, s ∈ slugs ↔ s ∈ declared_slugs d)
    ∧ length slugs = size (list_to_set (declared_slugs d) : gset str)
    ∧ filter (λ s, s ≠ HOME) slugs
      = filter (λ s, s ≠ HOME) (first_occurrences (declared_slugs d))
    ∧ (HOME ∈ declared_slugs d → head slugs = Some HOME)
    ∧ (HOME ∉ declared_slugs d → slugs = first_occurrences (declared_slugs d))
    ∧ Sorted (λ a b, str_le a.1 b.1) (sorted_glob d)
    ∧ (∀ entries, d = Some entries → sorted_glob d ≡ₚ entries).
Proof.
  intros Hr. unfold _discover_slugs.
  rewrite scan_files_ok.
  2:{ eapply Forall_impl; [apply (sorted_glob_forallb _ _ Hr)|].
      intros [name f] Hf. by destruct f. }
  fold (declared_slugs d). set (occ := declared_slugs d).
  change (∅ : gset str) with (list_to_set [] : gset str).
  rewrite foldl_add_slug. cbn [app mbind result_bind].
  rewrite (filter_everything (λ x, x ∉ [])) by (intros x; apply not_elem_of_nil).
  set (fo := first_occurrences occ).
  assert (Hin : ∀ s, s ∈ fo ↔ s ∈ occ) by (intros s; apply elem_of_first_occurrences).
  assert (Hnd : NoDup fo) by apply NoDup_first_occurrences.
  assert (Hsort : Sorted (λ a b : str * read_result, str_le a.1 b.1) (sorted_glob d)
                  ∧ (∀ entries, d = Some entries → sorted_glob d ≡ₚ entries)).
  { split.
    - destruct d; simpl; [|constructor].
      apply (@Sorted_merge_sort _ _ _ entry_le_total).
    - intros entries ->. simpl. apply merge_sort_Permutation. }
  destruct (decide (HOME ∈ (list_to_set fo : gset str))) as [Hh|Hh];
    rewrite elem_of_list_to_set in Hh.
  - exists (HOME :: filter (λ s, s ≠ HOME) fo). split_and!; try done; try tauto.
    + constructor; [|by apply NoDup_filter].
      rewrite list_elem_of_filter. tauto.
    + intros s. rewrite elem_of_cons, list_elem_of_filter, Hin.
      destruct (decide (s = HOME)) as [->|]; [|tauto].
      apply Hin in Hh. tauto.
    + rewrite <- length_first_occurrences. fold fo. cbn [length].
      assert (Hp : fo ≡ₚ HOME :: filter (λ s, s ≠ HOME) fo).
      { apply NoDup_Permutation; [done| |].
        - constructor; [|by apply NoDup_filter].
          rewrite list_elem_of_filter. tauto.
        - intros s. rewrite elem_of_cons, list_elem_of_filter.
          destruct (decide (s = HOME)) as [->|]; tauto. }
      by rewrite Hp at 2.
    + rewrite filter_cons, decide_False by tauto.
      rewrite list_filter_filter. apply list_filter_iff. tauto.
    + intros Hno. by apply Hin in Hh.
  - exists fo. split_and!; try done.
    + apply length_first_occurrences.
    + intros Hhome. by apply Hin in Hhome.
    + tauto.
    + tauto.
Qed.

End DiscoverSlugs.

(** *** Missing configuration *)

Section MissingConfig.

Context `{Unicode} `{Runtime}.

Lemma scan_files_missing files st :
  Forall (λ e, e.2 = Missing) files → scan_files files st = Ok st.
Proof.
  induction files as [|[name f] files IH]; intros Hf; [done|].
  apply Forall_cons in Hf as [Hm Hf]. simpl in Hm. subst f. simpl. by apply IH.
Qed.

Lemma discover_slugs_nothing d :
  no_declarations_found d → _discover_slugs d = Ok [].
Proof.
  intros Hd. unfold _discover_slugs.
  rewrite scan_files_missing; [done|].
  eapply Forall_impl; [apply (sorted_glob_forallb _ _ Hd)|].
  intros [name f] Hf. by destruct f.
Qed.

Lemma main_no_slugs a w :
  _discover_slugs (config_dir_arg a) = Ok [] →
  main a w = (Return 2, log (Print true) w).
Proof. intros Hd. unfold main, main_setup. by rewrite Hd. Qed.

End MissingConfig.

(** *** The references of a stylesheet *)

Section StylesheetRefs.

Context `{Unicode}.






Lemma occurs_app w a b : startswith w b = true → occurs w (a ++ b) = true.
Proof.
  intros Hb. induction a as [|c a IH]; simpl.
  - destruct b; simpl; by rewrite Hb.
  - rewrite IH. apply orb_true_r.
Qed.






End StylesheetRefs.

(** *** Stepping through a run *)

Section Steps.

Context `{Unicode} `{Runtime}.

Lemma bind_val {A B} (m : IO A) (f : A → IO B) w a w' :
  m w = (Val a, w') → (m ≫= f) w = f a w'.
Proof. intros E. unfold mbind, IO_bind. by rewrite E. Qed.

Lemma bind_raised {A B} (m : IO A) (f : A → IO B) w e w' :
  m w = (Raised e, w') → (m ≫= f) w = (Raised e, w').
Proof. intros E. unfold mbind, IO_bind. by rewrite E. Qed.

Lemma bind_return {A B} (m : IO A) (f : A → IO B) w c w' :
  m w = (Return c, w') → (m ≫= f) w = (Return c, w').
Proof. intros E. unfold mbind, IO_bind. by rewrite E. Qed.



End Steps.

(** *** The dependencies of the example bundle *)

Section DownloadAll.

Context `{Unicode} `{Runtime}.




End DownloadAll.

Section ShuffledBundle.

Context `{Unicode} `{Runtime}.






End ShuffledBundle.

(** *** The run up to the sample shell *)

Section Setup.

Context `{Unicode} `{Runtime}.

Lemma wait_ready_effects url n w o w' :
  wait_ready url n w = (o, w') →
  tree w' = tree w
  ∧ (∃ ready, o = Val ready)
  ∧ ∃ evs, trace w' = trace w ++ evs ∧ Forall (λ e, ¬ is_page_write e) evs.
Proof.
  assert (Hbase : ∀ w (b : bool) e, ¬ is_page_write e →
            tree (log e (count_request w)) = tree w
            ∧ (∃ ready, @Val bool b = Val ready)
            ∧ ∃ evs, trace (log e (count_request w)) = trace w ++ evs
                     ∧ Forall (λ e, ¬ is_page_write e) evs).
  { intros w0 b e He. split; [done|]. split; [by eexists|].
    exists [e]. split; [done|]. by constructor. }
  revert w. induction n as [|n IH]; intros w; cbn [wait_ready]; unfold _fetch_bytes;
    destruct (server w (requests w) url).
  - intros [= <- <-]. apply Hbase. by intros [].
  - intros [= <- <-]. apply Hbase. by intros [].
  - intros [= <- <-]. apply Hbase. by intros [].
  - intros (Ht & Ho & evs & Htr & Hev)%IH.
    split; [by rewrite Ht|]. split; [done|].
    eexists (_ :: _ :: evs). rewrite Htr. cbn [trace log count_request].
    rewrite <- !app_assoc. split; [done|].
    repeat constructor; try done; by intros [].
Qed.

(** When [main_setup] hands over the slugs, no page has been written and
    the output directory holds the assets and perhaps the manifest. *)
Lemma main_setup_effects a w slugs w1 :
  main_setup a w = (Val slugs, w1) →
  _discover_slugs (config_dir_arg a) = Ok slugs
  ∧ slugs ≠ []
  ∧ only_assets_and_manifest (tree w1)
  ∧ ∃ evs, trace w1 = trace w ++ evs ∧ Forall (λ e, ¬ is_page_write e) evs.
Proof.
  unfold main_setup, mbind, IO_bind, lift.
  destruct (_discover_slugs (config_dir_arg a)) as [slugs'|e]; [|done].
  case_bool_decide as Hne; [done|].
  destruct (wait_ready _ (patience w) w) as [o w0] eqn:Ew.
  apply wait_ready_effects in Ew as (Ht & [ready ->] & evs & Htr & Hev).
  destruct ready; cbn [negb]; [|done].
  cbn [assets log set_tree]. destruct (assets w0) as [files|] eqn:Ea; [|done].
  unfold try_, _fetch_bytes, _write_bytes. cbn [server requests log set_tree tree].
  match goal with
  | |- context [server w0 ?n ?u] => destruct (server w0 n u) as [manifest|]
  end; intros [= <- <-]; (split; [done|]); (split; [done|]);
    cbn [tree trace log set_tree count_request]; rewrite Htr, <- !app_assoc.
  - split.
    + intros p. rewrite lookup_insert. case_decide as Hp.
      * intros _. left. by rewrite <- Hp.
      * rewrite lookup_union, lookup_empty, (right_id None _).
        intros [x Hx]. right. apply lookup_kmap_Some in Hx as (q & -> & _); [|apply _].
        by eexists.
    + eexists. split; [done|]. rewrite Forall_app. split; [done|].
      repeat constructor; by intros [].
  - split.
    + intros p. rewrite lookup_union, lookup_empty, (right_id None _).
      intros [x Hx]. right. apply lookup_kmap_Some in Hx as (q & -> & _); [|apply _].
      by eexists.
    + eexists. split; [done|]. rewrite Forall_app. split; [done|].
      repeat constructor; by intros [].
Qed.

Lemma fetch_text_effects url w o w' :
  _fetch_text url w = (o, w') →
  tree w' = tree w ∧ ∃ e, trace w' = trace w ++ [e] ∧ ¬ is_page_write e.
Proof.
  unfold _fetch_text, mbind, IO_bind, _fetch_bytes.
  destruct (server w (requests w) url); intros [= <- <-]; (split; [done|]);
    eexists; (split; [done|]); by intros [].
Qed.

(** C7: when the sample shell has no stylesheet link of the bundle shape,
    the run ends there with the RuntimeError of the extraction, so with
    status 1; until then no page has been written, and the output
    directory holds nothing but the copied assets and perhaps the
    manifest. *)
Theorem main_aborts_without_bundle (a : args) (w w1 w2 : world)
    (slugs : list str) (sample_shell : str) :
  main_setup a w = (Val slugs, w1) →
  _fetch_text (sample_url (rstrip_slash (glance_url_arg a)) slugs) w1
    = (Val sample_shell, w2) →
  search IGNORECASE bundle_css_re sample_shell = None →
  main a w = (Raised (RuntimeError (lit "Could not find bundle.css path in page HTML")), w2)
  ∧ exit_status (main a w).1 = 1%Z
  ∧ exit_status (main a w).1 ≠ 0%Z
  ∧ (∃ evs, trace w2 = trace w ++ evs ∧ Forall (λ e, ¬ is_page_write e) evs)
  ∧ only_assets_and_manifest (tree w2).
Proof.
  intros Hsetup Hfetch Hno.
  assert (Hmain : main a w
            = (Raised (RuntimeError (lit "Could not find bundle.css path in page HTML")), w2)).
  { unfold main. rewrite (bind_val _ _ _ _ _ Hsetup), (bind_val _ _ _ _ _ Hfetch).
    unfold main_export, _extract_bundle_css_path. by rewrite Hno. }
  rewrite Hmain. split_and!; try done.
  - apply main_setup_effects in Hsetup as (_ & _ & _ & evs & Htr & Hev).
    apply fetch_text_effects in Hfetch as (_ & e & Htr2 & He).
    exists (evs ++ [e]). rewrite Htr2, Htr, <- app_assoc. split; [done|].
    rewrite Forall_app. split; [done|]. by constructor.
  - apply main_setup_effects in Hsetup as (_ & _ & Ht & _).
    apply fetch_text_effects in Hfetch as (Ht2 & _). by rewrite Ht2.
Qed.

End Setup.

(** *** The shape of a slug *)

Section SlugShape.

Context `{Unicode}.

Lemma substr_mid (x y z : str) :
  substr (x ++ y ++ z) (length x) (length x + length y) = y.
Proof.
  unfold substr. rewrite drop_app_length.
  replace (length x + length y - length x)%nat with (length y) by lia.
  by rewrite take_app_length.
Qed.

(** What the slug pattern captures is slug-shaped. *)
Lemma slug_re_group line m :
  match_ NOFLAGS slug_re line = Some m →
  ∃ s, group m 1 = Some s ∧ slug_shaped s.
Proof.
  unfold match_. destruct (exec NOFLAGS slug_re [] [] line no_caps) as [r|] eqn:E; [|done].
  intros [= <-]. unfold slug_re in E. cbn [app exec] in E.
  apply greedy_inv in E as (a1 & b1 & _ & _ & E).
  rewrite lits_lits_of in E. apply exec_lits in E as [_ E].
  revert E. generalize (rev (lit "slug:") ++ rev a1 ++ []) (drop (length (lit "slug:")) b1).
  intros g1 r1 E. cbn [exec] in E.
  apply greedy_inv in E as (a2 & b2 & _ & _ & E). cbn [exec] in E.
  destruct b2 as [|c t]; [done|]. destruct (test NOFLAGS SLUG_CHAR c) eqn:Hc; [|done].
  apply greedy_inv in E as (a3 & b3 & _ & Ha3 & E).
  cbn [exec starts spans assoc Nat.eqb] in E.
  apply greedy_inv in E as (a4 & b4 & _ & _ & E). cbn [exec starts spans] in E.
  destruct (at_end b4); [|done]. injection E as <-.
  exists (c :: a3). split; [|split; [done|by constructor]].
  unfold group, mk_match. cbn [mt_caps m_caps spans assoc Nat.eqb mt_matched m_got].
  f_equal.
  set (g0 := rev a2 ++ g1).
  replace (rev (rev a4 ++ rev a3 ++ c :: g0)) with (rev g0 ++ (c :: a3) ++ a4).
  - replace (length (rev a3 ++ c :: g0)) with (length (rev g0) + length (c :: a3))%nat.
    + rewrite <- (length_rev g0). apply substr_mid.
    + rewrite !length_app, !length_rev. simpl. lia.
  - rewrite !rev_app_distr, !rev_involutive. simpl.
    by rewrite <- !app_assoc.
Qed.

Lemma line_slug_shaped line s : line_slug line = Some s → slug_shaped s.
Proof.
  unfold line_slug. destruct (match_ NOFLAGS slug_re line) as [m|] eqn:E; [|done].
  apply slug_re_group in E as (s' & Hg & Hs).
  cbn [fmap option_fmap option_map]. rewrite Hg. by intros [= <-].
Qed.

Lemma declared_slugs_shaped d : Forall slug_shaped (declared_slugs d).
Proof.
  unfold declared_slugs. apply Forall_forall. intros s Hs.
  apply list_elem_of_In, in_flat_map in Hs as ([name f] & _ & Hs).
  destruct f as [text| |]; simpl in Hs; try done.
  apply list_elem_of_In, list_elem_of_omap in Hs as (line & _ & Hs).
  by apply line_slug_shaped in Hs.
Qed.

Lemma slug_char_plain c :
  test NOFLAGS SLUG_CHAR c = true → c ≠ SLASH ∧ c ≠ 46.
Proof. intros Hc. split; intros ->; by vm_compute in Hc. Qed.

Lemma split_go_no_slash cur l :
  Forall (λ c, c ≠ SLASH) l → split_go SLASH cur l = [rev cur ++ l].
Proof.
  intros Hl. revert cur. induction Hl as [|x l Hx Hl IH]; intros cur; simpl.
  - by rewrite app_nil_r.
  - destruct (N.eqb_spec x SLASH) as [->|]; [done|].
    rewrite IH. simpl. by rewrite <- app_assoc.
Qed.

(** A slug is one part of a path, and not a step back. *)
Lemma slug_shaped_parts s :
  slug_shaped s → pathlib_parts s = [s] ∧ s ≠ DOTDOT ∧ s ≠ [].
Proof.
  intros [Hne Hs].
  assert (Hdot : ∀ t, s ≠ 46 :: t).
  { intros t ->. apply Forall_cons in Hs as [Hc _].
    by apply slug_char_plain in Hc as [_ ?]. }
  split; [|split; [apply Hdot|done]].
  unfold pathlib_parts, split_slash. rewrite split_go_no_slash.
  - simpl. rewrite filter_cons_True; [done|]. split; [done|apply Hdot].
  - eapply Forall_impl; [exact Hs|]. intros c Hc. by apply slug_char_plain in Hc as [? _].
Qed.

End SlugShape.

(** *** The pages of a run *)

Section Pages.

Context `{Unicode} `{Runtime}.

Lemma home_shaped : slug_shaped HOME.
Proof. split; [done|]. repeat constructor. Qed.

Lemma scan_line_shaped st line :
  Forall slug_shaped st.1 → Forall slug_shaped (scan_line st line).1.
Proof.
  intros Hst. unfold scan_line.
  destruct (match_ NOFLAGS slug_re line) as [m|] eqn:E; [|done].
  apply slug_re_group in E as (s & -> & Hs). simpl.
  case_decide; [done|]. simpl. apply Forall_app. split; [done|]. by constructor.
Qed.

Lemma scan_files_shaped files st st' :
  scan_files files st = Ok st' → Forall slug_shaped st.1 → Forall slug_shaped st'.1.
Proof.
  revert st. induction files as [|[name f] files IH]; intros st; simpl.
  - by intros [= <-].
  - destruct f as [text| |]; simpl; [|apply IH|done].
    intros E Hst. apply (IH _ E).
    clear E. revert st Hst. induction (splitlines text) as [|line lines IHl]; intros st Hst;
      [done|].
    simpl. apply IHl. by apply scan_line_shaped.
Qed.

(** Every discovered slug is slug-shaped. *)
Lemma discover_slugs_shaped d slugs :
  _discover_slugs d = Ok slugs → Forall slug_shaped slugs.
Proof.
  unfold _discover_slugs.
  destruct (scan_files (sorted_glob d) ([], ∅)) as [[l seen]|e] eqn:E; [|done].
  apply scan_files_shaped in E; [|constructor]. simpl in E.
  cbn [mbind result_bind]. intros [= <-]. case_decide; [|done].
  constructor; [apply home_shaped|].
  apply Forall_forall. intros s [_ Hs]%list_elem_of_filter.
  by eapply Forall_forall in E.
Qed.

Lemma resolve_page_path s : slug_shaped s → resolve (page_path s) = page_path s.
Proof.
  intros (_ & Hdd & _)%slug_shaped_parts.
  unfold resolve, page_path. cbn [resolve_go]. unfold str_eqb.
  rewrite (bool_decide_eq_false_2 (s = DOTDOT)) by done.
  cbn [resolve_go]. by rewrite bool_decide_eq_false_2.
Qed.

Lemma build_page_ok glance_url slug w w' :
  slug_shaped slug →
  build_page glance_url slug w = (Val (), w') →
  ∃ w0 page,
    tree w0 = tree w
    ∧ (∃ evs, trace w0 = trace w ++ evs ∧ Forall is_fetch evs)
    ∧ w' = (if decide (slug = HOME) then write_text_to ROOT_PAGE page else id)
             (write_text_to (page_path slug) page w0).
Proof.
  intros Hs. pose proof (slug_shaped_parts _ Hs) as (Hparts & _ & _).
  pose proof (resolve_page_path _ Hs) as Hres.
  unfold build_page, _fetch_text, _fetch_bytes, mbind, IO_bind, mret, IO_ret, lift.
  destruct (server w (requests w) _) as [shell|]; [|done].
  cbn [server requests log count_request].
  destruct (server w (S (requests w)) _) as [content|]; [|done].
  destruct (_inject_content (decode shell) (decode content)) as [page|]; [|done].
  unfold _write_text. rewrite Hparts. cbn [app].
  change [slug; INDEX_HTML] with (page_path slug). rewrite Hres.
  unfold str_eqb. case_bool_decide as Hh.
  - intros [= <-]. eexists (log _ (count_request (log _ (count_request w)))), page.
    rewrite decide_True by done.
    split; [reflexivity|]. split; [|reflexivity].
    eexists [_; _]. cbn [trace log count_request]. rewrite <- app_assoc.
    split; [done|]. by repeat constructor.
  - intros [= <-]. eexists (log _ (count_request (log _ (count_request w)))), page.
    rewrite decide_False by done.
    split; [reflexivity|]. split; [|reflexivity].
    eexists [_; _]. cbn [trace log count_request]. rewrite <- app_assoc.
    split; [done|]. by repeat constructor.
Qed.

Lemma omap_fetches evs : Forall is_fetch evs → omap text_write_path evs = [].
Proof.
  induction 1 as [|e evs He _ IH]; [done|]. by destruct e.
Qed.

Lemma page_path_not_root s : page_path s ≠ ROOT_PAGE.
Proof. done. Qed.

(** The loop over the slugs writes the page files, in order, and nothing
    else below the output directory. *)
Lemma build_pages_ok glance_url slugs w w' :
  Forall slug_shaped slugs →
  for_each (build_page glance_url) slugs w = (Val (), w') →
  ∃ evs,
    trace w' = trace w ++ evs
    ∧ Forall (λ e, is_fetch e ∨ is_page_write e) evs
    ∧ omap text_write_path evs = page_paths slugs
    ∧ (∀ q, q ∉ page_paths slugs → tree w' !! q = tree w !! q)
    ∧ (∀ q, is_Some (tree w !! q) → is_Some (tree w' !! q))
    ∧ (∀ s, s ∈ slugs → is_Some (tree w' !! page_path s))
    ∧ (HOME ∈ slugs ∨ tree w !! ROOT_PAGE = tree w !! page_path HOME →
       tree w' !! ROOT_PAGE = tree w' !! page_path HOME).
Proof.
  intros Hsl. revert w. induction Hsl as [|s l Hs Hl IH]; intros w.
  { intros [= <-]. exists []. rewrite app_nil_r. split_and!; try done.
    - intros s Hs. by apply elem_of_nil in Hs.
    - intros [Hh|Hh]; [by apply elem_of_nil in Hh|done]. }
  cbn [for_each]. unfold mbind at 1, IO_bind at 1.
  destruct (build_page glance_url s w) as [[[]|c|e] w1] eqn:E1; try done.
  intros E2. apply (build_page_ok _ _ _ _ Hs) in E1 as (w0 & page & Ht0 & (evs0 & Htr0 & Hev0) & ->).
  apply IH in E2 as (evs & Htr & Hev & Hpaths & Hkeep & Hmono & Hsome & Hroot). clear IH.
  destruct (decide (s = HOME)) as [->|Hne].
  - (* the page of home, then the root document *)
    exists (evs0 ++ [WriteText (page_path HOME) page; WriteText ROOT_PAGE page] ++ evs).
    cbn [trace tree log set_tree write_text_to] in *.
    split_and!.
    + rewrite Htr, Htr0, <- !app_assoc. done.
    + rewrite !Forall_app. split_and!; [|by repeat constructor|done].
      eapply Forall_impl; [exact Hev0|]. by left.
    + rewrite !omap_app, omap_fetches, Hpaths by done.
      cbn [page_paths flat_map]. by rewrite decide_True.
    + intros q Hq. cbn [page_paths flat_map] in Hq. rewrite decide_True in Hq by done.
      apply not_elem_of_app in Hq as [Hq1 Hq].
      rewrite !not_elem_of_cons in Hq1. destruct Hq1 as (Hq1 & Hq2 & _).
      rewrite (Hkeep q) by done.
      by rewrite !lookup_insert_ne, Ht0.
    + intros q Hq. apply Hmono.
      rewrite !lookup_insert. repeat case_decide; try done. by rewrite Ht0.
    + intros s' [->|Hs']%elem_of_cons; [|by apply Hsome].
      apply Hmono. rewrite lookup_insert_ne by done. rewrite lookup_insert_eq. done.
    + intros _. apply Hroot. right.
      rewrite lookup_insert_eq, lookup_insert_ne, lookup_insert_eq; done.
  - exists (evs0 ++ [WriteText (page_path s) page] ++ evs).
    cbn [trace tree log set_tree write_text_to id] in *.
    assert (Hpp : page_path s ≠ page_path HOME) by (intros [= ?]; done).
    split_and!.
    + rewrite Htr, Htr0, <- !app_assoc. done.
    + rewrite !Forall_app. split_and!; [|by repeat constructor|done].
      eapply Forall_impl; [exact Hev0|]. by left.
    + rewrite !omap_app, omap_fetches, Hpaths by done.
      cbn [page_paths flat_map]. by rewrite decide_False.
    + intros q Hq. cbn [page_paths flat_map] in Hq. rewrite decide_False in Hq by done.
      apply not_elem_of_app in Hq as [Hq1 Hq].
      rewrite !not_elem_of_cons in Hq1. destruct Hq1 as (Hq1 & _).
      rewrite (Hkeep q) by done.
      by rewrite !lookup_insert_ne, Ht0.
    + intros q Hq. apply Hmono.
      rewrite !lookup_insert. repeat case_decide; try done. by rewrite Ht0.
    + intros s' [->|Hs']%elem_of_cons; [|by apply Hsome].
      apply Hmono. rewrite lookup_insert_eq. done.
    + intros [[?|Hh]%elem_of_cons | Hh]; [done|by apply Hroot; left|].
      apply Hroot. right. rewrite !lookup_insert_ne by done. by rewrite Ht0.
Qed.

End Pages.

(** *** Steps that cannot return from [main] *)

Section NeverReturns.

Context `{Unicode} `{Runtime}.

Lemma never_returns_bind {A B} (m : IO A) (f : A → IO B) :
  never_returns m → (∀ a, never_returns (f a)) → never_returns (m ≫= f).
Proof.
  intros Hm Hf w c w'. unfold mbind, IO_bind.
  destruct (m w) as [[a|c'|e] w1] eqn:E; [apply Hf| |done].
  by apply Hm in E.
Qed.

Lemma never_returns_ret {A} (a : A) : never_returns (mret a : IO A).
Proof. by intros w c w'. Qed.

Lemma never_returns_lift {A} (r : result A) : never_returns (lift r).
Proof. intros w c w'. unfold lift. by destruct r. Qed.

Lemma never_returns_fetch_bytes url : never_returns (_fetch_bytes url).
Proof. intros w c w'. unfold _fetch_bytes. by destruct (server w _ _). Qed.

Lemma never_returns_fetch_text url : never_returns (_fetch_text url).
Proof.
  apply never_returns_bind; [apply never_returns_fetch_bytes|].
  intros a. apply never_returns_ret.
Qed.

Lemma never_returns_for_each {A} (f : A → IO unit) l :
  (∀ x, never_returns (f x)) → never_returns (for_each f l).
Proof.
  intros Hf. induction l as [|x l IH]; [apply never_returns_ret|].
  apply never_returns_bind; [apply Hf|done].
Qed.

Lemma never_returns_download_dep glance_url ref :
  never_returns (download_dep glance_url ref).
Proof.
  intros w c w'. unfold download_dep, mbind, IO_bind, try_, _fetch_bytes.
  by destruct (server w _ _).
Qed.

Lemma never_returns_download glance_url bundle_css_path :
  never_returns (_download_static_css_and_deps glance_url bundle_css_path).
Proof.
  apply never_returns_bind; [apply never_returns_fetch_bytes|]. intros css.
  apply never_returns_bind; [by intros w c w'|]. intros _.
  apply never_returns_for_each, never_returns_download_dep.
Qed.

Lemma never_returns_build_page glance_url slug :
  never_returns (build_page glance_url slug).
Proof.
  apply never_returns_bind; [apply never_returns_fetch_text|]. intros shell.
  apply never_returns_bind; [apply never_returns_fetch_text|]. intros content.
  apply never_returns_bind; [apply never_returns_lift|]. intros page.
  apply never_returns_bind; [by intros w c w'|]. intros _.
  destruct (str_eqb slug HOME); by intros w c w'.
Qed.

(** [main_setup] returns from [main] with the statuses 2, 3 and 4 only. *)
Lemma main_setup_return a w code w' :
  main_setup a w = (Return code, w') → code = 2%Z ∨ code = 3%Z ∨ code = 4%Z.
Proof.
  unfold main_setup, mbind, IO_bind, lift.
  destruct (_discover_slugs (config_dir_arg a)) as [slugs|e]; [|done].
  case_bool_decide; [intros [= <- _]; by left|].
  destruct (wait_ready _ (patience w) w) as [o w0] eqn:Ew.
  apply wait_ready_effects in Ew as (_ & [ready ->] & _).
  destruct ready; cbn [negb]; [|intros [= <- _]; right; by left].
  cbn [assets log set_tree]. destruct (assets w0); [|intros [= <- _]; right; by right].
  unfold try_, _fetch_bytes, _write_bytes. cbn [server requests log set_tree].
  match goal with
  | |- context [server w0 ?n ?u] => by destruct (server w0 n u)
  end.
Qed.

End NeverReturns.

(** *** The final pass *)

Section FinalPass.

Context `{Unicode} `{Runtime}.

Lemma rewrite_tree_lookup base_path t t' :
  rewrite_tree base_path t = Ok t' →
  ∀ p, t' !! p = new_content base_path p <$> t !! p.
Proof.
  unfold rewrite_tree.
  assert (Hgen : ∀ (t0 m t' : gmap path bytes),
    map_fold (rewrite_step base_path) (Ok t0) m = Ok t' →
    ∀ p, t' !! p = match m !! p with
                   | Some d => match rewrite_file base_path p d with
                               | Ok (Some d') => Some d'
                               | _ => t0 !! p
                               end
                   | None => t0 !! p
                   end).
  { intros t0 m. 
    apply (map_fold_weak_ind (λ r (m : gmap path bytes), ∀ t' : gmap path bytes, r = Ok t' → ∀ p,
             t' !! p = match m !! p with
                       | Some d => match rewrite_file base_path p d with
                                   | Ok (Some d') => Some d'
                                   | _ => t0 !! p
                                   end
                       | None => t0 !! p
                       end)).
    - intros t1 [= <-] p. by rewrite lookup_empty.
    - intros i x m' r Hi IH t1. destruct r as [t2|e]; [|done].
      unfold rewrite_step. cbn [mbind result_bind].
      destruct (rewrite_file base_path i x) as [rf|e] eqn:Erf; [|done].
      intros [= <-] p. specialize (IH t2 eq_refl p).
      destruct (decide (p = i)) as [->|Hp].
      + rewrite lookup_insert_eq, Erf. rewrite Hi in IH.
        destruct rf; [by rewrite lookup_insert_eq|done].
      + rewrite lookup_insert_ne by done.
        destruct rf; [by rewrite lookup_insert_ne|done]. }
  intros E p. rewrite (Hgen _ _ _ E p). unfold new_content.
  destruct (t !! p) as [d|]; [|done]. simpl.
  by destruct (rewrite_file base_path p d) as [[d'|]|].
Qed.

(** The final pass treats two files with the same name alike. *)
Lemma new_content_same_name base_path p q data :
  last p = last q → new_content base_path p data = new_content base_path q data.
Proof. intros E. unfold new_content, rewrite_file. by rewrite E. Qed.

End FinalPass.

(** *** What a successful run leaves *)

Section SuccessfulRun.

Context `{Unicode} `{Runtime}.








End SuccessfulRun.

(** *** The exit status of a run *)

Section ExitStatus.

Context `{Unicode} `{Runtime}.

(** [main_setup] returns 2 only when discovery found no slug. *)
Lemma main_setup_return_2 a w w' :
  main_setup a w = (Return 2, w') → _discover_slugs (config_dir_arg a) = Ok [].
Proof.
  unfold main_setup, mbind, IO_bind, lift.
  destruct (_discover_slugs (config_dir_arg a)) as [slugs|e]; [|done].
  case_bool_decide as Hs; [by rewrite Hs|].
  destruct (wait_ready _ (patience w) w) as [o w0] eqn:Ew.
  apply wait_ready_effects in Ew as (_ & [ready ->] & _).
  destruct ready; cbn [negb]; [|done].
  cbn [assets log set_tree]. destruct (assets w0); [|done].
  unfold try_, _fetch_bytes, _write_bytes. cbn [server requests log set_tree].
  match goal with
  | |- context [server w0 ?n ?u] => by destruct (server w0 n u)
  end.
Qed.

(** From the sample shell on, a run returns 0 or ends with an exception. *)
Lemma main_export_outcome a slugs sample_shell w o w' :
  main_export a slugs sample_shell w = (o, w') → o = Return 0 ∨ ∃ e, o = Raised e.
Proof.
  unfold main_export, mbind, IO_bind, lift.
  destruct (_extract_bundle_css_path sample_shell) as [css_path|e];
    [|intros [= <- _]; right; by eexists].
  destruct (_download_static_css_and_deps _ css_path w) as [[[]|c|e] w3] eqn:E3.
  2:{ by apply never_returns_download in E3. }
  2:{ intros [= <- _]; right; by eexists. }
  destruct (for_each _ slugs w3) as [[[]|c|e] w4] eqn:E4.
  2:{ apply never_returns_for_each in E4; [done|]. apply never_returns_build_page. }
  2:{ intros [= <- _]; right; by eexists. }
  unfold rewrite_pass.
  destruct (rewrite_tree _ (tree w4)) as [t5|e]; [|intros [= <- _]; right; by eexists].
  unfold _write_text, emit, return_. intros [= <- _]. by left.
Qed.

(** Status 2 is the status of the run without slugs, and of no other run. *)
Lemma main_status_2 a w :
  exit_status (main a w).1 = 2%Z → _discover_slugs (config_dir_arg a) = Ok [].
Proof.
  unfold main. unfold mbind at 1, IO_bind at 1.
  destruct (main_setup a w) as [[slugs|c|e] w1] eqn:E1; [| |done].
  - unfold mbind at 1, IO_bind at 1.
    destruct (_fetch_text _ w1) as [[sample|c|e] w2] eqn:E2; [| |done].
    + destruct (main_export a slugs sample w2) as [o w3] eqn:E3.
      by apply main_export_outcome in E3 as [->|[e ->]].
    + by apply never_returns_fetch_text in E2.
  - simpl. intros ->. by apply main_setup_return_2 in E1.
Qed.

(** C10, as the code has it: for a configuration directory that does not
    exist, that lists no declaration file, or whose declaration files are
    all gone when they are read, discovery raises nothing and returns the
    empty list, and the run ends by the return of status 2 after the
    message on the error stream, having done nothing else; the process
    whose command line has been parsed ends with that status. *)
Theorem discover_slugs_missing_inputs (a : args) (w : world) :
  no_declarations_found (config_dir_arg a) →
  _discover_slugs (config_dir_arg a) = Ok []
  ∧ main a w = (Return 2, log (Print true) w)
  ∧ exit_status (main a w).1 = 2%Z
  ∧ run_script (Parsed a) w = (2%Z, log (Print true) w).
Proof.
  intros Hd. pose proof (discover_slugs_nothing _ Hd) as Hs.
  split; [done|]. unfold run_script. rewrite (main_no_slugs _ _ Hs).
  by split_and!.
Qed.

(** X18: the process ends with status 2 exactly when argparse rejects the
    command line or discovery finds no slug; a run that ends with an
    exception has status 1, and no other return of [main] gives 2. *)
Theorem script_status_2 (p : parsed) (w : world) :
  (run_script p w).1 = 2%Z
  ↔ p = UsageError ∨ ∃ a, p = Parsed a ∧ _discover_slugs (config_dir_arg a) = Ok [].
Proof.
  split.
  - destruct p as [a| |]; [|by left|done].
    unfold run_script. destruct (main a w) as [o w'] eqn:E. cbn [fst].
    intros Ho. right. exists a. split; [done|].
    apply (main_status_2 a w). by rewrite E.
  - intros [->|(a & -> & Hd)]; [done|].
    unfold run_script. by rewrite (main_no_slugs _ _ Hd).
Qed.

End ExitStatus.

(** *** Stripping, once more *)

Section MoreStripFacts.

Lemma drop_while_nil_iff p s : drop_while p s = [] ↔ Forall (λ c, p c = true) s.
Proof.
  induction s as [|c s IH]; simpl; [by split|].
  destruct (p c) eqn:Hc.
  - rewrite IH. split; [by constructor|by intros [_ ?]%Forall_cons].
  - split; [done|]. intros [? _]%Forall_cons. congruence.
Qed.

Lemma rstrip_by_nil_iff p s : rstrip_by p s = [] ↔ Forall (λ c, p c = true) s.
Proof.
  unfold rstrip_by. split.
  - intros E. apply (f_equal (@rev _)) in E. rewrite rev_involutive in E.
    apply drop_while_nil_iff, Forall_rev in E. by rewrite rev_involutive in E.
  - intros Hs. apply Forall_rev, drop_while_nil_iff in Hs. by rewrite Hs.
Qed.

Lemma drop_while_fixed p s :
  match s with c :: _ => p c = false | [] => True end → drop_while p s = s.
Proof. destruct s as [|c s]; simpl; [done|]. by intros ->. Qed.

Lemma rstrip_by_fixed p s :
  (∀ c, last s = Some c → p c = false) → rstrip_by p s = s.
Proof.
  intros Hl. unfold rstrip_by. rewrite drop_while_fixed; [apply rev_involutive|].
  destruct (rev s) as [|c t] eqn:E; [done|]. apply Hl.
  rewrite <- (rev_involutive s), E. simpl. apply last_snoc.
Qed.

Lemma strip_no_space s : no_space s → strip s = s.
Proof.
  intros Hs. unfold strip, lstrip_by.
  rewrite (drop_while_fixed isspace s).
  - apply rstrip_by_fixed. intros c Hc.
    eapply Forall_forall in Hs; [exact Hs|]. by apply last_Some_elem_of.
  - destruct s; [done|]. by apply Forall_cons in Hs as [? _].
Qed.

Lemma rstrip_slash_fixed r : no_trailing_slash r → rstrip_slash r = r.
Proof.
  unfold no_trailing_slash, endswith, rstrip_slash. intros Hr.
  apply rstrip_by_fixed. intros c Hc.
  destruct (rev r) as [|x t] eqn:E.
  { apply (f_equal (@rev _)) in E. rewrite rev_involutive in E. by subst. }
  assert (r = rev t ++ [x]) as ->.
  { apply (f_equal (@rev _)) in E. by rewrite rev_involutive in E. }
  rewrite last_snoc in Hc. injection Hc as ->.
  cbn [rev app startswith] in Hr. by rewrite andb_true_r in Hr.
Qed.

Lemma rstrip_by_Forall (P : char → Prop) p s : Forall P s → Forall P (rstrip_by p s).
Proof.
  intros Hs. destruct (rstrip_by_prefix p s) as [k Hk].
  rewrite Hk in Hs. by apply Forall_app in Hs as [? _].
Qed.

End MoreStripFacts.

(** *** Empty and repeated normalization *)

Section MoreNormalize.

Lemma normalize_nonempty_shape s :
  _normalize_base_path s = []
  ∨ (leading_slash (_normalize_base_path s) ∧ no_trailing_slash (_normalize_base_path s)).
Proof.
  unfold _normalize_base_path.
  destruct (str_eqb (strip s) [] || str_eqb (strip s) [SLASH]); [by left|].
  set (b := if negb (startswith [SLASH] (strip s)) then SLASH :: strip s else strip s).
  assert (Hb : leading_slash b).
  { unfold b, leading_slash. destruct (startswith [SLASH] (strip s)) eqn:E; [done|].
    cbn [negb startswith]. by rewrite N.eqb_refl. }
  destruct (rstrip_slash_leading b Hb) as [->|Hl]; [by left|].
  right. split; [done|apply rstrip_slash_no_trailing].
Qed.

Lemma normalize_Forall (P : char → Prop) s :
  P SLASH → Forall P (strip s) → Forall P (_normalize_base_path s).
Proof.
  intros Hsl Hs. unfold _normalize_base_path.
  destruct (str_eqb (strip s) [] || str_eqb (strip s) [SLASH]); [constructor|].
  apply rstrip_by_Forall.
  destruct (negb (startswith [SLASH] (strip s))); [by constructor|done].
Qed.

Lemma normalize_fixed r :
  no_space r → leading_slash r → no_trailing_slash r → _normalize_base_path r = r.
Proof.
  intros Hsp Hl Ht. unfold _normalize_base_path. rewrite (strip_no_space r Hsp).
  destruct r as [|c r]; [done|].
  assert (E1 : str_eqb (c :: r) [] = false) by (by apply bool_decide_eq_false).
  assert (E2 : str_eqb (c :: r) [SLASH] = false).
  { apply bool_decide_eq_false. intros [= -> ->]. by vm_compute in Ht. }
  rewrite E1, E2. unfold leading_slash in Hl. rewrite Hl. simpl.
  by apply rstrip_slash_fixed.
Qed.

Lemma normalize_empty_iff s :
  _normalize_base_path s = [] ↔ only_slashes (strip s).
Proof.
  unfold _normalize_base_path, only_slashes. set (b := strip s).
  destruct (str_eqb b []) eqn:E1.
  { apply bool_decide_eq_true in E1. rewrite E1. simpl. by split. }
  destruct (str_eqb b [SLASH]) eqn:E2.
  { apply bool_decide_eq_true in E2. rewrite E2. simpl. split; [by repeat constructor|done]. }
  cbn [orb]. unfold rstrip_slash. rewrite rstrip_by_nil_iff.
  assert (Hiff : ∀ l, Forall (λ c, (SLASH =? c) = true) l ↔ Forall (λ c, c = SLASH) l).
  { intros l. apply Forall_iff. intros c. rewrite N.eqb_eq. split; congruence. }
  rewrite Hiff.
  destruct (startswith [SLASH] b) eqn:E3; cbn [negb]; [done|].
  split.
  - intros [_ Hf]%Forall_cons. destruct b as [|c b]; [done|].
    apply Forall_cons in Hf as [-> _]. cbn in E3. by rewrite N.eqb_refl in E3.
  - intros Hf. destruct b as [|c b]; [by apply bool_decide_eq_false in E1|].
    apply Forall_cons in Hf as [-> _]. cbn in E3. by rewrite N.eqb_refl in E3.
Qed.

(** X1: [_normalize_base_path] returns the empty string, the value that
    turns the rewriting off, exactly for the inputs that are made of
    slashes only once the whitespace around them is stripped: the empty
    input, blanks, one slash, several slashes. *)
Theorem normalize_base_path_empty_iff (s : str) :
  _normalize_base_path s = [] ↔ only_slashes (strip s).
Proof. apply normalize_empty_iff. Qed.

(** X2: normalizing a base path twice is normalizing it once, for every
    input without whitespace. With whitespace inside it is not: [a /] is
    normalized to [/a ], with a blank at its end, and a second
    normalization strips that blank. *)
Theorem normalize_base_path_idempotent :
  (∀ s, no_space s →
        _normalize_base_path (_normalize_base_path s) = _normalize_base_path s)
  ∧ _normalize_base_path (lit "a /") = lit "/a "
  ∧ _normalize_base_path (lit "/a ") = lit "/a".
Proof.
  split; [|split; vm_compute; reflexivity].
  intros s Hs.
  destruct (normalize_nonempty_shape s) as [->|[Hl Ht]]; [done|].
  apply normalize_fixed; [|done|done].
  apply normalize_Forall; [done|]. by rewrite strip_no_space.
Qed.

End MoreNormalize.

(** *** The lines that declare a slug *)

Section SlugLines.

Context `{Unicode}.

Lemma in_range_one a c : in_range a a c = (c =? a).
Proof.
  unfold in_range.
  destruct (N.leb_spec a c), (N.leb_spec c a), (N.eqb_spec c a); simpl; try done; lia.
Qed.

Lemma test_slug_char c : test NOFLAGS SLUG_CHAR c = slug_char c.
Proof.
  unfold test, SLUG_CHAR, slug_char, is_ascii_letter, is_ascii_upper, is_ascii_lower,
    is_ascii_digit.
  cbn [existsb xorb fst snd]. rewrite !in_range_one, orb_false_r, !orb_assoc. done.
Qed.

Lemma slug_shaped_chars s : slug_shaped s ↔ s ≠ [] ∧ forallb slug_char s = true.
Proof.
  unfold slug_shaped. rewrite forallb_forall, Forall_forall.
  split; intros [Hne Hs]; (split; [done|]); intros c Hc.
  - rewrite <- test_slug_char. by apply Hs, list_elem_of_In.
  - rewrite test_slug_char. by apply Hs, list_elem_of_In.
Qed.

Lemma slug_char_bounds c : slug_char c = true → 45 ≤ c ≤ 122.
Proof.
  unfold slug_char, is_ascii_letter, is_ascii_upper, is_ascii_lower, is_ascii_digit,
    in_range.
  destruct (N.leb_spec 65 c), (N.leb_spec c 90), (N.leb_spec 97 c), (N.leb_spec c 122),
    (N.leb_spec 48 c), (N.leb_spec c 57), (N.eqb_spec c 95), (N.eqb_spec c 45);
    simpl; try done; lia.
Qed.

Lemma in_range_outside lo hi c : c < lo ∨ hi < c → in_range lo hi c = false.
Proof.
  unfold in_range.
  intros [?|?]; destruct (N.leb_spec lo c), (N.leb_spec c hi); simpl; try done; lia.
Qed.

Lemma slug_char_not_space c : slug_char c = true → isspace c = false.
Proof.
  intros Hc%slug_char_bounds. unfold isspace.
  rewrite !in_range_outside by lia.
  repeat (rewrite (proj2 (N.eqb_neq c _)) by lia). done.
Qed.

(** A greedy repetition that can take a whole stretch, and no more, and
    whose continuation succeeds right after it, ends there. *)
Lemma greedy_all p k got a b m :
  Forall (λ c, p c = true) a →
  match b with c :: _ => p c = false | [] => True end →
  k (rev a ++ got) b = Some m →
  greedy p k got (a ++ b) = Some m.
Proof.
  intros Ha Hb. revert got. induction Ha as [|x a Hx Ha IH]; intros got Hk.
  - simpl in *. destruct b as [|c t]; simpl; [done|]. by rewrite Hb.
  - cbn [app greedy]. rewrite Hx. rewrite (IH (x :: got)); [done|].
    simpl in Hk. by rewrite <- app_assoc in Hk.
Qed.

Lemma exec_lits_fwd w r before got rest cs :
  exec NOFLAGS (lits_of w ++ r) before got (w ++ rest) cs
  = exec NOFLAGS r before (rev w ++ got) rest cs.
Proof.
  revert got. induction w as [|p w IH]; intros got; [done|].
  cbn [lits_of fmap list_fmap app exec test]. unfold lit_matches.
  cbn [ignorecase NOFLAGS andb]. rewrite N.eqb_refl.
  change (exec NOFLAGS (lits_of w ++ r) before (p :: got) (w ++ rest) cs
          = exec NOFLAGS r before (rev (p :: w) ++ got) rest cs).
  rewrite IH. simpl. by rewrite <- app_assoc.
Qed.

Lemma at_end_space b : at_end b = true → all_space b.
Proof.
  destruct b as [|x [|y t]]; cbn [at_end]; [constructor| |done].
  intros ->%N.eqb_eq. by repeat constructor.
Qed.

(** What a line must look like for the slug pattern to match it. *)
Lemma slug_re_inv line m :
  exec NOFLAGS slug_re [] [] line no_caps = Some m →
  ∃ ws1 ws2 s ws3,
    line = ws1 ++ lit "slug:" ++ ws2 ++ s ++ ws3
    ∧ all_space ws1 ∧ all_space ws2 ∧ all_space ws3 ∧ slug_shaped s
    ∧ group (mk_match [] m) 1 = Some s.
Proof.
  intros E. unfold slug_re in E. cbn [app exec] in E.
  apply greedy_inv in E as (a1 & b1 & Hl1 & Ha1 & E).
  rewrite lits_lits_of in E. apply exec_lits in E as [Hs E].
  apply startswith_app in Hs.
  revert E. generalize (rev (lit "slug:") ++ rev a1 ++ []).
  intros g1 E. cbn [exec] in E.
  apply greedy_inv in E as (a2 & b2 & Hl2 & Ha2 & E). cbn [exec] in E.
  destruct b2 as [|c t]; [done|]. destruct (test NOFLAGS SLUG_CHAR c) eqn:Hc; [|done].
  apply greedy_inv in E as (a3 & b3 & -> & Ha3 & E).
  cbn [exec starts spans assoc Nat.eqb] in E.
  apply greedy_inv in E as (a4 & b4 & -> & Ha4 & E). cbn [exec starts spans] in E.
  destruct (at_end b4) eqn:Hend; [|done]. injection E as <-.
  exists a1, a2, (c :: a3), (a4 ++ b4). split_and!; try done.
  - rewrite Hl1, Hs, Hl2. done.
  - apply Forall_app. split; [done|by apply at_end_space].
  - split; [done|by constructor].
  - unfold group, mk_match. cbn [mt_caps m_caps spans assoc Nat.eqb mt_matched m_got].
    f_equal.
    set (g0 := rev a2 ++ g1).
    replace (rev (rev a4 ++ rev a3 ++ c :: g0)) with (rev g0 ++ (c :: a3) ++ a4).
    + replace (length (rev a3 ++ c :: g0)) with (length (rev g0) + length (c :: a3))%nat.
      * rewrite <- (length_rev g0). apply substr_mid.
      * rewrite !length_app, !length_rev. simpl. lia.
    + rewrite !rev_app_distr, !rev_involutive. simpl.
      by rewrite <- !app_assoc.
Qed.

(** A line of that form is matched, and the slug is what is captured. *)
Lemma slug_re_fwd ws1 ws2 s ws3 :
  all_space ws1 → all_space ws2 → all_space ws3 → slug_shaped s →
  ∃ m, exec NOFLAGS slug_re [] [] (ws1 ++ lit "slug:" ++ ws2 ++ s ++ ws3) no_caps = Some m
       ∧ group (mk_match [] m) 1 = Some s.
Proof.
  intros H1 H2 H3 [Hne Hs].
  destruct s as [|c s]; [done|]. apply Forall_cons in Hs as [Hc Hs].
  eexists. split.
  - unfold slug_re. cbn [app exec].
    apply greedy_all; [done|done|].
    rewrite lits_lits_of, exec_lits_fwd. cbn [exec].
    apply greedy_all; [done| |].
    { cbn [app]. apply slug_char_not_space. by rewrite <- test_slug_char. }
    cbn [exec app]. rewrite Hc.
    apply greedy_all; [done| |].
    { destruct ws3 as [|x ws3]; [done|]. apply Forall_cons in H3 as [Hx _].
      rewrite test_slug_char. destruct (slug_char x) eqn:E; [|done].
      apply slug_char_not_space in E. congruence. }
    cbn [exec starts spans assoc Nat.eqb].
    rewrite <- (app_nil_r ws3) at 1.
    apply greedy_all; [done|done|].
    cbn [exec at_end]. reflexivity.
  - unfold group, mk_match. cbn [mt_caps m_caps spans assoc Nat.eqb mt_matched m_got].
    f_equal.
    set (g0 := rev ws2 ++ rev (lit "slug:") ++ rev ws1 ++ []).
    replace (rev (rev ws3 ++ rev s ++ c :: g0)) with (rev g0 ++ (c :: s) ++ ws3).
    + replace (length (rev s ++ c :: g0)) with (length (rev g0) + length (c :: s))%nat.
      * rewrite <- (length_rev g0). apply substr_mid.
      * rewrite !length_app, !length_rev. simpl. lia.
    + rewrite !rev_app_distr, !rev_involutive. simpl.
      by rewrite <- !app_assoc.
Qed.

(** X3: the lines that declare a slug. The slug pattern matches a line
    and captures [s] exactly when the line is whitespace, [slug:],
    whitespace, [s], whitespace, where [s] is a run of ASCII letters,
    digits, underscores and hyphens that is not empty; each stretch of
    whitespace may be empty. *)
Theorem slug_line_grammar (line s : str) :
  line_slug line = Some s ↔
  ∃ ws1 ws2 ws3,
    line = ws1 ++ lit "slug:" ++ ws2 ++ s ++ ws3
    ∧ all_space ws1 ∧ all_space ws2 ∧ all_space ws3
    ∧ s ≠ [] ∧ forallb slug_char s = true.
Proof.
  unfold line_slug, match_. split.
  - destruct (exec NOFLAGS slug_re [] [] line no_caps) as [m|] eqn:E; [|done].
    apply slug_re_inv in E as (ws1 & ws2 & s' & ws3 & -> & H1 & H2 & H3 & Hs & Hg).
    cbn [fmap option_fmap option_map]. rewrite Hg. intros [= <-].
    exists ws1, ws2, ws3. by apply slug_shaped_chars in Hs as [? ?].
  - intros (ws1 & ws2 & ws3 & -> & H1 & H2 & H3 & Hne & Hs).
    destruct (slug_re_fwd ws1 ws2 s ws3) as (m & -> & Hg); try done.
    { by apply slug_shaped_chars. }
    cbn [fmap option_fmap option_map]. by rewrite Hg.
Qed.

(** X4: whatever the declaration files hold, every slug that discovery
    returns is a run of [A-Za-z0-9_-] that is not empty, hence one path
    component: the page of a slug is written to [slug/index.html],
    below the output directory. *)
Theorem discovered_slugs_path_safe (d : config_dir) (slugs : list str) :
  _discover_slugs d = Ok slugs →
  Forall (λ s, s ≠ [] ∧ forallb slug_char s = true
               ∧ pathlib_parts s = [s]
               ∧ resolve (page_path s) = page_path s) slugs.
Proof.
  intros Hd%discover_slugs_shaped.
  eapply Forall_impl; [exact Hd|]. intros s Hs.
  pose proof (proj1 (slug_shaped_chars s) Hs) as [Hne Hc].
  split_and!; try done.
  - by apply slug_shaped_parts.
  - by apply resolve_page_path.
Qed.

End SlugLines.

(** *** Where the references of a stylesheet point *)

Section Confinement.

Context `{Unicode}.

Lemma elem_of_rev {A} (x : A) l : x ∈ rev l ↔ x ∈ l.
Proof. rewrite !list_elem_of_In. symmetry. apply in_rev. Qed.

Lemma split_go_app_plain cur x rest :
  SLASH ∉ x → split_go SLASH cur (x ++ rest) = split_go SLASH (rev x ++ cur) rest.
Proof.
  revert cur. induction x as [|c x IH]; intros cur Hx; [done|].
  apply not_elem_of_cons in Hx as [Hc Hx].
  cbn [app split_go]. destruct (N.eqb_spec c SLASH) as [->|_]; [done|].
  rewrite IH by done. simpl. by rewrite <- app_assoc.
Qed.

Lemma split_go_parts_plain cur s :
  SLASH ∉ cur → Forall (λ c, SLASH ∉ c) (split_go SLASH cur s).
Proof.
  revert cur. induction s as [|c s IH]; intros cur Hcur; cbn [split_go].
  - constructor; [|done]. by rewrite elem_of_rev.
  - destruct (N.eqb_spec c SLASH) as [->|Hc].
    + constructor; [by rewrite elem_of_rev|]. apply IH. apply not_elem_of_nil.
    + apply IH. by apply not_elem_of_cons.
Qed.

Lemma split_join comps :
  comps ≠ [] → Forall (λ c, SLASH ∉ c) comps → split_slash (join_slash comps) = comps.
Proof.
  unfold split_slash. intros Hne Hc. induction Hc as [|x t Hx Ht IH]; [done|].
  destruct t as [|y t].
  - cbn [join_slash]. rewrite <- (app_nil_r x) at 1.
    rewrite split_go_app_plain by done. cbn [split_go].
    by rewrite app_nil_r, rev_involutive.
  - cbn [join_slash]. rewrite split_go_app_plain by done. cbn [split_go].
    rewrite N.eqb_refl, app_nil_r, rev_involutive. f_equal. by apply IH.
Qed.

Lemma normpath_comps_clean n acc comps :
  n ≠ 0%nat → Forall clean_part acc → Forall (λ c, SLASH ∉ c) comps →
  Forall clean_part (normpath_comps n acc comps).
Proof.
  intros Hn Hacc Hc. revert acc Hacc.
  induction Hc as [|x t Hx Ht IH]; intros acc Hacc; cbn [normpath_comps].
  - by apply Forall_rev.
  - unfold str_eqb. case_bool_decide as E1; [by apply IH|].
    case_bool_decide as E2; [by apply IH|]. cbn [orb].
    case_bool_decide as E3; cbn [negb orb].
    + destruct n; [done|]. cbn [Nat.eqb andb orb].
      destruct acc as [|l acc]; [by apply IH|].
      apply Forall_cons in Hacc as [Hl Hacc].
      rewrite bool_decide_eq_false_2; [by apply IH|]. by destruct Hl as (_ & _ & ? & _).
    + apply IH. by constructor.
Qed.

Lemma lstrip_slash_replicate n s :
  match s with c :: _ => c ≠ SLASH | [] => True end →
  lstrip_slash (replicate n SLASH ++ s) = s.
Proof.
  intros Hs. unfold lstrip_slash, lstrip_by. induction n as [|n IH].
  - apply drop_while_fixed. destruct s as [|c s]; [done|].
    destruct (N.eqb_spec SLASH c); [by subst|done].
  - cbn [replicate app drop_while]. by rewrite N.eqb_refl.
Qed.

Lemma join_slash_head comps :
  Forall clean_part comps →
  match join_slash comps with c :: _ => c ≠ SLASH | [] => True end.
Proof.
  intros [|x t (Hne & _ & _ & Hx) _]; [done|].
  assert (Hj : ∃ k, join_slash (x :: t) = x ++ k).
  { destruct t; [exists []; by rewrite app_nil_r|by eexists]. }
  destruct Hj as [k ->]. destruct x as [|c x]; [done|].
  simpl. intros ->. apply Hx. by left.
Qed.

Lemma pathlib_parts_join comps :
  Forall clean_part comps → pathlib_parts (join_slash comps) = comps.
Proof.
  intros Hc. unfold pathlib_parts.
  destruct (decide (comps = [])) as [->|Hne].
  { change (split_slash (join_slash [])) with [[] : str].
    rewrite filter_cons_False; [done|]. tauto. }
  rewrite split_join; [|done|].
  - clear Hne. induction Hc as [|x t Hx Ht IH]; [done|].
    rewrite filter_cons_True; [f_equal; exact IH|]. by destruct Hx as (? & ? & _).
  - eapply Forall_impl; [exact Hc|]. by intros c (_ & _ & _ & ?).
Qed.

Lemma resolve_go_plain seen p :
  DOTDOT ∉ p → resolve_go seen p = rev seen ++ p.
Proof.
  revert seen. induction p as [|x p IH]; intros seen Hp; cbn [resolve_go].
  - by rewrite app_nil_r.
  - apply not_elem_of_cons in Hp as [Hx Hp]. unfold str_eqb.
    rewrite bool_decide_eq_false_2 by done. rewrite IH by done.
    simpl. by rewrite <- app_assoc.
Qed.

Lemma posix_join_rooted css_dir ref :
  leading_slash css_dir → leading_slash (posix_join css_dir ref).
Proof.
  intros [t ->]%startswith_slash_inv. unfold posix_join.
  destruct (startswith [SLASH] ref) eqn:E; [done|].
  destruct (_ || _); unfold leading_slash; cbn [app startswith]; by rewrite N.eqb_refl.
Qed.

(** [normpath] of a rooted path: slashes, then clean parts. *)
Lemma normpath_rooted path :
  leading_slash path →
  ∃ n comps, normpath path = replicate (S n) SLASH ++ join_slash comps
             ∧ Forall clean_part comps.
Proof.
  intros Hl. pose proof Hl as [t ->]%startswith_slash_inv.
  unfold normpath. unfold leading_slash in Hl. rewrite Hl.
  set (n := if _ && _ then 2%nat else 1%nat).
  assert (Hn : ∃ k, n = S k) by (unfold n; destruct (_ && _); by eexists).
  destruct Hn as [k Hk]. cbv zeta.
  assert (Hc : Forall clean_part (normpath_comps n [] (split_slash (SLASH :: t)))).
  { apply normpath_comps_clean; [lia|done|]. apply split_go_parts_plain, not_elem_of_nil. }
  exists k, (normpath_comps n [] (split_slash (SLASH :: t))). split; [|done].
  rewrite Hk. done.
Qed.

Lemma resolve_ref_confined css_dir m r :
  leading_slash css_dir →
  resolve_ref css_dir m = Some r →
  leading_slash r
  ∧ (r = strip (default [] (group m 2))
     ∨ (Forall clean_part (pathlib_parts (lstrip_slash r))
        ∧ resolve (pathlib_parts (lstrip_slash r)) = pathlib_parts (lstrip_slash r))).
Proof.
  intros Hdir. unfold resolve_ref. set (ref := strip _).
  destruct (_ || _); [done|]. destruct (_ || _); [done|].
  destruct (startswith [SLASH] ref) eqn:E.
  { intros [= <-]. split; [done|by left]. }
  destruct (normpath_rooted (posix_join css_dir ref)) as (n & comps & -> & Hc).
  { by apply posix_join_rooted. }
  cbn [replicate app startswith negb]. rewrite N.eqb_refl. cbn [andb negb].
  intros [= <-]. split; [unfold leading_slash; cbn; by rewrite N.eqb_refl|]. right.
  change (SLASH :: replicate n SLASH ++ join_slash comps)
    with (replicate (S n) SLASH ++ join_slash comps).
  rewrite lstrip_slash_replicate by (by apply join_slash_head).
  rewrite pathlib_parts_join by done. split; [done|].
  unfold resolve. rewrite resolve_go_plain; [done|].
  intros Hin. eapply Forall_forall in Hc; [|exact Hin]. by destruct Hc as (_ & _ & ? & _).
Qed.

Lemma css_dir_rooted bundle_css_path : leading_slash (css_dir_of bundle_css_path).
Proof. unfold css_dir_of, leading_slash. cbn [startswith]. by rewrite N.eqb_refl. Qed.

(** X12: every reference of the download set starts with a slash. It
    is a root-absolute reference taken as the stylesheet writes it, or a
    relative reference resolved against the directory of the bundle, whose
    components are then never empty, [.] or [..]: however many [..] the
    stylesheet has, the file of a relative reference is written below the
    output directory. *)
Theorem css_refs_confined (bundle_css_path css_text r : str) :
  r ∈ css_refs bundle_css_path css_text →
  leading_slash r
  ∧ ((∃ m, m ∈ finditer NOFLAGS url_re css_text ∧ r = strip (default [] (group m 2)))
     ∨ (Forall clean_part (pathlib_parts (lstrip_slash r))
        ∧ resolve (pathlib_parts (lstrip_slash r)) = pathlib_parts (lstrip_slash r))).
Proof.
  unfold css_refs.
  assert (Hgen : ∀ l (acc : gset str),
    r ∈ foldl (λ refs m,
                 match resolve_ref (css_dir_of bundle_css_path) m with
                 | Some ref => {[ref]} ∪ refs
                 | None => refs
                 end) acc l →
    r ∈ acc ∨ ∃ m, m ∈ l ∧ resolve_ref (css_dir_of bundle_css_path) m = Some r).
  { induction l as [|m l IH]; intros acc; cbn [foldl]; [by left|].
    intros [Hr|(m' & Hm' & Hr)]%IH.
    - destruct (resolve_ref _ m) as [ref|] eqn:E; [|by left].
      apply elem_of_union in Hr as [->%elem_of_singleton|Hr]; [|by left].
      right. exists m. split; [by left|done].
    - right. exists m'. split; [by right|done]. }
  intros [Hr|(m & Hm & Hr)]%Hgen; [by apply elem_of_empty in Hr|].
  apply resolve_ref_confined in Hr as [Hl [->|Hn]]; [| |apply css_dir_rooted].
  - split; [done|]. left. by exists m.
  - split; [done|by right].
Qed.

End Confinement.

(** *** The readiness loop and the set-up of a run *)

Section Readiness.

Context `{Unicode} `{Runtime}.

Lemma wait_ready_frame url n w o w1 :
  wait_ready url n w = (o, w1) →
  server w1 = server w ∧ assets w1 = assets w ∧ patience w1 = patience w
  ∧ tree w1 = tree w.
Proof.
  revert w. induction n as [|n IH]; intros w; cbn [wait_ready]; unfold _fetch_bytes;
    destruct (server w (requests w) url); try (by intros [= <- <-]).
  by intros (? & ? & ? & ?)%IH.
Qed.

Lemma wait_ready_false url n w w1 :
  wait_ready url n w = (Val false, w1) →
  trace w1 = trace w ++ failed_probes url n
  ∧ requests w1 = (requests w + S n)%nat
  ∧ (∀ i, (i ≤ n)%nat → server w (requests w + i)%nat url = None).
Proof.
  revert w. induction n as [|n IH]; intros w; cbn [wait_ready]; unfold _fetch_bytes;
    destruct (server w (requests w) url) eqn:E; try done.
  - intros [= <-]. cbn [trace requests log count_request]. split; [done|]. split; [lia|].
    intros i Hi. replace i with O by lia. by rewrite Nat.add_0_r.
  - intros (Htr & Hrq & Hs)%IH.
    cbn [trace requests server log count_request] in *.
    split; [|split; [lia|]].
    + rewrite Htr. unfold failed_probes. cbn [replicate concat].
      by rewrite <- !app_assoc.
    + intros [|i] Hi; [by rewrite Nat.add_0_r|].
      replace (requests w + S i)%nat with (S (requests w) + i)%nat by lia.
      apply Hs. lia.
Qed.

Lemma wait_ready_never url n w :
  (∀ i, (i ≤ n)%nat → server w (requests w + i)%nat url = None) →
  ∃ w1, wait_ready url n w = (Val false, w1).
Proof.
  revert w. induction n as [|n IH]; intros w Hs; cbn [wait_ready]; unfold _fetch_bytes;
    pose proof (Hs O ltac:(lia)) as E; rewrite Nat.add_0_r in E; rewrite E.
  - by eexists.
  - apply IH. intros i Hi. cbn [requests server log count_request].
    replace (S (requests w) + i)%nat with (requests w + S i)%nat by lia.
    apply Hs. lia.
Qed.

Lemma wait_ready_true url n w w1 :
  wait_ready url n w = (Val true, w1) →
  ∃ k, (k ≤ n)%nat
       ∧ requests w1 = (requests w + S k)%nat
       ∧ is_Some (server w (requests w + k)%nat url)
       ∧ (∀ i, (i < k)%nat → server w (requests w + i)%nat url = None).
Proof.
  revert w. induction n as [|n IH]; intros w; cbn [wait_ready]; unfold _fetch_bytes;
    destruct (server w (requests w) url) eqn:E; try done.
  - intros [= <-]. exists O. cbn [requests log count_request].
    rewrite Nat.add_0_r, E. split_and!; [lia|lia|by eexists|intros; lia].
  - intros [= <-]. exists O. cbn [requests log count_request].
    rewrite Nat.add_0_r, E. split_and!; [lia|lia|by eexists|intros; lia].
  - intros (k & Hk & Hrq & Hsome & Hnone)%IH.
    cbn [requests server log count_request] in *.
    exists (S k). split_and!; [lia|lia| |].
    + by replace (requests w + S k)%nat with (S (requests w) + k)%nat by lia.
    + intros [|i] Hi; [by rewrite Nat.add_0_r|].
      replace (requests w + S i)%nat with (S (requests w) + i)%nat by lia.
      apply Hnone. lia.
Qed.

Lemma wait_ready_events url n w o w1 :
  wait_ready url n w = (o, w1) →
  ∃ evs, trace w1 = trace w ++ evs ∧ Forall (λ e, is_fetch e ∨ e = Sleep) evs.
Proof.
  revert w. induction n as [|n IH]; intros w; cbn [wait_ready]; unfold _fetch_bytes;
    destruct (server w (requests w) _).
  - intros [= <- <-]. eexists [_]. split; [done|]. repeat constructor.
  - intros [= <- <-]. eexists [_]. split; [done|]. repeat constructor.
  - intros [= <- <-]. eexists [_]. split; [done|]. repeat constructor.
  - intros (evs & Htr & Hev)%IH. cbn [trace log count_request] in Htr.
    eexists (_ :: _ :: evs). rewrite Htr, <- !app_assoc. split; [done|].
    constructor; [by left|]. constructor; [by right|done].
Qed.

(** A status other than 0 that [main] returns is returned before the
    sample shell is requested. *)
Lemma main_return_setup a w c w' :
  main a w = (Return c, w') → c ≠ 0%Z → main_setup a w = (Return c, w').
Proof.
  unfold main. unfold mbind at 1, IO_bind at 1.
  destruct (main_setup a w) as [[slugs|c'|e] w1] eqn:E1; [| |done].
  - unfold mbind at 1, IO_bind at 1.
    destruct (_fetch_text _ w1) as [[sample|c'|e] w2] eqn:E2; [| |done].
    + intros E3 Hc. apply main_export_outcome in E3 as [[= ->]|[e [=]]]. done.
    + by apply never_returns_fetch_text in E2.
  - by intros [= -> ->].
Qed.

(** X14: [main] returns 3 exactly when discovery finds a slug and every
    probe fails while patience lasts; the probe is the dashboard URL
    without its trailing slashes followed by [/home] when home is
    declared and by [/] otherwise. Such a run leaves the output
    directory as it was, and its events are the failed probes, with a
    sleep after each but the last, and the message on stderr. *)
Theorem main_status_3 (a : args) (w : world) :
  ((∃ w', main a w = (Return 3, w')) ↔
   ∃ slugs, _discover_slugs (config_dir_arg a) = Ok slugs ∧ slugs ≠ []
            ∧ ∀ i, (i ≤ patience w)%nat →
                   server w (requests w + i)%nat (probe_url a slugs) = None)
  ∧ ∀ w', main a w = (Return 3, w') →
          tree w' = tree w
          ∧ ∃ slugs, _discover_slugs (config_dir_arg a) = Ok slugs
                     ∧ trace w' = trace w ++ failed_probes (probe_url a slugs) (patience w)
                                  ++ [Print true].
Proof.
  assert (Hfwd : ∀ w', main a w = (Return 3, w') →
     ∃ slugs w0, _discover_slugs (config_dir_arg a) = Ok slugs ∧ slugs ≠ []
       ∧ wait_ready (probe_url a slugs) (patience w) w = (Val false, w0)
       ∧ w' = log (Print true) w0).
  { intros w' Hm. apply main_return_setup in Hm; [|done]. revert Hm.
    unfold main_setup, mbind, IO_bind, lift.
    destruct (_discover_slugs (config_dir_arg a)) as [slugs|e]; [|done].
    case_bool_decide as Hne; [done|].
    destruct (wait_ready _ (patience w) w) as [o w0] eqn:Ew.
    pose proof (wait_ready_effects _ _ _ _ _ Ew) as (_ & [ready ->] & _).
    destruct ready; cbn [negb].
    - cbn [assets log set_tree]. destruct (assets w0); [|done].
      unfold try_, _fetch_bytes, _write_bytes. cbn [server requests log set_tree].
      match goal with
      | |- context [server w0 ?n ?u] => by destruct (server w0 n u)
      end.
    - unfold emit, return_. intros [= <-]. by exists slugs, w0. }
  split; [split|].
  - intros [w' (slugs & w0 & Hd & Hne & Hw & _)%Hfwd]. exists slugs.
    split; [done|]. split; [done|]. by apply wait_ready_false in Hw as (_ & _ & ?).
  - intros (slugs & Hd & Hne & Hs). apply wait_ready_never in Hs as [w0 Hw].
    exists (log (Print true) w0).
    unfold main. unfold mbind at 1, IO_bind at 1.
    unfold main_setup, mbind, IO_bind, lift. rewrite Hd.
    rewrite bool_decide_eq_false_2 by done.
    match goal with
    | |- context [wait_ready ?u ?n ?w] =>
        replace (wait_ready u n w) with (@Val bool false, w0) by (symmetry; exact Hw)
    end.
    done.
  - intros w' (slugs & w0 & Hd & Hne & Hw & ->)%Hfwd.
    pose proof (wait_ready_frame _ _ _ _ _ Hw) as (_ & _ & _ & Ht).
    apply wait_ready_false in Hw as (Htr & _ & _).
    split; [done|]. exists slugs. split; [done|].
    cbn [trace log]. by rewrite Htr, <- app_assoc.
Qed.

(** X15: a run that returns 4 found no assets directory. The output
    directory is empty after it, and its events are fetches and sleeps,
    then the reset of the output directory and the message on stderr:
    nothing is requested or written once the directory has been reset. *)
Theorem main_status_4 (a : args) (w w' : world) :
  main a w = (Return 4, w') →
  assets w = None
  ∧ tree w' = ∅
  ∧ ∃ evs, trace w' = trace w ++ evs ++ [ResetOutDir; Print true]
           ∧ Forall (λ e, is_fetch e ∨ e = Sleep) evs.
Proof.
  intros Hm. apply main_return_setup in Hm; [|done]. revert Hm.
  unfold main_setup, mbind, IO_bind, lift.
  destruct (_discover_slugs (config_dir_arg a)) as [slugs|e]; [|done].
  case_bool_decide as Hne; [done|].
  destruct (wait_ready _ (patience w) w) as [o w0] eqn:Ew.
  pose proof (wait_ready_effects _ _ _ _ _ Ew) as (_ & [ready ->] & _).
  destruct ready; cbn [negb]; [|done].
  cbn [assets log set_tree]. destruct (assets w0) eqn:Ea.
  { unfold try_, _fetch_bytes, _write_bytes. cbn [server requests log set_tree].
    match goal with
    | |- context [server w0 ?n ?u] => by destruct (server w0 n u)
    end. }
  unfold emit, return_. intros [= <-].
  pose proof (wait_ready_frame _ _ _ _ _ Ew) as (_ & Has & _ & _).
  split; [by rewrite <- Has|]. split; [done|].
  cbn [trace log set_tree].
  pose proof (wait_ready_events _ _ _ _ _ Ew) as Hev.
  destruct Hev as (evs & -> & Hev). exists evs. by rewrite <- !app_assoc.
Qed.

Lemma main_setup_state (a : args) (w w1 : world) (slugs : list str) :
  main_setup a w = (Val slugs, w1) →
  ∃ files k,
    assets w = Some files
    ∧ (∀ q, tree w1 !! (lit "assets" :: q) = files !! q)
    ∧ (∀ p, is_Some (tree w1 !! p) →
            p = [lit "manifest.json"] ∨ ∃ q, p = lit "assets" :: q)
    ∧ (k ≤ patience w)%nat
    ∧ (∀ i, (i < k)%nat → server w (requests w + i)%nat (probe_url a slugs) = None)
    ∧ is_Some (server w (requests w + k)%nat (probe_url a slugs))
    ∧ tree w1 !! [lit "manifest.json"]
      = server w (requests w + S k)%nat (manifest_url a).
Proof.
  intros Hm. pose proof (main_setup_effects _ _ _ _ Hm) as (_ & _ & Honly & _).
  revert Hm. unfold main_setup, mbind, IO_bind, lift.
  destruct (_discover_slugs (config_dir_arg a)) as [slugs'|e]; [|done].
  case_bool_decide as Hne; [done|].
  destruct (wait_ready _ (patience w) w) as [o w0] eqn:Ew.
  pose proof (wait_ready_effects _ _ _ _ _ Ew) as (_ & [ready ->] & _).
  destruct ready; cbn [negb]; [|done].
  pose proof (wait_ready_frame _ _ _ _ _ Ew) as (Hsrv & Has & _ & _).
  apply wait_ready_true in Ew as (k & Hk & Hrq & Hsome & Hnone).
  cbn [assets log set_tree]. destruct (assets w0) as [files|] eqn:Ea; [|done].
  unfold try_, _fetch_bytes, _write_bytes. cbn [server requests log set_tree tree].
  fold (manifest_url a). rewrite Hsrv, Hrq.
  assert (Hassets : ∀ q, (kmap (cons (lit "assets")) files ∪ (∅ : gmap path bytes))
                         !! (lit "assets" :: q) = files !! q).
  { intros q. rewrite (right_id ∅ _). apply (lookup_kmap (cons (lit "assets"))). }
  destruct (server w (requests w + S k)%nat (manifest_url a)) as [manifest|] eqn:Em;
    intros [= <- <-]; exists files, k; cbn [tree log set_tree count_request];
    (split; [by rewrite <- Has|]); (split_and!; try done).
  - intros q. rewrite lookup_insert_ne by done. apply Hassets.
  - by rewrite lookup_insert_eq.
  - rewrite Em, (right_id ∅ _). apply lookup_kmap_None; [apply _|]. by intros q [=].
Qed.

(** X16: when the setup of [main] goes through, the output directory
    holds under [assets/], entry for entry, the directory [assets/] as
    the run found it after it had reset the output directory, and nothing
    else but possibly [manifest.json]. The probe that succeeded is the
    first that did, within patience, and the manifest is what the
    dashboard answers to the next request: when that request fails there
    is no manifest and the run goes on. *)
Theorem main_setup_tree (a : args) (w w1 : world) (slugs : list str) :
  main_setup a w = (Val slugs, w1) →
  ∃ files k,
    assets w = Some files
    ∧ (∀ q, tree w1 !! (lit "assets" :: q) = files !! q)
    ∧ (∀ p, is_Some (tree w1 !! p) →
            p = [lit "manifest.json"] ∨ ∃ q, p = lit "assets" :: q)
    ∧ (k ≤ patience w)%nat
    ∧ (∀ i, (i < k)%nat → server w (requests w + i)%nat (probe_url a slugs) = None)
    ∧ is_Some (server w (requests w + k)%nat (probe_url a slugs))
    ∧ tree w1 !! [lit "manifest.json"]
      = server w (requests w + S k)%nat (manifest_url a).
Proof. apply main_setup_state. Qed.

End Readiness.

(** *** The replacement templates of the rewriting *)

Section Templates.

Context `{Unicode}.

Lemma parse_template_app g p s :
  BACKSLASH ∉ p →
  parse_template g (p ++ s) = app (TLit <$> p) <$> parse_template g s.
Proof.
  induction p as [|c p IH]; intros Hp.
  - cbn [app fmap list_fmap]. by destruct (parse_template g s).
  - apply not_elem_of_cons in Hp as [Hc Hp]. cbn [app parse_template].
    destruct (N.eqb_spec c BACKSLASH) as [->|_]; [done|]. cbn [negb].
    rewrite IH by done. by destruct (parse_template g s).
Qed.

Lemma parse_template_plain g s :
  BACKSLASH ∉ s → parse_template g s = Ok (TLit <$> s).
Proof.
  intros Hs. rewrite <- (app_nil_r s) at 1. rewrite parse_template_app by done.
  cbn. by rewrite app_nil_r.
Qed.

(** A reference to group 1 before a character that is no digit. *)
Lemma parse_template_group1 g c rest :
  is_ascii_digit c = false →
  parse_template (S g) (BACKSLASH :: 49 :: c :: rest)
  = cons (TGroup 1) <$> parse_template (S g) (c :: rest).
Proof.
  intros Hc. cbn [parse_template].
  change (BACKSLASH =? BACKSLASH) with true.
  change (49 =? 103) with false. change (49 =? 48) with false.
  change (is_ascii_digit 49) with true. cbn [negb]. rewrite Hc.
  unfold addgroup. change (digit 49) with 1.
  replace (N.of_nat (S g) <? 1) with false; [done|].
  symmetry. apply N.ltb_ge. lia.
Qed.

Lemma sub_parsed fl r repl tpl text count :
  parse_template (ngroups r) repl = Ok tpl →
  ∃ out, sub fl r repl text count = Ok out.
Proof. intros Ht. unfold sub, subn. rewrite Ht. by eexists. Qed.

Lemma rewrite_attr_total attr base_path text :
  BACKSLASH ∉ lit attr → BACKSLASH ∉ base_path →
  ∃ out, rewrite_attr attr base_path text = Ok out.
Proof.
  intros Ha Hb. unfold rewrite_attr.
  assert (Ht : ∀ q, q ≠ BACKSLASH → BACKSLASH ∉ lit attr ++ [61; q] ++ base_path ++ [SLASH]).
  { intros q Hq. rewrite !not_elem_of_app, !not_elem_of_cons.
    split_and!; try done; try apply not_elem_of_nil; congruence. }
  destruct (sub_parsed NOFLAGS (attr_re attr DQ) _ _ text 0
              (parse_template_plain _ _ (Ht DQ ltac:(done)))) as [out ->].
  cbn [mbind result_bind].
  apply (sub_parsed _ _ _ _ _ _ (parse_template_plain _ _ (Ht SQ ltac:(done)))).
Qed.

(** With a base path that starts with a slash and has no backslash every
    replacement template of the rewriting is well formed. *)
Lemma rewrite_base_paths_total text base_path :
  leading_slash base_path → BACKSLASH ∉ base_path →
  ∃ out, _rewrite_base_paths text base_path = Ok out.
Proof.
  intros [b ->]%startswith_slash_inv Hb. unfold _rewrite_base_paths, str_eqb.
  rewrite (bool_decide_eq_false_2 (SLASH :: b = [])) by done.
  assert (Hl : ∀ s : string, Forall (λ c, c ≠ BACKSLASH) (lit s) → BACKSLASH ∉ lit s).
  { intros s Hs Hin. eapply Forall_forall in Hs; [|exact Hin]. done. }
  destruct (rewrite_attr_total "href" (SLASH :: b) text) as [t1 ->]; [|done|].
  { apply Hl. repeat constructor; done. }
  cbn [mbind result_bind].
  destruct (rewrite_attr_total "src" (SLASH :: b) t1) as [t2 ->]; [|done|].
  { apply Hl. repeat constructor; done. }
  cbn [mbind result_bind].
  destruct (rewrite_attr_total "action" (SLASH :: b) t2) as [t3 ->]; [|done|].
  { apply Hl. repeat constructor; done. }
  cbn [mbind result_bind].
  assert (Ht : ∀ q, q ≠ BACKSLASH → BACKSLASH ∉ lit "url(" ++ [q] ++ (SLASH :: b) ++ [SLASH]).
  { intros q Hq. apply not_elem_of_cons in Hb as [Hb1 Hb2].
    rewrite !not_elem_of_app, !not_elem_of_cons.
    split_and!; try done; try apply not_elem_of_nil; try congruence.
    apply Hl. repeat constructor; done. }
  destruct (sub_parsed NOFLAGS (css_url_re SQ) _ _ t3 0
              (parse_template_plain _ _ (Ht SQ ltac:(done)))) as [t4 ->].
  cbn [mbind result_bind].
  destruct (sub_parsed NOFLAGS (css_url_re DQ) _ _ t4 0
              (parse_template_plain _ _ (Ht DQ ltac:(done)))) as [t5 ->].
  cbn [mbind result_bind].
  eapply sub_parsed.
  rewrite parse_template_app by (apply Hl; repeat constructor; done).
  change (ngroups manifest_re) with 1%nat. cbn [app].
  rewrite parse_template_group1 by done.
  change (SLASH :: b ++ lit "/manifest.json") with ((SLASH :: b) ++ lit "/manifest.json").
  rewrite parse_template_plain; [done|].
  rewrite not_elem_of_app. split; [done|]. apply Hl. repeat constructor; done.
Qed.

End Templates.

(** *** The scope of the final pass *)

Section FinalPassScope.

Context `{Unicode} `{Runtime}.

Lemma drop_while_Forall (P : char → Prop) p s : Forall P s → Forall P (drop_while p s).
Proof.
  induction 1 as [|c s Hc Hs IH]; simpl; [done|]. destruct (p c); [done|by constructor].
Qed.

Lemma strip_Forall (P : char → Prop) s : Forall P s → Forall P (strip s).
Proof. intros Hs. by apply rstrip_by_Forall, drop_while_Forall. Qed.

Lemma rewrite_tree_total base_path t :
  (∀ text, ∃ out, _rewrite_base_paths text base_path = Ok out) →
  ∃ t', rewrite_tree base_path t = Ok t'.
Proof.
  intros Hrw. unfold rewrite_tree.
  apply (map_fold_weak_ind (λ r (m : gmap path bytes), ∃ t', r = Ok t')); [by eexists|].
  intros p data m r _ [t' ->]. unfold rewrite_step, rewrite_file.
  cbn [mbind result_bind]. destruct (negb _); [by eexists|].
  destruct (Hrw (decode data)) as [out ->]. cbn [mbind result_bind]. by eexists.
Qed.

Lemma rewrite_file_empty p data : rewrite_file [] p data = Ok None.
Proof.
  unfold rewrite_file. destruct (negb _); [done|].
  unfold _rewrite_base_paths. cbn [mbind result_bind].
  change (str_eqb [] []) with true. cbn [mbind result_bind].
  unfold str_eqb. by rewrite bool_decide_eq_true_2.
Qed.

Lemma rewrite_tree_empty t : rewrite_tree [] t = Ok t.
Proof.
  unfold rewrite_tree.
  apply (map_fold_weak_ind (λ r (m : gmap path bytes), r = Ok t)); [done|].
  intros p data m r _ ->. unfold rewrite_step. cbn [mbind result_bind].
  by rewrite rewrite_file_empty.
Qed.

Lemma set_tree_same w : set_tree (tree w) w = w.
Proof. by destruct w. Qed.

(** X10: the final pass with the normalized base path of the command
    line ends normally whenever the base path given has no backslash, and
    when that base path normalizes to the empty string the pass changes
    no file and logs nothing. *)
Theorem final_pass_never_fails (s : str) (w : world) :
  (BACKSLASH ∉ s → ∃ w', rewrite_pass (_normalize_base_path s) w = (Val (), w'))
  ∧ (only_slashes (strip s) → rewrite_pass (_normalize_base_path s) w = (Val (), w)).
Proof.
  split.
  - intros Hs. unfold rewrite_pass.
    destruct (rewrite_tree_total (_normalize_base_path s) (tree w)) as [t' ->];
      [|by eexists].
    intros text. destruct (normalize_nonempty_shape s) as [->|[Hl _]]; [by eexists|].
    apply rewrite_base_paths_total; [done|].
    assert (Hf : Forall (λ c, c ≠ BACKSLASH) (_normalize_base_path s)).
    { apply normalize_Forall; [done|]. apply strip_Forall.
      apply Forall_forall. intros c Hc ->. done. }
    intros Hin. eapply Forall_forall in Hf; [|exact Hin]. done.
  - intros Hs. apply normalize_empty_iff in Hs. rewrite Hs.
    unfold rewrite_pass. by rewrite rewrite_tree_empty, set_tree_same.
Qed.


End FinalPassScope.

(** *** The files of a run and the failures of the download *)

Section RunFiles.

Context `{Unicode} `{Runtime}.

Lemma download_deps_mono glance_url refs w w' :
  for_each (download_dep glance_url) refs w = (Val (), w') →
  ∀ q : path, is_Some (tree w !! q) → is_Some (tree w' !! q).
Proof.
  revert w. induction refs as [|ref refs IH]; intros w.
  { by intros [= <-]. }
  cbn [for_each]. unfold mbind at 1, IO_bind at 1.
  destruct (download_dep glance_url ref w) as [[[]|c|e] w1] eqn:E1; try done.
  intros E q Hq. apply (IH _ E). clear IH E.
  unfold download_dep, mbind, IO_bind, try_, _fetch_bytes, _write_bytes, raise in E1.
  destruct (server w (requests w) _) as [data|]; [|done].
  injection E1 as <-. cbn [tree log set_tree count_request].
  rewrite lookup_insert. by case_decide.
Qed.

Lemma download_mono glance_url bundle_css_path w w' :
  _download_static_css_and_deps glance_url bundle_css_path w = (Val (), w') →
  ∀ q : path, is_Some (tree w !! q) → is_Some (tree w' !! q).
Proof.
  unfold _download_static_css_and_deps, mbind, IO_bind, _fetch_bytes, _write_bytes.
  destruct (server w (requests w) _) as [css|]; [|done].
  match goal with
  | |- context [for_each ?f ?l ?w1] =>
      destruct (for_each f l w1) as [[[]|c|e] w2] eqn:E; try done
  end.
  intros [= <-] q Hq. apply (download_deps_mono _ _ _ _ E).
  cbn [tree log set_tree count_request]. rewrite lookup_insert. by case_decide.
Qed.

(** X17: a run that returns 0 has written an empty [.nojekyll], its
    last event is the summary on stdout, and every file of the directory
    [assets/], as the run found it after it had reset the output
    directory, has a file at the same place under [assets/] in the output
    directory. *)
Theorem successful_run_files (a : args) (w w' : world) :
  main a w = (Return 0, w') →
  tree w' !! [lit ".nojekyll"] = Some (encode [])
  ∧ last (trace w') = Some (Print false)
  ∧ ∃ files, assets w = Some files
             ∧ ∀ q, is_Some (files !! q) → is_Some (tree w' !! (lit "assets" :: q)).
Proof.
  unfold main. unfold mbind at 1, IO_bind at 1.
  destruct (main_setup a w) as [[slugs|c|e] w1] eqn:E1; try done.
  2:{ intros [= -> _]. by apply main_setup_return in E1 as [?|[?|?]]. }
  unfold mbind at 1, IO_bind at 1.
  destruct (_fetch_text _ w1) as [[sample|c|e] w2] eqn:E2; try done.
  2:{ by apply never_returns_fetch_text in E2. }
  pose proof (main_setup_effects _ _ _ _ E1) as (Hd & _ & _ & _).
  pose proof (discover_slugs_shaped _ _ Hd) as Hsl.
  apply main_setup_state in E1 as (files & k & Has & Hfiles & _).
  apply fetch_text_effects in E2 as (Ht2 & _).
  unfold main_export, mbind, IO_bind, lift.
  destruct (_extract_bundle_css_path sample) as [css_path|]; [|done].
  destruct (_download_static_css_and_deps _ css_path w2) as [[[]|c|e] w3] eqn:E3; try done.
  2:{ by apply never_returns_download in E3. }
  destruct (for_each _ slugs w3) as [[[]|c|e] w4] eqn:E4; try done.
  2:{ apply never_returns_for_each in E4; [done|]. apply never_returns_build_page. }
  unfold rewrite_pass.
  destruct (rewrite_tree _ (tree w4)) as [t5|e] eqn:E5; [|done].
  unfold _write_text, emit, return_. intros [= <-].
  cbn [trace tree log set_tree].
  change (resolve [lit ".nojekyll"]) with [lit ".nojekyll"].
  split; [by rewrite lookup_insert_eq|]. split; [by rewrite last_snoc|].
  exists files. split; [done|]. intros q Hq.
  rewrite lookup_insert_ne by done.
  rewrite (rewrite_tree_lookup _ _ _ E5). apply fmap_is_Some.
  apply (build_pages_ok _ _ _ _ Hsl) in E4 as (_ & _ & _ & _ & _ & Hmono & _).
  apply Hmono, (download_mono _ _ _ _ E3). by rewrite Ht2, Hfiles.
Qed.

Lemma startswith_self p s : startswith p (p ++ s) = true.
Proof. induction p as [|c p IH]; [done|]. cbn. by rewrite N.eqb_refl. Qed.



End RunFiles.

(** *** The paths the shell refers to *)

Section StaticPaths.

Context `{Unicode}.

Lemma starts_ci_take w s :
  starts_ci w s = true → same_ci w (take (length w) s).
Proof.
  revert s. induction w as [|p w IH]; intros s; [by destruct s|].
  destruct s as [|c s]; [done|]. cbn [starts_ci length take].
  intros [Hc Hs]%andb_prop. destruct (IH _ Hs) as [Hl Ht].
  split; [simpl; by rewrite Hl|]. cbn [starts_ci]. by rewrite Hc, Ht.
Qed.

Lemma not_quote c : test IGNORECASE NOT_QUOTE c = true → c ≠ SQ ∧ c ≠ DQ.
Proof.
  unfold test, NOT_QUOTE. cbn [existsb fst snd]. rewrite !in_range_one, orb_false_r.
  destruct (N.eqb_spec c SQ), (N.eqb_spec c DQ); simpl; try done.
Qed.

(** A match found by the search is an attempt that succeeded at some
    position of the text. *)
Lemma search_from_inv fl r before rest m :
  search_from fl r before rest = Some m →
  ∃ skipped rest' res,
    rest = skipped ++ rest'
    ∧ exec fl r (rev skipped ++ before) [] rest' no_caps = Some res
    ∧ m = mk_match (rev skipped ++ before) res.
Proof.
  revert before. induction rest as [|c t IH]; intros before; cbn [search_from].
  - destruct (exec fl r before [] [] no_caps) as [res|] eqn:E; [|done].
    intros [= <-]. by exists [], [], res.
  - destruct (exec fl r before [] (c :: t) no_caps) as [res|] eqn:E.
    + intros [= <-]. by exists [], (c :: t), res.
    + intros (sk & rest' & res & -> & He & ->)%IH.
      exists (c :: sk), rest', res. simpl. by rewrite <- !app_assoc.
Qed.

(** A stretch without groups leaves the marks as they are. *)
Lemma exec_caps_frame fl r before got rest cs m :
  no_groups r = true →
  exec fl r before got rest cs = Some m → m_caps m = cs.
Proof.
  revert got rest.
  induction r as [|n r IH]; intros got rest; cbn [exec no_groups forallb].
  - by intros _ [= <-].
  - intros [Hn Hr]%andb_prop.
    pose proof (λ g t, IH g t Hr) as IH'. clear IH. rename IH' into IH.
    assert (Hgr : ∀ p got' rest',
              greedy p (λ x y, exec fl r before x y cs) got' rest' = Some m →
              m_caps m = cs).
    { intros p got' rest' (a & b & _ & _ & E)%greedy_inv. by eapply IH. }
    destruct n; try done.
    + destruct rest as [|c t]; [done|]. destruct (test fl a c); [|done]. apply IH.
    + apply Hgr.
    + destruct rest as [|c t]; [done|]. destruct (test fl a c); [|done]. apply Hgr.
    + destruct rest as [|c t]; [apply IH|].
      destruct (test fl a c); [|apply IH].
      destruct (exec fl r before (c :: got) t cs) eqn:E; [|apply IH].
      intros [= ->]. by eapply IH.
    + destruct (assoc g (spans cs)) as [[s e]|]; [|done].
      destruct (startswith _ rest); [apply IH|done].
    + destruct rest as [|d t]; [apply IH|]. destruct (d =? c); [done|apply IH].
    + destruct before, got; try done. apply IH.
    + destruct (at_end rest); [apply IH|done].
    + destruct (xorb _ _); [apply IH|done].
Qed.

(** What an attempt of an extraction pattern has matched. *)
Lemma static_ref_inv tag attr name close before rest m :
  no_groups close = true →
  exec IGNORECASE (static_ref_re tag attr name close) before [] rest no_caps = Some m →
  starts_ci (lit tag) rest = true
  ∧ ∃ lead p trail,
      rev (m_got m) = lead ++ p ++ trail
      ∧ group (mk_match before m) 1 = Some p
      ∧ static_path name p.
Proof.
  unfold static_ref_re. rewrite !lits_lits_of. intros Hclose E.
  apply exec_lits_ci in E as [Htag E]. split; [done|].
  revert E. generalize (rev (take (length (lit tag)) rest) ++ [])
    (drop (length (lit tag)) rest). intros g0 r0 E.
  cbn [app exec] in E. destruct r0 as [|c0 r0]; [done|].
  destruct (test IGNORECASE NOT_GT c0); [|done].
  apply greedy_inv in E as (a0 & b0 & _ & _ & E).
  apply exec_lits_ci in E as [_ E].
  revert E. generalize (rev (take (length (lit attr)) b0) ++ rev a0 ++ c0 :: g0)
    (drop (length (lit attr)) b0). intros g1 r1 E.
  cbn [app exec] in E. destruct r1 as [|q1 r1]; [done|].
  destruct (test IGNORECASE QUOTE q1); [|done].
  apply exec_lits_ci in E as [Hhead E]. apply starts_ci_take in Hhead.
  set (G := q1 :: g1) in *.
  set (head := take (length (lit "/static/")) r1) in *.
  revert E. generalize (drop (length (lit "/static/")) r1). intros r2 E.
  cbn [app exec] in E. destruct r2 as [|c2 r2]; [done|].
  destruct (test IGNORECASE NOT_QUOTE c2) eqn:Hc2; [|done].
  apply greedy_inv in E as (a2 & b2 & _ & Ha2 & E).
  apply exec_lits_ci in E as [Htl E]. apply starts_ci_take in Htl.
  set (tl := take (length (lit name)) b2) in *.
  revert E. generalize (drop (length (lit name)) b2). intros r3 E.
  cbn [app exec starts spans assoc Nat.eqb] in E.
  destruct r3 as [|q3 r3]; [done|]. destruct (test IGNORECASE QUOTE q3); [|done].
  apply greedy_inv in E as (a3 & b3 & _ & _ & E).
  pose proof (exec_caps_frame _ _ _ _ _ _ _ Hclose E) as Hcaps.
  apply exec_inv in E as (z & _ & Hgot).
  set (p := head ++ (c2 :: a2) ++ tl).
  assert (Hrev : rev (m_got m) = rev G ++ p ++ (q3 :: a3 ++ z)).
  { rewrite Hgot. unfold p.
    repeat first [rewrite rev_app_distr | rewrite rev_involutive | progress cbn [rev]
                 | rewrite <- app_assoc | progress cbn [app]].
    done. }
  exists (rev G), p, (q3 :: a3 ++ z). split; [done|]. split.
  - unfold group, mk_match. cbn [mt_caps mt_matched].
    rewrite Hcaps, Hrev. cbn [spans assoc Nat.eqb]. f_equal.
    replace (length G) with (length (rev G)) by apply length_rev.
    replace (length (rev tl ++ rev a2 ++ c2 :: rev head ++ G))
      with (length (rev G) + length p)%nat.
    + apply substr_mid.
    + unfold p. repeat first [rewrite length_app | rewrite length_rev | progress cbn [length]].
      lia.
  - exists head, (c2 :: a2), tl. split_and!; try done.
    constructor; [by apply not_quote|].
    eapply Forall_impl; [exact Ha2|]. intros c. apply not_quote.
Qed.

Lemma static_path_leading name p : static_path name p → leading_slash p.
Proof.
  intros (head & mid & tl & -> & [Hl Hs] & _).
  destruct head as [|c0 head]; [done|].
  change (lit "/static/") with (SLASH :: lit "static/") in Hs.
  cbn [starts_ci] in Hs. apply andb_prop in Hs as [Hc _].
  unfold lit_matches in Hc. change (is_ascii_letter SLASH) with false in Hc.
  rewrite andb_false_r in Hc. apply N.eqb_eq in Hc as ->.
  unfold leading_slash. cbn [app startswith]. by rewrite N.eqb_refl.
Qed.

(** What a search with an extraction pattern finds. *)
Lemma static_ref_search tag attr name close text m :
  no_groups close = true →
  search IGNORECASE (static_ref_re tag attr name close) text = Some m →
  occurs_ci (lit tag) text = true
  ∧ ∃ p, group m 1 = Some p ∧ static_path name p ∧ ∃ a b, text = a ++ p ++ b.
Proof.
  intros Hclose Hs. pose proof (search_split _ _ _ _ Hs) as Htext.
  apply search_from_inv in Hs as (sk & rest' & res & -> & He & ->).
  apply (static_ref_inv _ _ _ _ _ _ _ Hclose) in He
    as (Htag & lead & p & trail & Hrev & Hg & Hp).
  split; [by apply occurs_ci_app|].
  exists p. split; [done|]. split; [done|].
  cbn [mk_match mt_before mt_matched mt_after] in Htext. rewrite Hrev in Htext.
  exists (rev (rev sk ++ []) ++ lead), (trail ++ m_rest res).
  rewrite Htext. by rewrite <- !app_assoc.
Qed.

(** X5: the path that [_extract_bundle_css_path] returns is a stretch of
    the shell that starts with [/static/] and ends with [/css/bundle.css],
    both in any letter case, with at least one character and no quote in
    between; so it starts with a slash. A shell without a link tag raises
    the RuntimeError of the missing bundle. *)
Theorem extract_bundle_css_path_shape (shell_html : str) :
  (∀ p, _extract_bundle_css_path shell_html = Ok p →
        static_path "/css/bundle.css" p ∧ leading_slash p
        ∧ ∃ a b, shell_html = a ++ p ++ b)
  ∧ (occurs_ci (lit "<link") shell_html = false →
     _extract_bundle_css_path shell_html
     = Raise (RuntimeError (lit "Could not find bundle.css path in page HTML"))).
Proof.
  unfold _extract_bundle_css_path.
  change bundle_css_re with (static_ref_re "<link" "href=" "/css/bundle.css" [One (Lit 62)]).
  destruct (search IGNORECASE _ shell_html) as [m|] eqn:E; [|by split].
  apply static_ref_search in E as (Htag & p & Hg & Hp & Hsub); [|done].
  split.
  - rewrite Hg. cbn [default]. intros p' [= <-]. split; [done|].
    split; [by eapply static_path_leading|done].
  - intros Hno. by rewrite Hno in Htag.
Qed.

(** X6: the path that [_extract_page_js_path] returns is a stretch of
    the shell that starts with [/static/] and ends with [/js/page.js],
    both in any letter case, with at least one character and no quote in
    between; so it starts with a slash. A shell without a script tag gives
    [None] and no error. *)
Theorem extract_page_js_path_shape (shell_html : str) :
  (∀ p, _extract_page_js_path shell_html = Some p →
        static_path "/js/page.js" p ∧ leading_slash p
        ∧ ∃ a b, shell_html = a ++ p ++ b)
  ∧ (occurs_ci (lit "<script") shell_html = false →
     _extract_page_js_path shell_html = None).
Proof.
  unfold _extract_page_js_path.
  change page_js_re with (static_ref_re "<script" "src=" "/js/page.js" (lits "></script>")).
  destruct (search IGNORECASE _ shell_html) as [m|] eqn:E; [|by split].
  apply static_ref_search in E as (Htag & p & Hg & Hp & Hsub); [|done].
  cbn [mbind option_bind]. split.
  - intros p'. rewrite Hg. intros [= <-]. split; [done|].
    split; [by eapply static_path_leading|done].
  - intros Hno. by rewrite Hno in Htag.
Qed.

End StaticPaths.

(** *** Texts the rewriting leaves alone *)

Section Untouched.

Context `{Unicode}.

(** With no match anywhere the scan copies the text. *)
Lemma sub_go_none fl r tpl limit before rest :
  (∀ before' a b, rest = a ++ b → exec fl r before' [] b no_caps = None) →
  sub_go fl r tpl limit before rest O = (rest, O).
Proof.
  revert before. induction rest as [|c t IH]; intros before Hn; cbn [sub_go].
  - rewrite (Hn before [] []) by done. by destruct limit as [[|?]|].
  - rewrite (Hn before [] (c :: t)) by done.
    rewrite IH; [by destruct limit as [[|?]|]|].
    intros before' a b ->. by apply (Hn before' (c :: a) b).
Qed.

Lemma sub_untouched fl r repl tpl text count :
  parse_template (ngroups r) repl = Ok tpl →
  (∀ before a b, text = a ++ b → exec fl r before [] b no_caps = None) →
  sub fl r repl text count = Ok text.
Proof.
  intros Ht Hn. unfold sub, subn. rewrite Ht. cbn [mbind result_bind].
  by rewrite sub_go_none.
Qed.

Lemma occurs_inside w x a b :
  startswith (x ++ w) b = true → occurs w (a ++ b) = true.
Proof.
  intros Hs%startswith_app. rewrite Hs, <- app_assoc, app_assoc.
  apply occurs_app. rewrite <- (app_nil_r w) at 1.
  revert Hs. generalize (drop (length (x ++ w)) b). intros k _.
  clear. induction w as [|c w IH]; [done|]. cbn. by rewrite N.eqb_refl.
Qed.

(** An attempt of an attribute pattern needs the quote and the slash. *)
Lemma attr_re_needs attr q before b m :
  exec NOFLAGS (attr_re attr q) before [] b no_caps = Some m →
  startswith ((lit attr ++ [61]) ++ [q; SLASH]) b = true.
Proof.
  unfold attr_re. rewrite lits_lits_of. intros [Hs E]%exec_lits.
  apply startswith_app in Hs. rewrite Hs.
  revert E. generalize (drop (length (lit attr)) b). intros r E.
  cbn [exec test] in E. unfold lit_matches in E. cbn [ignorecase NOFLAGS andb] in E.
  destruct r as [|c1 r]; [done|]. cbv iota beta in E.
  destruct (N.eqb_spec c1 61) as [->|]; [|done].
  destruct r as [|c2 r]; [done|]. cbv iota beta in E.
  destruct (N.eqb_spec c2 q) as [->|]; [|done].
  destruct r as [|c3 r]; [done|]. cbv iota beta in E.
  destruct (N.eqb_spec c3 SLASH) as [->|]; [|done].
  change (61 :: q :: SLASH :: r) with ([61] ++ [q; SLASH] ++ r). rewrite !app_assoc.
  apply startswith_self.
Qed.

Lemma css_url_re_needs q before b m :
  exec NOFLAGS (css_url_re q) before [] b no_caps = Some m →
  startswith (lit "url(" ++ [q; SLASH]) b = true.
Proof.
  unfold css_url_re. rewrite lits_lits_of. intros [Hs E]%exec_lits.
  apply startswith_app in Hs. rewrite Hs.
  revert E. generalize (drop (length (lit "url(")) b). intros r E.
  cbn [exec test] in E. unfold lit_matches in E. cbn [ignorecase NOFLAGS andb] in E.
  destruct r as [|c2 r]; [done|]. cbv iota beta in E.
  destruct (N.eqb_spec c2 q) as [->|]; [|done].
  destruct r as [|c3 r]; [done|]. cbv iota beta in E.
  destruct (N.eqb_spec c3 SLASH) as [->|]; [|done].
  change (q :: SLASH :: r) with ([q; SLASH] ++ r). rewrite app_assoc.
  apply startswith_self.
Qed.

Lemma manifest_re_needs before b m :
  exec IGNORECASE manifest_re before [] b no_caps = Some m →
  ∃ x y, b = x ++ y ∧ starts_ci (lit "manifest.json") y = true.
Proof.
  unfold manifest_re. rewrite !lits_lits_of. intros [_ E]%exec_lits_ci.
  revert E. generalize (rev (take (length (lit "href=")) b) ++ []). intros g E.
  cbn [app exec] in E.
  destruct (drop (length (lit "href=")) b) as [|c r] eqn:Hd; [done|].
  destruct (test IGNORECASE QUOTE c); [|done].
  cbn [exec starts assoc Nat.eqb] in E.
  rewrite <- (app_nil_r (lits_of _)) in E. apply exec_lits_ci in E as [Hs _].
  exists (take (length (lit "href=")) b ++ [c]), r. split; [|done].
  rewrite <- app_assoc. cbn [app]. rewrite <- Hd. by rewrite take_drop.
Qed.

(** X9: with a base path that starts with a slash and has no backslash,
    a text in which no quote is followed by a slash and [manifest.json]
    does not occur, in any letter case, comes back as it is. Unquoted
    [url(/...)] references are of that kind. *)
Theorem rewrite_base_paths_untouched (text base_path : str) :
  leading_slash base_path → BACKSLASH ∉ base_path →
  occurs [DQ; SLASH] text = false →
  occurs [SQ; SLASH] text = false →
  occurs_ci (lit "manifest.json") text = false →
  _rewrite_base_paths text base_path = Ok text.
Proof.
  intros Hl Hb Hdq Hsq Hman.
  pose proof Hl as [b Eb]%startswith_slash_inv.
  unfold _rewrite_base_paths, str_eqb.
  rewrite (bool_decide_eq_false_2 (base_path = [])) by (by rewrite Eb).
  assert (Hlit : ∀ s : string, Forall (λ c, c ≠ BACKSLASH) (lit s) → BACKSLASH ∉ lit s).
  { intros s Hs Hin. eapply Forall_forall in Hs; [|exact Hin]. done. }
  assert (Hq : ∀ q, q = DQ ∨ q = SQ → occurs [q; SLASH] text = false).
  { by intros q [->| ->]. }
  assert (Hattr : ∀ attr, Forall (λ c, c ≠ BACKSLASH) (lit attr) →
            rewrite_attr attr base_path text = Ok text).
  { intros attr Ha. unfold rewrite_attr.
    assert (Hs : ∀ q, q = DQ ∨ q = SQ →
              sub NOFLAGS (attr_re attr q) (lit attr ++ [61; q] ++ base_path ++ [SLASH]) text 0
              = Ok text).
    { intros q Hqq. eapply sub_untouched.
      - apply parse_template_plain.
        rewrite !not_elem_of_app, !not_elem_of_cons.
        split_and!; try done; try apply not_elem_of_nil; try (by apply Hlit).
        destruct Hqq as [-> | ->]; done.
      - intros before a b' ->.
        destruct (exec NOFLAGS (attr_re attr q) before [] b' no_caps) eqn:E; [|done].
        apply attr_re_needs in E. pose proof (Hq q Hqq) as Hq'.
        by rewrite (occurs_inside _ _ a _ E) in Hq'. }
    rewrite (Hs DQ) by (by left). cbn [mbind result_bind]. apply Hs. by right. }
  rewrite (Hattr "href"%string) by (repeat constructor; done). cbn [mbind result_bind].
  rewrite (Hattr "src"%string) by (repeat constructor; done). cbn [mbind result_bind].
  rewrite (Hattr "action"%string) by (repeat constructor; done). cbn [mbind result_bind].
  assert (Hurl : ∀ q, q = DQ ∨ q = SQ →
            sub NOFLAGS (css_url_re q) (lit "url(" ++ [q] ++ base_path ++ [SLASH]) text 0
            = Ok text).
  { intros q Hqq. eapply sub_untouched.
    - apply parse_template_plain.
      rewrite !not_elem_of_app, !not_elem_of_cons.
      split_and!; try done; try apply not_elem_of_nil.
      + apply Hlit. repeat constructor; done.
      + destruct Hqq as [-> | ->]; done.
    - intros before a b' ->.
      destruct (exec NOFLAGS (css_url_re q) before [] b' no_caps) eqn:E; [|done].
      apply css_url_re_needs in E. pose proof (Hq q Hqq) as Hq'.
      by rewrite (occurs_inside _ _ a _ E) in Hq'. }
  rewrite (Hurl SQ) by (by right). cbn [mbind result_bind].
  rewrite (Hurl DQ) by (by left). cbn [mbind result_bind].
  eapply sub_untouched.
  - rewrite parse_template_app by (apply Hlit; repeat constructor; done).
    change (ngroups manifest_re) with 1%nat. rewrite Eb. cbn [app].
    rewrite parse_template_group1 by done.
    change (SLASH :: b ++ lit "/manifest.json") with ((SLASH :: b) ++ lit "/manifest.json").
    rewrite parse_template_plain; [done|].
    rewrite not_elem_of_app. split; [by rewrite <- Eb|]. apply Hlit. repeat constructor; done.
  - intros before a b' ->.
    destruct (exec IGNORECASE manifest_re before [] b' no_caps) eqn:E; [|done].
    apply manifest_re_needs in E as (x & y & -> & Hs).
    by rewrite (occurs_ci_mid _ _ _ _ Hs) in Hman.
Qed.

End Untouched.

(** *** Injection at the placeholder *)

Section Injection.

Context `{Unicode}.

Lemma expand_app tpl1 tpl2 m : expand (tpl1 ++ tpl2) m = expand tpl1 m ++ expand tpl2 m.
Proof. unfold expand. apply flat_map_app. Qed.

Lemma expand_lits s m : expand (TLit <$> s) m = s.
Proof. induction s as [|c s IH]; [done|]. cbn. f_equal. exact IH. Qed.

(** The template of the injection for a fragment without a backslash
    that does not begin with a digit. *)
Lemma inject_template content :
  BACKSLASH ∉ content → no_leading_digit content →
  parse_template (ngroups placeholder_re) ([BACKSLASH; 49] ++ content ++ lit "</div>")
  = Ok (TGroup 1 :: (TLit <$> content ++ lit "</div>")).
Proof.
  intros Hb Hd. change (ngroups placeholder_re) with 1%nat.
  assert (Hp : BACKSLASH ∉ content ++ lit "</div>").
  { rewrite not_elem_of_app. split; [done|]. intros Hin.
    assert (Hf : Forall (λ c, c ≠ BACKSLASH) (lit "</div>")) by (repeat constructor; done).
    eapply Forall_forall in Hf; [|exact Hin]. done. }
  destruct content as [|c t].
  - cbn [app]. change (lit "</div>") with (60 :: lit "/div>") at 1.
    rewrite parse_template_group1 by done.
    change (60 :: lit "/div>") with (lit "</div>").
    by rewrite (parse_template_plain _ _ Hp).
  - cbn [app]. rewrite parse_template_group1 by done.
    change (c :: t ++ lit "</div>") with ((c :: t) ++ lit "</div>").
    by rewrite (parse_template_plain _ _ Hp).
Qed.

Lemma placeholder_needs_div before rest :
  starts_ci (lit "<div") rest = false →
  exec IGNORECASE placeholder_re before [] rest no_caps = None.
Proof.
  intros Hs.
  destruct (exec IGNORECASE placeholder_re before [] rest no_caps) as [m|] eqn:E; [|done].
  unfold placeholder_re in E. cbn [app exec] in E. rewrite lits_lits_of in E.
  apply exec_lits_ci in E as [E _]. by rewrite E in Hs.
Qed.

(** The first step of the injection on a shell whose first [div] is the
    placeholder. *)
Lemma inject_step pre post content :
  occurs_ci (lit "<div") pre = false →
  BACKSLASH ∉ content → no_leading_digit content →
  subn IGNORECASE placeholder_re ([BACKSLASH; 49] ++ content ++ lit "</div>")
    (pre ++ PLACEHOLDER_OPEN ++ lit "</div>" ++ post) 1
  = Ok (pre ++ PLACEHOLDER_OPEN ++ content ++ lit "</div>" ++ post, 1%nat).
Proof.
  intros Hpre Hb Hd. rewrite (subn_first _ _ _ _ _ (inject_template _ Hb Hd)).
  unfold search. rewrite search_from_skip.
  2:{ intros a c b ->. apply placeholder_needs_div.
      change (PLACEHOLDER_OPEN ++ lit "</div>" ++ post)
        with (60 :: tail PLACEHOLDER_OPEN ++ lit "</div>" ++ post).
      apply (starts_ci_straddle_inside _ a); [done|].
      repeat constructor. }
  rewrite app_nil_r.
  eassert (E1 : exec IGNORECASE placeholder_re (rev pre) []
                  (PLACEHOLDER_OPEN ++ lit "</div>" ++ post) no_caps = Some _)
    by (vm_compute; reflexivity).
  rewrite (search_from_hit _ _ _ _ _ E1).
  cbn [mk_match mt_before mt_after m_got m_rest]. rewrite rev_involutive.
  change (TGroup 1 :: (TLit <$> content ++ lit "</div>"))
    with ([TGroup 1] ++ (TLit <$> content ++ lit "</div>")).
  rewrite expand_app, expand_lits.
  match goal with
  | |- context [expand [TGroup 1] ?m] =>
      let v := eval vm_compute in (expand [TGroup 1] m) in
      change (expand [TGroup 1] m) with v
  end.
  f_equal. f_equal. rewrite <- !app_assoc. reflexivity.
Qed.

Lemma boot_script_needs_script text :
  occurs_ci (lit "<script") text = false →
  search IGNORECASE boot_script_re text = None.
Proof.
  intros Hno. apply search_from_none. intros pre a b ->.
  destruct (exec IGNORECASE boot_script_re pre [] b no_caps) as [m|] eqn:E; [|done].
  unfold boot_script_re in E. rewrite lits_lits_of in E.
  apply exec_lits_ci in E as [Hs _]. by rewrite (occurs_ci_app _ _ _ Hs) in Hno.
Qed.

Lemma main_class_needs_tag text :
  occurs_ci (lit "<main") text = false →
  search IGNORECASE main_class_re text = None.
Proof.
  intros Hno. apply search_from_none. intros pre a b ->.
  apply main_class_needs_main.
  destruct (starts_ci (lit "<main") b) eqn:Hs; [|done].
  by rewrite (occurs_ci_app _ _ _ Hs) in Hno.
Qed.

Lemma mark_content_ready_untouched text :
  occurs_ci (lit "<main") text = false →
  occurs_ci (lit "aria-busy=") text = false →
  mark_content_ready text = Ok text.
Proof.
  intros Hm Ha. unfold mark_content_ready.
  assert (T1 : parse_template (ngroups main_class_re)
                 ([BACKSLASH; 49] ++ lit "page content-ready" ++ [BACKSLASH; 50])
               = Ok (TGroup 1 :: (TLit <$> lit "page content-ready") ++ [TGroup 2]))
    by (vm_compute; reflexivity).
  assert (T2 : parse_template (ngroups aria_busy_re)
                 ([BACKSLASH; 49] ++ lit "false" ++ [BACKSLASH; 50])
               = Ok (TGroup 1 :: (TLit <$> lit "false") ++ [TGroup 2]))
    by (vm_compute; reflexivity).
  rewrite (sub_first _ _ _ _ _ T1), main_class_needs_tag by done.
  cbn [mbind result_bind].
  by rewrite (sub_first _ _ _ _ _ T2), aria_busy_needs_attr.
Qed.

(** X7: in a shell whose first [div] is the placeholder as the dashboard
    writes it, a fragment without a backslash that does not begin with a
    digit is put between the opening tag of the placeholder and its
    [</div>], the text before and after being kept; the busy-state toggle
    and the removal of the boot script then run on that text, and when it
    has no main tag, no aria-busy attribute and no script tag it is the
    result. *)
Theorem inject_content_first_placeholder (pre post content : str) :
  occurs_ci (lit "<div") pre = false →
  BACKSLASH ∉ content → no_leading_digit content →
  let injected := pre ++ PLACEHOLDER_OPEN ++ content ++ lit "</div>" ++ post in
  _inject_content (pre ++ PLACEHOLDER_OPEN ++ lit "</div>" ++ post) content
  = (mark_content_ready injected ≫= λ marked, sub IGNORECASE boot_script_re [] marked 1)
  ∧ (occurs_ci (lit "<main") injected = false →
     occurs_ci (lit "aria-busy=") injected = false →
     occurs_ci (lit "<script") injected = false →
     _inject_content (pre ++ PLACEHOLDER_OPEN ++ lit "</div>" ++ post) content
     = Ok injected).
Proof.
  intros Hpre Hb Hd injected.
  assert (Hstep : _inject_content (pre ++ PLACEHOLDER_OPEN ++ lit "</div>" ++ post) content
            = (mark_content_ready injected
               ≫= λ marked, sub IGNORECASE boot_script_re [] marked 1)).
  { unfold _inject_content. rewrite (inject_step _ _ _ Hpre Hb Hd). done. }
  split; [done|]. intros Hm Ha Hs. rewrite Hstep.
  rewrite mark_content_ready_untouched by done. cbn [mbind result_bind].
  assert (T : parse_template (ngroups boot_script_re) [] = Ok []) by done.
  by rewrite (sub_first _ _ _ _ _ T), boot_script_needs_script.
Qed.

Lemma placeholder_needs_id text :
  occurs_ci (lit "page-content") text = false →
  search IGNORECASE placeholder_re text = None.
Proof.
  intros Hno. apply search_from_none. intros pre a b ->.
  destruct (exec IGNORECASE placeholder_re pre [] b no_caps) as [m|] eqn:E; [|done].
  exfalso. unfold placeholder_re in E. cbn [app exec] in E.
  rewrite !lits_lits_of in E.
  apply exec_lits_ci in E as [_ E]. cbn [app exec] in E.
  apply greedy_inv in E as (x & y & Hxy & _ & E).
  destruct (xorb _ _); [|done].
  apply exec_lits_ci in E as [_ E]. cbn [app exec] in E.
  destruct (drop (length (lit "id=")) y) as [|q r] eqn:Hy; [done|].
  destruct (test IGNORECASE QUOTE q); [|done].
  apply exec_lits_ci in E as [Hs _].
  assert (Hb : a ++ b = (a ++ take (length (lit "<div")) b ++ x
                         ++ take (length (lit "id=")) y ++ [q]) ++ r).
  { rewrite <- (take_drop (length (lit "<div")) b) at 1. rewrite Hxy.
    rewrite <- (take_drop (length (lit "id=")) y) at 1. rewrite Hy.
    by rewrite <- !app_assoc. }
  by rewrite Hb, (occurs_ci_app _ _ _ Hs) in Hno.
Qed.

Lemma parse_bad_escape g pre c rest :
  BACKSLASH ∉ pre → bad_escape c →
  parse_template g (pre ++ BACKSLASH :: c :: rest) = Raise re_error.
Proof.
  intros Hpre (Hl & He & Hg). rewrite parse_template_app by done.
  cbn [parse_template]. change (BACKSLASH =? BACKSLASH) with true. cbn [negb].
  rewrite (proj2 (N.eqb_neq c 103)) by done.
  assert (Hd : is_ascii_digit c = false).
  { revert Hl. unfold is_ascii_letter, is_ascii_upper, is_ascii_lower, is_ascii_digit,
      in_range.
    destruct (N.leb_spec 65 c), (N.leb_spec c 90), (N.leb_spec 97 c), (N.leb_spec c 122),
      (N.leb_spec 48 c), (N.leb_spec c 57); simpl; try done; lia. }
  assert (H0 : (c =? 48) = false).
  { apply N.eqb_neq. intros ->. by vm_compute in Hd. }
  rewrite H0, Hd, He, Hl. done.
Qed.

(** The group reference in front of the fragment does not rescue a
    fragment with a bad escape. *)
Lemma inject_template_bad_escape pre c rest :
  BACKSLASH ∉ pre → bad_escape c →
  parse_template (ngroups placeholder_re)
    ([BACKSLASH; 49] ++ (pre ++ BACKSLASH :: c :: rest) ++ lit "</div>")
  = Raise re_error.
Proof.
  intros Hpre Hc. change (ngroups placeholder_re) with 1%nat.
  rewrite <- app_assoc. cbn [app].
  set (tail_ := rest ++ lit "</div>").
  assert (Hbad : ∀ p, BACKSLASH ∉ p →
            parse_template 1 (p ++ BACKSLASH :: c :: tail_) = Raise re_error).
  { intros p Hp. by apply parse_bad_escape. }
  assert (Hgroup : ∀ d t, is_ascii_digit d = false →
            parse_template 1 (d :: t) = Raise re_error →
            parse_template 1 (BACKSLASH :: 49 :: d :: t) = Raise re_error).
  { intros d t Hd Ht. rewrite parse_template_group1 by done. by rewrite Ht. }
  destruct pre as [|d1 pre].
  { apply Hgroup; [done|]. apply (Hbad []). apply not_elem_of_nil. }
  apply not_elem_of_cons in Hpre as [Hd1 Hpre].
  destruct (is_ascii_digit d1) eqn:Ed1.
  2:{ apply Hgroup; [done|]. apply (Hbad (d1 :: pre)). by apply not_elem_of_cons. }
  cbn [app parse_template].
  change (BACKSLASH =? BACKSLASH) with true.
  change (49 =? 103) with false. change (49 =? 48) with false.
  change (is_ascii_digit 49) with true. cbn [negb]. rewrite Ed1.
  assert (Hover : ∀ k, addgroup 1 (10 * digit 49 + digit d1) k = Raise re_error).
  { intros k. unfold addgroup. change (digit 49) with 1.
    replace (N.of_nat 1 <? 10 * 1 + digit d1) with true; [done|].
    symmetry. apply N.ltb_lt. lia. }
  destruct pre as [|d2 pre]; cbn [app].
  { change (is_octdigit BACKSLASH) with false. rewrite andb_false_r. apply Hover. }
  destruct (is_octdigit 49 && is_octdigit d1 && is_octdigit d2) eqn:Eo; [|apply Hover].
  apply not_elem_of_cons in Hpre as [Hd2 Hpre].
  apply andb_prop in Eo as [[_ Eo1]%andb_prop Eo2].
  assert (Hdig : ∀ d, is_octdigit d = true → digit d ≤ 7).
  { intros d. unfold is_octdigit, in_range, digit.
    destruct (N.leb_spec 48 d), (N.leb_spec d 55); simpl; try done. lia. }
  apply Hdig in Eo1, Eo2. change (digit 49) with 1.
  replace (255 <? 64 * 1 + 8 * digit d1 + digit d2) with false
    by (symmetry; apply N.ltb_ge; lia).
  by rewrite (Hbad pre Hpre).
Qed.

Lemma inject_template_digit d rest :
  is_ascii_digit d = true →
  (is_octdigit d = false
   ∨ match rest with d2 :: _ => is_octdigit d2 = false | [] => True end) →
  parse_template (ngroups placeholder_re) ([BACKSLASH; 49] ++ (d :: rest) ++ lit "</div>")
  = Raise re_error.
Proof.
  intros Hd Hoct. change (ngroups placeholder_re) with 1%nat.
  cbn [app parse_template].
  change (BACKSLASH =? BACKSLASH) with true.
  change (49 =? 103) with false. change (49 =? 48) with false.
  change (is_ascii_digit 49) with true. cbn [negb]. rewrite Hd.
  assert (Hover : ∀ k, addgroup 1 (10 * digit 49 + digit d) k = Raise re_error).
  { intros k. unfold addgroup. change (digit 49) with 1.
    replace (N.of_nat 1 <? 10 * 1 + digit d) with true; [done|].
    symmetry. apply N.ltb_lt. lia. }
  destruct rest as [|d2 rest]; cbn [app].
  - change (lit "</div>") with (60 :: lit "/div>"). cbv iota beta.
    change (is_octdigit 60) with false. rewrite andb_false_r. apply Hover.
  - destruct Hoct as [-> | ->]; [rewrite andb_false_r|rewrite andb_false_r]; apply Hover.
Qed.

(** X8: the errors of [_inject_content]. A shell in which [page-content]
    does not occur raises the RuntimeError of the missing placeholder, for
    a fragment without a backslash that does not begin with a digit. In
    any shell, also one without a placeholder, a fragment whose first
    backslash stands in front of a letter that begins no escape raises
    [re.error], and so does a fragment that begins with a digit, unless
    that digit and the next character are octal digits: the digit is read
    as part of the group reference in front of the fragment. *)
Theorem inject_content_errors (shell_html : str) :
  (∀ content, occurs_ci (lit "page-content") shell_html = false →
     BACKSLASH ∉ content → no_leading_digit content →
     _inject_content shell_html content = Raise (RuntimeError INJECT_FAILED))
  ∧ (∀ pre c rest, BACKSLASH ∉ pre → bad_escape c →
       _inject_content shell_html (pre ++ BACKSLASH :: c :: rest) = Raise re_error)
  ∧ (∀ d rest, is_ascii_digit d = true →
       (is_octdigit d = false
        ∨ match rest with d2 :: _ => is_octdigit d2 = false | [] => True end) →
       _inject_content shell_html (d :: rest) = Raise re_error).
Proof.
  split_and!.
  - intros content Hno Hb Hd. unfold _inject_content.
    rewrite (subn_first _ _ _ _ _ (inject_template _ Hb Hd)).
    by rewrite placeholder_needs_id.
  - intros pre c rest Hpre Hc. unfold _inject_content, subn.
    by rewrite inject_template_bad_escape.
  - intros d rest Hd Hoct. unfold _inject_content, subn.
    by rewrite inject_template_digit.
Qed.

End Injection.

(** *** The busy-state toggle on any main container *)

Section GreedyChoice.




End GreedyChoice.

Section LiteralFacts.

Context `{Unicode}.

Lemma lit_matches_refl c : lit_matches IGNORECASE c c = true.
Proof.
  unfold lit_matches. destruct (ignorecase IGNORECASE && is_ascii_letter c).
  - by rewrite N.eqb_refl.
  - apply N.eqb_refl.
Qed.


Lemma starts_ci_refl w s : starts_ci w (w ++ s) = true.
Proof. induction w as [|c w IH]; [done|]. cbn. by rewrite lit_matches_refl. Qed.














End LiteralFacts.



Section ClassEdit.

Context `{Unicode}.











End ClassEdit.

Section BusyEdit.

Context `{Unicode}.






End BusyEdit.

Section Toggle.

Context `{Unicode}.


End Toggle.

(** *** The statements on concrete runs *)

Section Examples.

#[local] Existing Instance example_unicode.
#[local] Existing Instance example_runtime.


(** C4 on two files listed out of order: a.yml is read first, [about]
    counts once, and [home] comes first. *)
Lemma discover_slugs_spec_witness :
  readable two_files
  ∧ declared_slugs two_files = [lit "data"; lit "about"; lit "about"; lit "home"]
  ∧ ∃ slugs,
      _discover_slugs two_files = Ok slugs
      ∧ slugs = [lit "home"; lit "data"; lit "about"]
      ∧ NoDup slugs
      ∧ length slugs = size (list_to_set (declared_slugs two_files) : gset str).
Proof.
  assert (Hr : readable two_files) by reflexivity.
  destruct (discover_slugs_spec two_files Hr) as (slugs & Hd & Hnd & _ & Hlen & _).
  split; [exact Hr|]. split; [vm_compute; reflexivity|].
  exists slugs. split; [exact Hd|]. split; [|by split].
  assert (Hd' : _discover_slugs two_files = Ok [lit "home"; lit "data"; lit "about"])
    by (vm_compute; reflexivity).
  rewrite Hd' in Hd. by injection Hd.
Defined.



(** C7 on the example site when its shell has no link of the bundle. *)
Lemma main_aborts_without_bundle_witness :
  (example_run true bare_shell []).1
    = Raised (RuntimeError (lit "Could not find bundle.css path in page HTML"))
  ∧ exit_status (example_run true bare_shell []).1 = 1%Z
  ∧ omap text_write_path (trace (example_run true bare_shell []).2) = [].
Proof.
  pose proof (main_aborts_without_bundle (example_args true)
                (example_world true bare_shell [])
                (main_setup (example_args true) (example_world true bare_shell [])).2
                (example_run true bare_shell []).2
                [lit "home"; lit "about"] bare_shell) as Hmain.
  destruct Hmain as (Hm & Hs & _); [vm_compute; reflexivity..|].
  split; [|split]; [| exact Hs |vm_compute; reflexivity].
  unfold example_run. by rewrite Hm.
Defined.



(** C10 on a configuration directory that does not exist. *)
Lemma discover_slugs_missing_inputs_witness :
  no_declarations_found None
  ∧ _discover_slugs None = Ok []
  ∧ run_script
      (Parsed {| glance_url_arg := lit "http://dash"; base_path_arg := [];
                 config_dir_arg := None |})
      (example_world false example_shell [])
    = (2%Z, log (Print true) (example_world false example_shell [])).
Proof.
  assert (Hn : no_declarations_found None) by reflexivity.
  destruct (discover_slugs_missing_inputs
              {| glance_url_arg := lit "http://dash"; base_path_arg := [];
                 config_dir_arg := None |}
              (example_world false example_shell []) Hn) as (Hd & _ & _ & Hs).
  split; [exact Hn|]. split; [exact Hd|exact Hs].
Defined.

(** C10 as stated fails: a declaration file that exists and cannot be
    read makes discovery raise, and the run ends with the exception. *)
Lemma discover_slugs_unreadable_raises :
  no_readable_declarations locked_config
  ∧ _discover_slugs locked_config = Raise OSError
  ∧ (main {| glance_url_arg := lit "http://dash"; base_path_arg := [];
             config_dir_arg := locked_config |}
       (example_world false example_shell [])).1 = Raised OSError
  ∧ exit_status
      (main {| glance_url_arg := lit "http://dash"; base_path_arg := [];
               config_dir_arg := locked_config |}
         (example_world false example_shell [])).1 = 1%Z.
Proof. split_and!; vm_compute; reflexivity. Qed.

End Examples.

(** *** The properties of the functions on concrete inputs *)

Section MoreExamples.

#[local] Existing Instance example_unicode.
#[local] Existing Instance example_runtime.

Local Ltac by_decide := apply (bool_decide_unpack _); vm_compute; exact I.

(** X1 on blanks around two slashes. *)
Lemma normalize_base_path_empty_iff_witness :
  only_slashes (strip (lit " // ")) ∧ _normalize_base_path (lit " // ") = [].
Proof.
  assert (Hs : only_slashes (strip (lit " // "))) by (vm_compute; repeat constructor).
  split; [exact Hs|]. exact (proj2 (normalize_base_path_empty_iff (lit " // ")) Hs).
Defined.

(** X2 on [docs/]. *)
Lemma normalize_base_path_idempotent_witness :
  no_space (lit "docs/")
  ∧ _normalize_base_path (_normalize_base_path (lit "docs/")) = lit "/docs".
Proof.
  assert (Hs : no_space (lit "docs/")) by (repeat constructor).
  split; [exact Hs|].
  rewrite (proj1 normalize_base_path_idempotent _ Hs). vm_compute. reflexivity.
Defined.

(** X3 on an indented declaration with blanks after it. *)
Lemma slug_line_grammar_witness :
  line_slug (lit "  slug: about  ") = Some (lit "about").
Proof.
  apply (proj2 (slug_line_grammar (lit "  slug: about  ") (lit "about"))).
  exists (lit "  "), (lit " "), (lit "  ").
  split; [reflexivity|]. split_and!; try (repeat constructor); done.
Defined.

(** X4 on the two declaration files. *)
Lemma discovered_slugs_path_safe_witness :
  _discover_slugs two_files = Ok [lit "home"; lit "data"; lit "about"]
  ∧ Forall (λ s, s ≠ [] ∧ forallb slug_char s = true
                 ∧ pathlib_parts s = [s]
                 ∧ resolve (page_path s) = page_path s)
      [lit "home"; lit "data"; lit "about"].
Proof.
  assert (Hd : _discover_slugs two_files = Ok [lit "home"; lit "data"; lit "about"])
    by (vm_compute; reflexivity).
  split; [exact Hd|]. exact (discovered_slugs_path_safe two_files _ Hd).
Defined.

(** X5 on the example shell. *)
Lemma extract_bundle_css_path_shape_witness :
  _extract_bundle_css_path example_shell = Ok BUNDLE
  ∧ static_path "/css/bundle.css" BUNDLE ∧ leading_slash BUNDLE.
Proof.
  assert (He : _extract_bundle_css_path example_shell = Ok BUNDLE)
    by (vm_compute; reflexivity).
  destruct (proj1 (extract_bundle_css_path_shape example_shell) BUNDLE He) as (Hp & Hl & _).
  by split.
Defined.

(** X6 on the example shell and on the shell without a script. *)
Lemma extract_page_js_path_shape_witness :
  _extract_page_js_path example_shell = Some (lit "/static/abc123/js/page.js")
  ∧ static_path "/js/page.js" (lit "/static/abc123/js/page.js")
  ∧ _extract_page_js_path bare_shell = None.
Proof.
  assert (He : _extract_page_js_path example_shell = Some (lit "/static/abc123/js/page.js"))
    by (vm_compute; reflexivity).
  destruct (proj1 (extract_page_js_path_shape example_shell) _ He) as (Hp & _ & _).
  split; [exact He|]. split; [exact Hp|].
  apply (proj2 (extract_page_js_path_shape bare_shell)). reflexivity.
Defined.

(** X7 on a shell that is the placeholder in an [html] element. *)
Lemma inject_content_first_placeholder_witness :
  _inject_content (lit "<html>" ++ PLACEHOLDER_OPEN ++ lit "</div>" ++ lit "</html>")
    (lit "<p>hi</p>")
  = Ok (lit "<html>" ++ PLACEHOLDER_OPEN ++ lit "<p>hi</p>" ++ lit "</div>" ++ lit "</html>").
Proof.
  assert (Hb : BACKSLASH ∉ lit "<p>hi</p>") by by_decide.
  destruct (inject_content_first_placeholder (lit "<html>") (lit "</html>") (lit "<p>hi</p>"))
    as [_ Hin]; [reflexivity|exact Hb|reflexivity|].
  apply Hin; reflexivity.
Defined.

(** X8 on a shell without a placeholder, a bad escape and a leading digit. *)
Lemma inject_content_errors_witness :
  _inject_content (lit "<p>no</p>") (lit "ok") = Raise (RuntimeError INJECT_FAILED)
  ∧ _inject_content (SHELL []) (lit "a\dz") = Raise re_error
  ∧ _inject_content (SHELL []) (lit "5 apples") = Raise re_error.
Proof.
  split_and!.
  - apply (proj1 (inject_content_errors (lit "<p>no</p>"))); [reflexivity| |reflexivity].
    by_decide.
  - apply (proj1 (proj2 (inject_content_errors (SHELL []))) (lit "a") 100 (lit "z")).
    + by_decide.
    + split_and!; [reflexivity|reflexivity|done].
  - apply (proj2 (proj2 (inject_content_errors (SHELL []))) 53 (lit " apples")).
    + reflexivity.
    + right. reflexivity.
Defined.

(** X9 on an unquoted reference. *)
Lemma rewrite_base_paths_untouched_witness :
  _rewrite_base_paths (lit "a{background:url(/bg.png)}") REPO
  = Ok (lit "a{background:url(/bg.png)}").
Proof.
  apply rewrite_base_paths_untouched; try reflexivity.
  by_decide.
Defined.

(** X10 on the base paths [repo] and [ / ]. *)
Lemma final_pass_never_fails_witness :
  (∃ w', rewrite_pass (_normalize_base_path (lit "repo")) two_kinds_world = (Val (), w'))
  ∧ rewrite_pass (_normalize_base_path (lit " / ")) two_kinds_world
    = (Val (), two_kinds_world).
Proof.
  destruct (final_pass_never_fails (lit "repo") two_kinds_world) as [Hok _].
  destruct (final_pass_never_fails (lit " / ") two_kinds_world) as [_ Hsame].
  split.
  - apply Hok. by_decide.
  - apply Hsame. vm_compute. repeat constructor.
Defined.


(** X12 on the font of the example bundle. *)
Lemma css_refs_confined_witness :
  FONT_PATH ∈ css_refs BUNDLE FONT_CSS
  ∧ leading_slash FONT_PATH
  ∧ resolve (pathlib_parts (lstrip_slash FONT_PATH))
    = [lit "static"; lit "abc123"; lit "fonts"; lit "a.woff2"].
Proof.
  assert (Hin : FONT_PATH ∈ css_refs BUNDLE FONT_CSS)
    by by_decide.
  destruct (css_refs_confined _ _ _ Hin) as [Hl _].
  split; [exact Hin|]. split; [exact Hl|]. vm_compute. reflexivity.
Defined.


(** X14 on a dashboard that never answers. *)
Lemma main_status_3_witness :
  ∃ w', main (example_args true) silent_world = (Return 3, w')
        ∧ tree w' = tree silent_world.
Proof.
  destruct (main_status_3 (example_args true) silent_world) as [[_ Hback] Hstate].
  destruct Hback as [w' Hrun].
  { exists [lit "home"; lit "about"]. split; [vm_compute; reflexivity|].
    split; [done|]. intros i _. reflexivity. }
  exists w'. split; [exact Hrun|]. by apply Hstate.
Defined.

(** X15 on a repository without assets. *)
Lemma main_status_4_witness :
  (main (example_args true) bare_repo_world).1 = Return 4
  ∧ tree (main (example_args true) bare_repo_world).2 = ∅.
Proof.
  assert (Hrun : main (example_args true) bare_repo_world
                 = (Return 4, (main (example_args true) bare_repo_world).2))
    by (vm_compute; reflexivity).
  destruct (main_status_4 _ _ _ Hrun) as (_ & Ht & _).
  split; [by rewrite Hrun|exact Ht].
Defined.

(** X16 on the example site, which serves no manifest. *)
Lemma main_setup_tree_witness :
  (main_setup (example_args true) (example_world true example_shell FONT_CSS)).1
  = Val [lit "home"; lit "about"]
  ∧ tree (main_setup (example_args true) (example_world true example_shell FONT_CSS)).2
      !! [lit "assets"; lit "user.css"]
    = Some (lit "a{background:url('/assets/bg.png')}")
  ∧ tree (main_setup (example_args true) (example_world true example_shell FONT_CSS)).2
      !! [lit "manifest.json"] = None.
Proof.
  assert (Hrun : main_setup (example_args true) (example_world true example_shell FONT_CSS)
                 = (Val [lit "home"; lit "about"],
                    (main_setup (example_args true)
                       (example_world true example_shell FONT_CSS)).2))
    by (vm_compute; reflexivity).
  destruct (main_setup_tree _ _ _ _ Hrun) as (files & k & Has & Hfiles & _).
  split; [vm_compute; reflexivity|]. split; [|vm_compute; reflexivity].
  rewrite Hfiles. injection Has as <-. vm_compute. reflexivity.
Defined.

(** X17 on the example site. *)
Lemma successful_run_files_witness :
  (example_run true example_shell FONT_CSS).1 = Return 0
  ∧ tree (example_run true example_shell FONT_CSS).2 !! [lit ".nojekyll"] = Some []
  ∧ is_Some (tree (example_run true example_shell FONT_CSS).2
               !! [lit "assets"; lit "user.css"]).
Proof.
  assert (Hrun : main (example_args true) (example_world true example_shell FONT_CSS)
                 = (Return 0, (example_run true example_shell FONT_CSS).2))
    by (vm_compute; reflexivity).
  destruct (successful_run_files _ _ _ Hrun) as (Hmark & _ & files & Has & Hfiles).
  split; [vm_compute; reflexivity|]. split; [exact Hmark|].
  injection Has as <-. apply Hfiles. vm_compute. by eexists.
Defined.

(** X18 on a rejected command line and on the example site. *)
Lemma script_status_2_witness :
  (run_script UsageError (example_world true example_shell FONT_CSS)).1 = 2%Z
  ∧ (run_script (Parsed (example_args true)) (example_world true example_shell FONT_CSS)).1
    ≠ 2%Z.
Proof.
  split.
  - apply (proj2 (script_status_2 UsageError _)). by left.
  - intros Hs. apply (proj1 (script_status_2 _ _)) in Hs as [Hs|(a & [= <-] & Hd)]; [done|].
    by vm_compute in Hd.
Defined.

End MoreExamples.
